(** * RaGOO chimera breaking: a shallow embedding of
    [ragoo_utilities/break_chimera.py] and the properties of its
    breakpoint inference.

    Python integers are [Z], Python lists are [list], dictionaries keyed by
    contig names are [gmap string _], and a raised exception is the [Raise]
    branch of [result]. *)

From Stdlib Require Import ZArith Lia List Ascii String Sorted Permutation Bool.
From stdpp Require Import gmap strings list fin_maps pretty.

Local Open Scope Z_scope.

(** ** Exceptions and the error monad *)

Inductive exn : Type :=
| IndexError
| KeyError
| ValueError
| AssertionError
| ZeroDivisionError.

Inductive result (A : Type) : Type :=
| Ok (a : A)
| Raise (e : exn).
Arguments Ok {A} a.
Arguments Raise {A} e.

#[global] Instance result_ret : MRet result := fun A a => Ok a.
#[global] Instance result_bind : MBind result := fun A B f m =>
  match m with
  | Ok a => f a
  | Raise e => Raise e
  end.

Definition is_Ok {A} (r : result A) : Prop := ∃ a, r = Ok a.

(** ** Python built-ins used by the module *)

(** [l[i]] for a Python list: negative indices count from the end, anything
    out of range raises [IndexError]. *)
Definition getitem {A} (l : list A) (i : Z) : result A :=
  let n := Z.of_nat (length l) in
  let j := if i <? 0 then i + n else i in
  if (0 <=? j) && (j <? n) then
    match l !! Z.to_nat j with
    | Some a => Ok a
    | None => Raise IndexError
    end
  else Raise IndexError.

(** [range(a, b)] *)
Definition range (a b : Z) : list Z :=
  map (fun k => a + Z.of_nat k) (seq 0 (Z.to_nat (b - a))).

(** [sorted(l)] under a comparison [le]: a stable insertion sort, which
    returns the same list as Python's stable sort. *)
Section Sorted.
Context {A : Type} (le : A → A → bool).

Fixpoint insert_sorted (x : A) (l : list A) : list A :=
  match l with
  | [] => [x]
  | y :: l' => if le x y then x :: y :: l' else y :: insert_sorted x l'
  end.

Fixpoint sorted (l : list A) : list A :=
  match l with
  | [] => []
  | x :: l' => insert_sorted x (sorted l')
  end.
End Sorted.

(** [sum(l)], [max(l)] and [l.index(x)] on lists of integers *)
Definition sum (l : list Z) : Z := fold_left Z.add l 0.

Definition max_list (l : list Z) : result Z :=
  match l with
  | [] => Raise ValueError
  | x :: l' => Ok (fold_left Z.max l' x)
  end.

Fixpoint index_from {A} `{EqDecision A} (x : A) (l : list A) (k : Z)
    : result Z :=
  match l with
  | [] => Raise ValueError
  | y :: l' => if decide (y = x) then Ok k else index_from x l' (k + 1)
  end.

Definition index {A} `{EqDecision A} (l : list A) (x : A) : result Z :=
  index_from x l 0.

(** A list comprehension whose body can raise. *)
Fixpoint traverse {A B} (f : A → result B) (l : list A) : result (list B) :=
  match l with
  | [] => Ok []
  | x :: l' => y ← f x; ys ← traverse f l'; Ok (y :: ys)
  end.

(** [l[a:b]]: both bounds are taken from the end when negative and clipped
    to the length. *)
Definition clip (n i : Z) : Z :=
  if i <? 0 then Z.max 0 (i + n) else Z.min i n.

Definition slice {A} (l : list A) (a b : Z) : list A :=
  let n := Z.of_nat (length l) in
  let lo := clip n a in
  let hi := clip n b in
  take (Z.to_nat (hi - lo)) (drop (Z.to_nat lo) l).

(** [str(i)] for an integer *)
Definition str (i : Z) : string := pretty i.

(** ** The alignment collection

    [ContigAlignment] exposes one contig's alignments as parallel lists. *)

Inductive strand : Type := Plus | Minus.

#[global] Instance strand_eq_dec : EqDecision strand.
Proof. solve_decision. Defined.

Record ContigAlignment : Type := {
  contig : string;
  query_lens : list Z;
  query_starts : list Z;
  query_ends : list Z;
  ref_headers : list string;
  ref_lens : list Z;
  ref_starts : list Z;
  ref_ends : list Z;
  aln_lens : list Z;
  strands : list strand
}.

(** All the parallel lists have one entry per alignment. *)
Definition wf_alns (a : ContigAlignment) : Prop :=
  let n := length (ref_headers a) in
  length (query_lens a) = n ∧ length (query_starts a) = n ∧
  length (query_ends a) = n ∧ length (ref_starts a) = n ∧
  length (ref_ends a) = n ∧ length (aln_lens a) = n ∧
  length (strands a) = n.

(** ** Coverage scorer: [get_ref_parts] *)

Definition interval : Type := Z * Z.

(** [all_intervals[k].append(v)] on a [defaultdict(list)], kept as an
    association list in insertion order. *)
Fixpoint dd_append (k : string) (v : interval)
    (d : list (string * list interval)) : list (string * list interval) :=
  match d with
  | [] => [(k, [v])]
  | (k', vs) :: d' =>
      if decide (k = k') then (k', vs ++ [v]) :: d'
      else (k', vs) :: dd_append k v d'
  end.

(** The first loop of [get_ref_parts]. *)
Fixpoint collect_intervals (alns : ContigAlignment) (l : Z) (idxs : list Z)
    (all_intervals : list (string * list interval))
    : result (list (string * list interval)) :=
  match idxs with
  | [] => Ok all_intervals
  | i :: idxs' =>
      len ← getitem (aln_lens alns) i;
      if len <? l then collect_intervals alns l idxs' all_intervals
      else
        h ← getitem (ref_headers alns) i;
        s ← getitem (ref_starts alns) i;
        e ← getitem (ref_ends alns) i;
        collect_intervals alns l idxs' (dd_append h (s, e) all_intervals)
  end.

(** The sweep over one chromosome's intervals, already sorted by start:
    the body of the inner [for j in sorted_intervals] loop, with the
    running [ranges[i]] as accumulator. *)
Fixpoint sweep (sorted_intervals : list interval) (max_end acc : Z) : Z :=
  match sorted_intervals with
  | [] => acc
  | j :: rest =>
      let start_new_terr := Z.max j.1 max_end in
      sweep rest (Z.max max_end j.2) (acc + Z.max 0 (j.2 - start_new_terr))
  end.

Definition by_start (a b : interval) : bool := a.1 <=? b.1.

(** [ranges[i]] once the sweep of chromosome [i] is over. *)
Definition covered_length (ivs : list interval) : Z :=
  sweep (sorted by_start ivs) (-1) 0.

Section GetRefParts.
(** The threshold test [(x / total_sum) * 100 > float(p)] is computed in
    double precision; it is kept abstract (for [total_sum ≠ 0]), over
    whatever type [p] has. *)
Context {P : Type} (pct_exceeds : Z → Z → P → bool).

Fixpoint select_refs (ranges : list (string * Z)) (total_sum : Z)
    (p : P) (r : Z) : result (list string) :=
  match ranges with
  | [] => Ok []
  | (i, x) :: ranges' =>
      if total_sum =? 0 then Raise ZeroDivisionError
      else
        rest ← select_refs ranges' total_sum p r;
        Ok (if pct_exceeds x total_sum p && (r <? x) then i :: rest
            else rest)
  end.

Definition get_ref_parts (alns : ContigAlignment) (l : Z) (p : P) (r : Z)
    : result (list string) :=
  all_intervals ←
    collect_intervals alns l
      (range 0 (Z.of_nat (length (ref_headers alns)))) [];
  let ranges := map (fun kv => (kv.1, covered_length kv.2)) all_intervals in
  let total_sum := sum (map snd ranges) in
  select_refs ranges total_sum p r.
End GetRefParts.

(** A bitmap reference for the union length: the number of integer
    positions that lie in at least one of the half-open intervals. *)
Definition covers (ivs : list interval) (x : Z) : bool :=
  existsb (fun j => (j.1 <=? x) && (x <? j.2)) ivs.

Fixpoint count (f : Z → bool) (lo : Z) (n : nat) : Z :=
  match n with
  | O => 0
  | S n' => Z.b2z (f lo) + count f (lo + 1) n'
  end.

Definition lowest_start (ivs : list interval) : Z :=
  match ivs with
  | [] => 0
  | j :: ivs' => fold_left Z.min (map fst ivs') j.1
  end.

Definition highest_end (ivs : list interval) : Z :=
  match ivs with
  | [] => 0
  | j :: ivs' => fold_left Z.max (map snd ivs') j.2
  end.

Definition naive_union_length (ivs : list interval) : Z :=
  let lo := lowest_start ivs in
  count (covers ivs) lo (Z.to_nat (highest_end ivs - lo)).

(** ** The alignment collection's filters *)

(** The entries of [l] at the positions where [mask] is true. *)
Fixpoint keep {A} (mask : list bool) (l : list A) : list A :=
  match mask, l with
  | b :: mask', x :: l' => if b then x :: keep mask' l' else keep mask' l'
  | _, _ => []
  end.

Definition update_alns (mask : list bool) (a : ContigAlignment)
    : ContigAlignment :=
  {| contig := contig a;
     query_lens := keep mask (query_lens a);
     query_starts := keep mask (query_starts a);
     query_ends := keep mask (query_ends a);
     ref_headers := keep mask (ref_headers a);
     ref_lens := keep mask (ref_lens a);
     ref_starts := keep mask (ref_starts a);
     ref_ends := keep mask (ref_ends a);
     aln_lens := keep mask (aln_lens a);
     strands := keep mask (strands a) |}.

(** Modelled from the spec: [ContigAlignment.filter_ref_chroms], which
    restricts the alignments to a chosen subset of reference chromosome
    names. *)
Definition filter_ref_chroms (chroms : list string) (a : ContigAlignment)
    : ContigAlignment :=
  update_alns (map (fun h => bool_decide (h ∈ chroms)) (ref_headers a)) a.

(** Modelled from the spec: [ContigAlignment.filter_lengths], which
    restricts the alignments to those of length at least the minimum. *)
Definition filter_lengths (l : Z) (a : ContigAlignment) : ContigAlignment :=
  update_alns (map (fun n => l <=? n) (aln_lens a)) a.

(** Alignment objects live in a store; a variable holds a location. The
    filters are methods that mutate their object in place. *)
Definition loc : Type := positive.

(** [copy.deepcopy(x)]: a fresh object with the same contents. *)
Definition deepcopy (σ : gmap loc ContigAlignment) (a : ContigAlignment)
    : gmap loc ContigAlignment * loc :=
  let c := fresh (dom σ) in (<[c := a]> σ, c).

(** ** Interchromosomal clusterer: [get_borders], [cluster_contig_alns] *)

(** The [for i in range(1, len(ordered_refs)-1)] loop of [get_borders];
    [and] evaluates [ordered_refs[i+1]] only when the first test holds. *)
Fixpoint borders_loop (ordered_refs : list string) (alns : ContigAlignment)
    (order : list Z) (idxs : list Z) (current_ref : string)
    (borders : list Z) : result (list Z) :=
  match idxs with
  | [] => Ok borders
  | i :: idxs' =>
      ri ← getitem ordered_refs i;
      if decide (ri ≠ current_ref) then
        rn ← getitem ordered_refs (i + 1);
        if decide (rn ≠ current_ref) then
          o ← getitem order (i - 1);
          qe ← getitem (query_ends alns) o;
          borders_loop ordered_refs alns order idxs' ri (borders ++ [qe])
        else borders_loop ordered_refs alns order idxs' current_ref borders
      else borders_loop ordered_refs alns order idxs' current_ref borders
  end.

(** [[(borders[i], borders[i+1]) for i in range(len(borders)-1)]] *)
Fixpoint consecutive (borders : list Z) : list interval :=
  match borders with
  | b :: (b' :: _) as rest => (b, b') :: consecutive rest
  | _ => []
  end.

Definition get_borders (ordered_refs : list string) (alns : ContigAlignment)
    (order : list Z) : result (list interval) :=
  current_ref ← getitem ordered_refs 0;
  borders ←
    borders_loop ordered_refs alns order
      (range 1 (Z.of_nat (length ordered_refs) - 1)) current_ref [0];
  qlen ← getitem (query_lens alns) 0;
  Ok (consecutive (borders ++ [qlen])).

(** Python's order on tuples [(a, b, i)] of integers. *)
Definition tuple_le (x y : Z * Z * Z) : bool :=
  let '(a, b, i) := x in
  let '(a', b', i') := y in
  (a <? a') || ((a =? a') && ((b <? b') || ((b =? b') && (i <=? i')))).

(** [[(xs[i], ys[i], i) for i in range(n)]] *)
Definition positions (xs ys : list Z) (n : nat) : result (list (Z * Z * Z)) :=
  traverse (fun i => x ← getitem xs i; y ← getitem ys i; Ok (x, y, i))
    (range 0 (Z.of_nat n)).

(** The body of [cluster_contig_alns] below the filter. *)
Definition clustered (ctg_alns : ContigAlignment) : result (list interval) :=
  query_pos ←
    positions (query_starts ctg_alns) (query_ends ctg_alns)
      (length (ref_headers ctg_alns));
  let final_order := map snd (sorted tuple_le query_pos) in
  final_refs ← traverse (getitem (ref_headers ctg_alns)) final_order;
  get_borders final_refs ctg_alns final_order.

(** [alns] maps contig names to alignment objects; the object of [contig]
    is filtered in place before it is read. (A variable always refers to
    an object: the second [KeyError] is never reached from Python.) *)
Definition cluster_contig_alns (σ : gmap loc ContigAlignment)
    (contig : string) (alns : gmap string loc) (chroms : list string) (l : Z)
    : gmap loc ContigAlignment * result (list interval) :=
  match alns !! contig with
  | None => (σ, Raise KeyError)
  | Some x =>
      match σ !! x with
      | None => (σ, Raise KeyError)
      | Some a =>
          let ctg_alns := filter_ref_chroms chroms a in
          (<[x := ctg_alns]> σ, clustered ctg_alns)
      end
  end.

(** ** The interval index ([intervaltree.IntervalTree])

    A tree is a set of intervals [(begin, end, data)]; [t[b:e] = data]
    adds one and refuses a null interval, [t[p]] is the set of intervals
    with [begin <= p < end]. *)

Definition Interval : Type := Z * Z * interval.
Definition IntervalTree : Type := list Interval.

Definition tree_add (t : IntervalTree) (b e : Z) (data : interval)
    : result IntervalTree :=
  if bool_decide ((b, e, data) ∈ t) then Ok t
  else if e <=? b then Raise ValueError
  else Ok (t ++ [(b, e, data)]).

Definition tree_at (t : IntervalTree) (p : Z) : list Interval :=
  List.filter (fun iv => (iv.1.1 <=? p) && (p <? iv.1.2)) t.

(** ** Features *)

Record feature : Type := {
  seqname : string;
  start : Z;
  end_ : Z;
  attributes : string
}.

(** ** Breakpoint adjuster: [avoid_gff_intervals] *)

Fixpoint feature_tree (gff_ins : list feature) (t : IntervalTree)
    : result IntervalTree :=
  match gff_ins with
  | [] => Ok t
  | line :: gff_ins' =>
      if start line =? end_ line then feature_tree gff_ins' t
      else
        t' ← tree_add t (start line) (end_ line) (start line, end_ line);
        feature_tree gff_ins' t'
  end.

(** The [while interval_query:] loops, which step a coordinate by one
    until no interval of the tree contains it; [None] when the fuel runs
    out before the loop ends. *)
Fixpoint probe (fuel : nat) (t : IntervalTree) (p : Z) : option Z :=
  match fuel with
  | O => None
  | S fuel' =>
      match tree_at t p with
      | [] => Some p
      | _ :: _ => probe fuel' t (p + 1)
      end
  end.

Fixpoint adjust (fuel : nat) (t : IntervalTree) (borders : list interval)
    : option (list interval) :=
  match borders with
  | [] => Some []
  | i :: borders' =>
      s ← probe fuel t i.1;
      e ← probe fuel t i.2;
      rest ← adjust fuel t borders';
      Some ((s, e) :: rest)
  end.

Definition avoid_gff_intervals (fuel : nat) (borders : list interval)
    (gff_ins : list feature) : option (result (list interval)) :=
  match feature_tree gff_ins [] with
  | Raise e => Some (Raise e)
  | Ok t =>
      new_borders ← adjust fuel t borders;
      Some (last_new ← getitem new_borders (-1);
            last_old ← getitem borders (-1);
            Ok (slice new_borders 0 (-1) ++ [(last_new.1, last_old.2)]))
  end.

(** ** Names of the pieces *)

Definition broken_name (contig : string) (b : interval) : string :=
  contig +:+ "_chimera_broken:" +:+ str b.1 +:+ "-" +:+ str b.2.

(** ** Feature remapper: [update_gff]

    [features] is a dictionary mutated in place: the function is given
    its contents and yields its contents afterwards, together with what
    the call returned or raised. *)

Fixpoint border_tree (borders : list interval) (t : IntervalTree)
    : result IntervalTree :=
  match borders with
  | [] => Ok t
  | i :: borders' => t' ← tree_add t i.1 i.2 i; border_tree borders' t'
  end.

Fixpoint remap (contig : string) (borders : list interval)
    (t : IntervalTree) (contig_feats : list feature)
    (features : gmap string (list feature))
    : gmap string (list feature) * result () :=
  match contig_feats with
  | [] => (features, Ok ())
  | i :: contig_feats' =>
      match tree_at t (start i) with
      | [query] =>
          let break_start := query.1.1 in
          let break_end := query.1.2 in
          let query_border := (break_start, break_end) in
          match break_number ← index borders query_border;
                getitem borders break_number with
          | Raise e => (features, Raise e)
          | Ok b =>
              let i' := {| seqname := broken_name contig b;
                           start := start i - break_start;
                           end_ := end_ i - break_start;
                           attributes := attributes i |} in
              match features !! broken_name contig b with
              | None => (features, Raise KeyError)
              | Some fs =>
                  remap contig borders t contig_feats'
                    (<[broken_name contig b := fs ++ [i']]> features)
              end
          end
      | _ => (features, Raise AssertionError)
      end
  end.

Definition update_gff (features : gmap string (list feature))
    (borders : list interval) (contig : string)
    : gmap string (list feature) * result () :=
  match features !! contig with
  | None => (features, Raise KeyError)
  | Some contig_feats =>
      let features :=
        fold_left (fun m b => <[broken_name contig b := []]> m) borders
          (delete contig features) in
      match border_tree borders [] with
      | Raise e => (features, Raise e)
      | Ok t => remap contig borders t contig_feats features
      end
  end.

(** ** Sequence splitter: [break_contig]

    [contigs_dict] is mutated in place as well. *)

Definition break_loop (header : string) (seq : list ascii)
    (break_points : list interval)
    (state : gmap string (list ascii) * list ascii)
    : gmap string (list ascii) * list ascii :=
  fold_left
    (fun st bp =>
       (<[broken_name header bp := slice seq bp.1 bp.2]> st.1,
        st.2 ++ slice seq bp.1 bp.2))
    break_points state.

Definition break_contig (contigs_dict : gmap string (list ascii))
    (header : string) (break_points : list interval)
    : gmap string (list ascii) * result () :=
  match contigs_dict !! header with
  | None => (contigs_dict, Raise KeyError)
  | Some seq =>
      let '(contigs_dict, test_seq) :=
        break_loop header seq break_points (delete header contigs_dict, [])
      in
      if decide (test_seq = seq) then (contigs_dict, Ok ())
      else (contigs_dict, Raise AssertionError)
  end.

(** ** Intrachromosomal detector: [get_intra_contigs] *)

(** [[xs[order[i+1]] - xs[order[i]] for i in range(len(order)-1)]], with
    [f] applied to each difference. *)
Definition distances (f : Z → Z) (xs : list Z) (final_order : list Z)
    : result (list Z) :=
  traverse
    (fun i =>
       a ← getitem final_order (i + 1);
       x ← getitem xs a;
       b ← getitem final_order i;
       y ← getitem xs b;
       Ok (f (x - y)))
    (range 0 (Z.of_nat (length final_order) - 1)).

Section Detector.
(** What the two helper classes of [ContigAlignment.py] compute from an
    alignment collection, which they only read: the [ref_chrom] of
    [UniqueContigAlignment] and the [strand] of [LongestContigAlignment].
    Their tie-breaks are left open. *)
Context (UniqueContigAlignment : ContigAlignment → result string)
        (LongestContigAlignment : ContigAlignment → result strand).

(** The body of [get_intra_contigs] below the two filters; [Ok None] is
    Python's [None]. *)
Definition detect (ctg_alns : ContigAlignment) (d c : Z)
    : result (option (string * list interval)) :=
  if bool_decide (length (ref_headers ctg_alns) = 0%nat) then Ok None
  else
    query_pos ←
      positions (ref_starts ctg_alns) (ref_ends ctg_alns)
        (length (ref_headers ctg_alns));
    let final_order := map snd (sorted tuple_le query_pos) in
    longest_aln ← LongestContigAlignment ctg_alns;
    let is_rc := bool_decide (longest_aln = Minus) in
    let query_starts' :=
      if is_rc then query_ends ctg_alns else query_starts ctg_alns in
    let query_ends' :=
      if is_rc then query_starts ctg_alns else query_ends ctg_alns in
    ordered_query_ends ← traverse (getitem query_ends') final_order;
    ordered_query_starts ← traverse (getitem query_starts') final_order;
    distances_wrt_ref ← distances id (ref_starts ctg_alns) final_order;
    distances_wrt_ctg ← distances Z.abs query_starts' final_order;
    match distances_wrt_ref with
    | [] => Ok None
    | _ :: _ =>
        m ← max_list distances_wrt_ref;
        if d <? m then
          break_index ← index distances_wrt_ref m;
          s ← getitem ordered_query_starts break_index;
          e ← getitem ordered_query_ends break_index;
          qlen ← getitem (query_lens ctg_alns) 0;
          if s <? e then Ok (Some (contig ctg_alns, [(0, s); (s, qlen)]))
          else Ok (Some (contig ctg_alns, [(0, e); (e, qlen)]))
        else
          m' ← max_list distances_wrt_ctg;
          if c <? m' then
            s ← getitem ordered_query_starts 0;
            qlen ← getitem (query_lens ctg_alns) 0;
            Ok (Some (contig ctg_alns, [(0, s); (s, qlen)]))
          else Ok None
    end.

(** [alns] is the location of the caller's collection. The copy is a
    new object; both filters mutate the copy in place. *)
Definition get_intra_contigs (σ : gmap loc ContigAlignment) (alns : loc)
    (l d c : Z)
    : gmap loc ContigAlignment
      * result (option (string * list interval)) :=
  match σ !! alns with
  | None => (σ, Raise KeyError)
  | Some a =>
      match UniqueContigAlignment a with
      | Raise e => (σ, Raise e)
      | Ok best_header =>
          let '(σ, ctg_alns) := deepcopy σ a in
          let σ := alter (filter_ref_chroms [best_header]) ctg_alns σ in
          let σ := alter (filter_lengths l) ctg_alns σ in
          match σ !! ctg_alns with
          | None => (σ, Raise KeyError)
          | Some ctg => (σ, detect ctg d c)
          end
      end
  end.
End Detector.

(** Modelled from the spec: [UniqueContigAlignment], the chromosome with
    the most total aligned length, here the first one among equals in
    order of appearance. *)
Fixpoint first_max {A} (best : A) (score : Z) (l : list (A * Z)) : A :=
  match l with
  | [] => best
  | (x, n) :: l' =>
      if score <? n then first_max x n l' else first_max best score l'
  end.

Definition best_ref_chrom (a : ContigAlignment) : result string :=
  all_intervals ←
    collect_intervals a 0 (range 0 (Z.of_nat (length (ref_headers a)))) [];
  match map (fun kv => (kv.1, covered_length kv.2)) all_intervals with
  | [] => Raise ValueError
  | (k, n) :: ranges => Ok (first_max k n ranges)
  end.

(** Modelled from the spec: [LongestContigAlignment], the strand of the
    single longest alignment, here the first one among equals. *)
Definition longest_strand (a : ContigAlignment) : result strand :=
  match zip (strands a) (aln_lens a) with
  | [] => Raise ValueError
  | (s, n) :: rest => Ok (first_max s n rest)
  end.

(** ** The walks, in the words of the specification *)

(** The collection's alignment indices in the order of [sorted(query_pos)]. *)
Definition query_order (a : ContigAlignment) : list Z :=
  map snd
    (sorted tuple_le
       (map (fun i => (query_starts a !!! Z.to_nat i,
                       query_ends a !!! Z.to_nat i, i))
          (range 0 (Z.of_nat (length (ref_headers a)))))).

(** The alignments sorted by query start, each with its chromosome and its
    query end. *)
Definition by_query_start (a : ContigAlignment) : list (string * Z) :=
  map (fun i => (ref_headers a !!! Z.to_nat i, query_ends a !!! Z.to_nat i))
    (query_order a).

(** The clusterer's walk over the alignments that follow the first one:
    at the current alignment, when one more follows, a breakpoint at the
    previous alignment's query end is emitted exactly when the current
    and the next chromosome both differ from [current_ref], which then
    becomes the current chromosome. *)
Fixpoint walk (current_ref : string) (prev_end : Z)
    (rest : list (string * Z)) : list Z :=
  match rest with
  | cur :: rest' =>
      match rest' with
      | next :: _ =>
          if decide (cur.1 ≠ current_ref ∧ next.1 ≠ current_ref)
          then prev_end :: walk cur.1 cur.2 rest'
          else walk current_ref cur.2 rest'
      | [] => []
      end
  | [] => []
  end.

(** A border list that tiles [[from, to)]: each border starts where the
    previous one ended, none is reversed, the first starts at [from] and
    the last ends at [to]. *)
Fixpoint tiles (from to : Z) (borders : list interval) : Prop :=
  match borders with
  | [] => from = to
  | b :: borders' => b.1 = from ∧ b.1 <= b.2 ∧ tiles b.2 to borders'
  end.

Definition pieces {A} (seq : list A) (borders : list interval)
    : list (list A) :=
  map (fun bp => slice seq bp.1 bp.2) borders.


(** The collection's alignment indices in the order of the detector's
    [sorted(query_pos)], which holds reference coordinates. *)
Definition ref_order (a : ContigAlignment) : list Z :=
  map snd
    (sorted tuple_le
       (map (fun i => (ref_starts a !!! Z.to_nat i,
                       ref_ends a !!! Z.to_nat i, i))
          (range 0 (Z.of_nat (length (ref_headers a)))))).

(** The values of a field taken in a given order of the alignments. *)
Definition in_order (xs : list Z) (order : list Z) : list Z :=
  map (fun i => xs !!! Z.to_nat i) order.

(** The gaps between consecutive values, each passed through [f]. *)
Fixpoint gaps (f : Z → Z) (values : list Z) : list Z :=
  match values with
  | x :: (y :: _) as rest => f (y - x) :: gaps f rest
  | _ => []
  end.

(** Each interval of a border list ends where the next one starts. *)
Fixpoint contiguous (borders : list interval) : Prop :=
  match borders with
  | b :: (b' :: _) as rest => b.2 = b'.1 ∧ contiguous rest
  | _ => True
  end.

(** Fuel that lets every probe of the adjuster reach a position past the
    last feature. *)
Definition fuel_for (borders : list interval) (gff_ins : list feature)
    : nat :=
  S (Z.to_nat (fold_right Z.max 0 (map end_ gff_ins)
               - fold_right Z.min 0 (map fst borders ++ map snd borders))).

(** A feature moved to the piece of border [b]: renamed, and shifted to
    the piece's own coordinates. *)
Definition relocate (contig : string) (b : interval) (i : feature)
    : feature :=
  {| seqname := broken_name contig b;
     start := start i - b.1;
     end_ := end_ i - b.1;
     attributes := attributes i |}.

(** [b] is the one border of the list that holds position [p]. *)
Definition unique_border (borders : list interval) (p : Z) (b : interval)
    : Prop :=
  b ∈ borders ∧ b.1 <= p < b.2
  ∧ ∀ b', b' ∈ borders → b'.1 <= p < b'.2 → b' = b.

(** ** Sample inputs *)

(** The threshold test read in exact arithmetic, to run [get_ref_parts]
    on samples away from the threshold; the source computes it in double
    precision, which can differ from it at the threshold itself. *)
Definition exact_pct_exceeds (x total_sum p : Z) : bool :=
  p * total_sum <? x * 100.

Definition sample_alns (headers : list string)
    (rstarts rends qstarts qends : list Z) (qlen : Z) : ContigAlignment :=
  {| contig := "ctg";
     query_lens := map (fun _ => qlen) headers;
     query_starts := qstarts;
     query_ends := qends;
     ref_headers := headers;
     ref_lens := map (fun _ => 100000) headers;
     ref_starts := rstarts;
     ref_ends := rends;
     aln_lens := zip_with (fun s e => e - s) rstarts rends;
     strands := map (fun _ => Plus) headers |}.

(** One alignment to chr1, then two to chr2. *)
Definition switch_alns : ContigAlignment :=
  sample_alns ["chr1"; "chr2"; "chr2"] [0; 0; 100] [100; 100; 200]
    [0; 100; 200] [100; 200; 300] 300.

(** A long alignment to chr1 with short alignments to chr2 and chr3
    inside its query range. *)
Definition nested_alns : ContigAlignment :=
  sample_alns ["chr1"; "chr2"; "chr3"; "chr3"] [0; 0; 10; 20] [10; 1; 11; 21]
    [0; 1; 3; 5] [10; 2; 4; 6] 10.

(** A single alignment whose reference interval is empty. *)
Definition zero_coverage_alns : ContigAlignment :=
  {| contig := "ctg"; query_lens := [10]; query_starts := [0];
     query_ends := [10]; ref_headers := ["chr1"]; ref_lens := [100000];
     ref_starts := [5]; ref_ends := [5]; aln_lens := [10];
     strands := [Plus] |}.

(** Two alignments to chr1 whose reference starts are 6000 apart. *)
Definition gap_alns : ContigAlignment :=
  sample_alns ["chr1"; "chr1"] [0; 6000] [500; 6500] [500; 510] [1000; 1010]
    1010.

Definition no_alns : ContigAlignment :=
  sample_alns [] [] [] [] [] 0.

Definition sample_feature (s e : Z) : feature :=
  {| seqname := "ctg"; start := s; end_ := e; attributes := "gene" |}.

(** ** Predicates for the further properties *)

(** Position [p] lies in no feature's interval [[start, end)]. *)
Definition free (gff_ins : list feature) (p : Z) : Prop :=
  ∀ f, f ∈ gff_ins → ¬ (start f <= p < end_ f).

(** [q] is the first position at or after [p] that lies in no feature's
    interval. *)
Definition nearest_free (gff_ins : list feature) (p q : Z) : Prop :=
  p <= q ∧ free gff_ins q ∧ ∀ x, p <= x < q → ¬ free gff_ins x.

(** A border list with the end of its last border replaced. *)
Fixpoint with_last_end (borders : list interval) (e : Z) : list interval :=
  match borders with
  | [] => []
  | [b] => [(b.1, e)]
  | b :: rest => b :: with_last_end rest e
  end.

(** The reference intervals of the alignments to chromosome [h] that are
    at least [l] long, among the alignments at [idxs] and in that order. *)
Definition intervals_at (alns : ContigAlignment) (l : Z) (h : string)
    (idxs : list Z) : list interval :=
  map (fun i => (ref_starts alns !!! Z.to_nat i, ref_ends alns !!! Z.to_nat i))
    (filter (fun i => l <= aln_lens alns !!! Z.to_nat i
                      ∧ ref_headers alns !!! Z.to_nat i = h) idxs).

Definition chrom_intervals (alns : ContigAlignment) (l : Z) (h : string)
    : list interval :=
  intervals_at alns l h (range 0 (Z.of_nat (length (ref_headers alns)))).

(** The dictionary view of what the first loop has gathered. *)
Definition gathered (alns : ContigAlignment) (l : Z) (done : list Z)
    (d : list (string * list interval)) : Prop :=
  NoDup (map fst d)
  ∧ ∀ h, (list_to_map d : gmap string (list interval)) !! h
         = match intervals_at alns l h done with
           | [] => None
           | ivs => Some ivs
           end.

(** ** The sort order, as a relation *)

(** The order of Python on tuples [(a, b, i)] of integers: by [a], then
    by [b], then by [i]. *)
Definition lex_le (x y : Z * Z * Z) : Prop :=
  x.1.1 < y.1.1
  ∨ (x.1.1 = y.1.1 ∧ (x.1.2 < y.1.2 ∨ (x.1.2 = y.1.2 ∧ x.2 <= y.2))).

(** [order] lists the alignment indices [0], ..., [n - 1], each once, by
    increasing start [xs[i]]; alignments of equal start come by increasing
    end [ys[i]], and those of equal start and end in their input order. *)
Definition sorted_by (xs ys : list Z) (n : nat) (order : list Z) : Prop :=
  order ≡ₚ range 0 (Z.of_nat n)
  ∧ StronglySorted
      (fun i j => lex_le (xs !!! Z.to_nat i, ys !!! Z.to_nat i, i)
                    (xs !!! Z.to_nat j, ys !!! Z.to_nat j, j))
      order.

(** ** Tactics *)

(** Case analysis on the first call of a sequence that is assumed to
    return a value: the call raising contradicts the assumption. *)
Ltac bind_head :=
  match goal with
  | |- (?x ≫= (fun y => _)) = Ok _ → _ =>
      let y' := fresh y in
      destruct x as [y'|]; [|done]; cbn [mbind result_bind]
  end.

Ltac bind_head_eq :=
  match goal with
  | |- (?x ≫= (fun y => _)) = Ok _ → _ =>
      let y' := fresh y in
      destruct x as [y'|] eqn:?; [|done]; cbn [mbind result_bind]
  end.

(** ** Auxiliary predicates *)

(** A string without a dash. *)
Fixpoint dash_free (s : string) : Prop :=
  match s with
  | EmptyString => True
  | String c s' => c ≠ "-"%char ∧ dash_free s'
  end.

(** The order the scorer sorts a chromosome's intervals by. *)
Definition starts_le (a b : interval) : Prop := a.1 <= b.1.

(** * Properties *)

(** ** Sorting *)

Section SortedFacts.
Context {A : Type} (le : A → A → bool).

Lemma insert_sorted_perm x l : insert_sorted le x l ≡ₚ x :: l.
Proof.
  induction l as [|y l IH]; simpl; [done|].
  destruct (le x y); [done|].
  rewrite IH. apply Permutation_swap.
Qed.

Lemma sorted_perm l : sorted le l ≡ₚ l.
Proof.
  induction l as [|x l IH]; simpl; [done|].
  by rewrite insert_sorted_perm, IH.
Qed.

Context (R : A → A → Prop).
Hypothesis le_R : ∀ x y, le x y = true → R x y.
Hypothesis nle_R : ∀ x y, le x y = false → R y x.
Hypothesis R_trans : ∀ x y z, R x y → R y z → R x z.

Lemma insert_sorted_strongly x l :
  StronglySorted R l → StronglySorted R (insert_sorted le x l).
Proof.
  induction 1 as [|y l Hl IH Hy]; simpl.
  - repeat constructor.
  - destruct (le x y) eqn:Hxy.
    + constructor; [by constructor|].
      constructor; [by apply le_R|].
      eapply Forall_impl; [exact Hy|]. intros z Hz.
      eapply R_trans; [|exact Hz]. by apply le_R.
    + constructor; [done|].
      rewrite insert_sorted_perm. constructor; [by apply nle_R|done].
Qed.

Lemma sorted_strongly l : StronglySorted R (sorted le l).
Proof.
  induction l as [|x l IH]; simpl; [constructor|].
  by apply insert_sorted_strongly.
Qed.
End SortedFacts.

(** ** Python lists *)

Lemma getitem_lookup {A} (l : list A) i x :
  0 <= i → l !! Z.to_nat i = Some x → getitem l i = Ok x.
Proof.
  intros Hi Hl. unfold getitem.
  pose proof (lookup_lt_Some _ _ _ Hl) as Hlt.
  destruct (i <? 0) eqn:?; [lia|].
  destruct ((0 <=? i) && (i <? Z.of_nat (length l))) eqn:Hb; [by rewrite Hl|].
  apply andb_false_iff in Hb. lia.
Qed.

Lemma getitem_total `{Inhabited A} (l : list A) i :
  0 <= i < Z.of_nat (length l) → getitem l i = Ok (l !!! Z.to_nat i).
Proof.
  intros Hi. apply getitem_lookup; [lia|].
  apply list_lookup_lookup_total_lt. lia.
Qed.

Lemma getitem_nil {A} i : getitem (@nil A) i = Raise IndexError.
Proof. unfold getitem. rewrite lookup_nil. by repeat case_match. Qed.

Lemma getitem_last {A} (l : list A) x : getitem (l ++ [x]) (-1) = Ok x.
Proof.
  unfold getitem. rewrite length_app. cbn [length].
  change (-1 <? 0) with true. cbv iota.
  replace (-1 + Z.of_nat (length l + 1)) with (Z.of_nat (length l)) by lia.
  rewrite Nat2Z.id, list_lookup_middle by done.
  destruct ((0 <=? _) && _) eqn:Hb; [done|].
  apply andb_false_iff in Hb as [Hb%Z.leb_gt|Hb%Z.ltb_ge]; lia.
Qed.

Lemma range_nil a b : b <= a → range a b = [].
Proof. intros. unfold range. by replace (Z.to_nat (b - a)) with 0%nat by lia. Qed.

Lemma range_cons a b : a < b → range a b = a :: range (a + 1) b.
Proof.
  intros. unfold range.
  replace (Z.to_nat (b - a)) with (S (Z.to_nat (b - (a + 1)))) by lia.
  simpl. f_equal; [lia|].
  rewrite <- seq_shift, map_map. apply map_ext. intros; lia.
Qed.

Lemma elem_of_range a b x : x ∈ range a b ↔ a <= x < b.
Proof.
  unfold range. rewrite list_elem_of_fmap. setoid_rewrite elem_of_seq. split.
  - intros (k & -> & Hk). lia.
  - intros Hx. exists (Z.to_nat (x - a)). lia.
Qed.

Lemma length_range a b : length (range a b) = Z.to_nat (b - a).
Proof. unfold range. by rewrite length_map, length_seq. Qed.

Lemma traverse_map {A B} (f : A → result B) (g : A → B) l :
  (∀ x, x ∈ l → f x = Ok (g x)) → traverse f l = Ok (map g l).
Proof.
  induction l as [|x l IH]; intros Hf; simpl; [done|].
  rewrite (Hf x) by left. simpl.
  rewrite IH by (intros; apply Hf; by right). done.
Qed.

Lemma max_list_spec x l :
  ∃ m, max_list (x :: l) = Ok m ∧ m ∈ x :: l ∧ ∀ y, y ∈ x :: l → y <= m.
Proof.
  simpl. eexists; split; [done|].
  revert x. induction l as [|z l IH]; intros x; simpl.
  - split; [left|]. intros y ->%list_elem_of_singleton. lia.
  - destruct (IH (Z.max x z)) as [Hin Hle]. split.
    + apply elem_of_cons in Hin as [Hin|Hin]; [|by do 2 right].
      rewrite Hin. destruct (Z.max_spec x z) as [[_ ->]|[_ ->]];
        [right; left|left].
    + intros y Hy. pose proof (Hle (Z.max x z) ltac:(left)).
      apply elem_of_cons in Hy as [->|Hy]; [lia|].
      apply elem_of_cons in Hy as [->|Hy]; [lia|].
      apply Hle. by right.
Qed.

Lemma index_from_spec `{EqDecision A} (x : A) l k0 :
  x ∈ l →
  ∃ n : nat, index_from x l k0 = Ok (k0 + Z.of_nat n) ∧ l !! n = Some x ∧
             ∀ j, (j < n)%nat → l !! j ≠ Some x.
Proof.
  revert k0. induction l as [|y l IH]; intros k0 Hx; [by inversion Hx|].
  simpl. destruct (decide (y = x)) as [->|Hne].
  - exists 0%nat. split; [f_equal; lia|]. split; [done|]. lia.
  - apply elem_of_cons in Hx as [->|Hx]; [done|].
    destruct (IH (k0 + 1) Hx) as (n & Hn & Hl & Hj).
    exists (S n). split; [rewrite Hn; f_equal; lia|]. split; [done|].
    intros [|j] ?; simpl; [congruence|]. apply Hj. lia.
Qed.

Lemma index_spec `{EqDecision A} (l : list A) x :
  x ∈ l →
  ∃ n : nat, index l x = Ok (Z.of_nat n) ∧ l !! n = Some x ∧
             ∀ j, (j < n)%nat → l !! j ≠ Some x.
Proof. intros Hx. by destruct (index_from_spec x l 0 Hx) as (n & ? & ?); exists n. Qed.

Lemma index_getitem `{EqDecision A} (l : list A) x :
  x ∈ l → (n ← index l x; getitem l n) = Ok x.
Proof.
  intros Hx. destruct (index_spec l x Hx) as (n & -> & Hn & _).
  cbn [mbind result_bind]. apply getitem_lookup; [lia|].
  by rewrite Nat2Z.id.
Qed.

(** ** Dictionaries filled by a loop *)

Section FoldInsert.
Context {A V : Type} (f : A → string) (g : A → V).

Lemma fold_insert_other l (m : gmap string V) k :
  (∀ b, b ∈ l → k ≠ f b) →
  fold_left (fun m b => <[f b := g b]> m) l m !! k = m !! k.
Proof.
  revert m. induction l as [|b l IH]; intros m Hk; simpl; [done|].
  rewrite IH by (intros; apply Hk; by right).
  apply lookup_insert_ne. apply not_eq_sym, Hk. left.
Qed.

Lemma fold_insert_same l (m : gmap string V) b :
  (∀ b', b' ∈ l → f b' = f b → g b' = g b) → b ∈ l →
  fold_left (fun m b => <[f b := g b]> m) l m !! f b = Some (g b).
Proof.
  induction l as [|b1 l IH] using rev_ind; intros Hg Hb;
    [by inversion Hb|].
  rewrite fold_left_app. simpl.
  destruct (decide (f b1 = f b)) as [Heq|Hne].
  - rewrite Heq, lookup_insert_eq. f_equal.
    apply Hg; [|done]. apply elem_of_app. right. left.
  - rewrite lookup_insert_ne by done. apply IH.
    + intros b' Hb'. apply Hg, elem_of_app. by left.
    + apply elem_of_app in Hb as [Hb|Hb%list_elem_of_singleton];
        [done|by subst].
Qed.
End FoldInsert.

(** ** Names of the pieces are distinct for distinct borders *)

Lemma pretty_N_go_dash_free x s : dash_free s → dash_free (pretty_N_go x s).
Proof.
  revert s. induction (N.lt_wf_0 x) as [x _ IH]; intros s Hs.
  assert (x = 0 ∨ 0 < x)%N as [->|Hx] by lia; [done|].
  rewrite pretty_N_go_step by done. apply IH; [by apply N.div_lt|].
  split; [|done]. unfold pretty_N_char. by repeat case_match.
Qed.

Lemma pretty_N_go_length x s :
  (String.length s <= String.length (pretty_N_go x s))%nat.
Proof.
  revert s. induction (N.lt_wf_0 x) as [x _ IH]; intros s.
  assert (x = 0 ∨ 0 < x)%N as [->|Hx] by lia; [done|].
  rewrite pretty_N_go_step by done.
  etrans; [|apply IH, N.div_lt; done]. simpl. lia.
Qed.

(** The decimal form of a non-negative integer starts with a character
    that is not a dash and holds no dash at all. *)
Lemma str_nonneg i :
  0 <= i → ∃ c s, str i = String c s ∧ dash_free (String c s).
Proof.
  intros Hi. unfold str, pretty, pretty_Z.
  destruct i as [|p|p]; [by exists "0"%char, ""%string|..|lia].
  unfold pretty, pretty_positive, pretty, pretty_N.
  rewrite decide_False by done.
  pose proof (pretty_N_go_dash_free (N.pos p) "" I) as Hd.
  rewrite pretty_N_go_step in * by done.
  pose proof (pretty_N_go_length (N.pos p `div` 10)
                (String (pretty_N_char (N.pos p `mod` 10)) "")) as Hl.
  destruct (pretty_N_go _ _) as [|c s]; [simpl in Hl; lia|].
  by exists c, s.
Qed.

Lemma str_neg i : i < 0 → str i = ("-" +:+ str (- i))%string.
Proof. by destruct i. Qed.

Lemma dash_split u u' v v' :
  dash_free u → dash_free u' →
  (u +:+ "-" +:+ v = u' +:+ "-" +:+ v')%string → u = u' ∧ v = v'.
Proof.
  revert u'. induction u as [|c u IH]; intros [|c' u'] Hu Hu' Heq;
    simpl in *.
  - by simplify_eq.
  - simplify_eq. by destruct Hu'.
  - simplify_eq. by destruct Hu.
  - injection Heq as -> Heq. destruct Hu, Hu'.
    destruct (IH u') as [-> ->]; done.
Qed.

Lemma dashed_pair_inj a b a' b' :
  (str a +:+ "-" +:+ str b = str a' +:+ "-" +:+ str b')%string →
  a = a' ∧ b = b'.
Proof.
  intros Heq.
  assert (∀ x y v v', 0 <= x → 0 <= y →
            (str x +:+ "-" +:+ v = str y +:+ "-" +:+ v')%string →
            x = y ∧ v = v') as Hnn.
  { intros x y v v' Hx Hy H.
    destruct (str_nonneg x Hx) as (c & s & Hs & Hd).
    destruct (str_nonneg y Hy) as (c' & s' & Hs' & Hd').
    rewrite Hs, Hs' in H. apply dash_split in H as [H ->]; [|done..].
    rewrite <- Hs, <- Hs' in H. split; [|done].
    by apply (inj (pretty : Z → string)). }
  assert (∀ x y v v', x < 0 → 0 <= y →
            (str x +:+ "-" +:+ v)%string ≠ (str y +:+ "-" +:+ v')%string)
    as Hmixed.
  { intros x y v v' Hx Hy H. rewrite (str_neg x Hx) in H.
    destruct (str_nonneg y Hy) as (c' & s' & Hs' & Hd').
    rewrite Hs' in H. simpl in H. injection H as <- _. by destruct Hd'. }
  destruct (Z_lt_le_dec a 0) as [Ha|Ha], (Z_lt_le_dec a' 0) as [Ha'|Ha'].
  - rewrite (str_neg a Ha), (str_neg a' Ha') in Heq. simpl in Heq.
    injection Heq as Heq.
    apply Hnn in Heq as [Ha'' Hb]; [|lia..].
    split; [lia|]. by apply (inj (pretty : Z → string)).
  - by apply Hmixed in Heq.
  - symmetry in Heq. by apply Hmixed in Heq.
  - apply Hnn in Heq as [-> Hb]; [|lia..].
    split; [done|]. by apply (inj (pretty : Z → string)).
Qed.

Lemma broken_name_inj contig b b' :
  broken_name contig b = broken_name contig b' → b = b'.
Proof.
  unfold broken_name. intros H.
  apply (inj (String.app contig)) in H.
  apply (inj (String.app "_chimera_broken:")) in H.
  apply dashed_pair_inj in H as [H1 H2].
  destruct b, b'; simpl in *; by subst.
Qed.

Lemma string_length_app (s t : string) :
  String.length (s +:+ t) = (String.length s + String.length t)%nat.
Proof. induction s as [|c s IH]; simpl; [done|]. by rewrite IH. Qed.

Lemma broken_name_fresh contig b : broken_name contig b ≠ contig.
Proof.
  unfold broken_name. intros H.
  apply (f_equal String.length) in H.
  rewrite !string_length_app in H. simpl in H. lia.
Qed.

(** ** Coverage scorer *)

Lemma sorted_by_start ivs : StronglySorted starts_le (sorted by_start ivs).
Proof.
  apply sorted_strongly; unfold by_start, starts_le; intros; lia.
Qed.

Lemma count_add f g h lo n :
  (∀ x, lo <= x < lo + Z.of_nat n → Z.b2z (f x) = Z.b2z (g x) + Z.b2z (h x)) →
  count f lo n = count g lo n + count h lo n.
Proof.
  revert lo. induction n as [|n IH]; intros lo Hx; simpl; [done|].
  rewrite (IH (lo + 1)) by (intros; apply Hx; lia).
  rewrite (Hx lo) by lia. lia.
Qed.

Lemma count_ext f g lo n :
  (∀ x, lo <= x < lo + Z.of_nat n → f x = g x) →
  count f lo n = count g lo n.
Proof.
  revert lo. induction n as [|n IH]; intros lo Hx; simpl; [done|].
  rewrite (IH (lo + 1)) by (intros; apply Hx; lia).
  by rewrite (Hx lo) by lia.
Qed.

(** The positions of a window that lie in [[a, b)]. *)
Lemma count_segment a b lo n :
  count (fun x => (a <=? x) && (x <? b)) lo n
  = Z.max 0 (Z.min b (lo + Z.of_nat n) - Z.max a lo).
Proof.
  revert lo. induction n as [|n IH]; intros lo.
  - simpl. lia.
  - cbn [count]. rewrite IH.
    destruct (a <=? lo) eqn:Ha, (lo <? b) eqn:Hb; simpl; lia.
Qed.

Lemma covers_cons j ivs x :
  covers (j :: ivs) x = (j.1 <=? x) && (x <? j.2) || covers ivs x.
Proof. done. Qed.

Lemma covers_true ivs x :
  covers ivs x = true ↔ ∃ j, j ∈ ivs ∧ j.1 <= x < j.2.
Proof.
  unfold covers. rewrite existsb_exists. split.
  - intros (j & Hj & Hx). exists j. rewrite list_elem_of_In. split; [done|lia].
  - intros (j & Hj & Hx). exists j. rewrite <- list_elem_of_In. split; [done|lia].
Qed.

Lemma covers_perm ivs ivs' x : ivs ≡ₚ ivs' → covers ivs x = covers ivs' x.
Proof.
  intros Hp. apply eq_true_iff_eq. rewrite !covers_true.
  by setoid_rewrite Hp.
Qed.

(** The sweep adds to its accumulator the number of positions at or above
    [max_end] that the remaining intervals cover. *)
Lemma sweep_count ivs lo n :
  StronglySorted starts_le ivs →
  Forall (fun j => lo <= j.1 ∧ j.2 <= lo + Z.of_nat n) ivs →
  ∀ max_end acc,
    sweep ivs max_end acc
    = acc + count (fun x => (max_end <=? x) && covers ivs x) lo n.
Proof.
  induction 1 as [|j ivs Hs IH Hj]; intros Hb max_end acc.
  - simpl. rewrite (count_ext _ (fun x => (0 <=? x) && (x <? 0))).
    + rewrite count_segment. lia.
    + intros x _. rewrite andb_false_r. lia.
  - apply Forall_cons in Hb as [[Hlo Hhi] Hb]. cbn [sweep].
    rewrite IH by done. symmetry.
    rewrite (count_add (fun x => (max_end <=? x) && covers (j :: ivs) x)
      (fun x => (Z.max j.1 max_end <=? x) && (x <? j.2))
      (fun x => (Z.max max_end j.2 <=? x) && covers ivs x)).
    + rewrite count_segment. lia.
    + intros x Hx. rewrite covers_cons.
      destruct (covers ivs x) eqn:Hc.
      * apply covers_true in Hc as (k & Hk & Hkx).
        rewrite Forall_forall in Hj. specialize (Hj k Hk).
        unfold starts_le in Hj.
        destruct (max_end <=? x) eqn:?, (j.1 <=? x) eqn:?, (x <? j.2) eqn:?,
          (Z.max j.1 max_end <=? x) eqn:?, (Z.max max_end j.2 <=? x) eqn:?;
          simpl; lia.
      * destruct (max_end <=? x) eqn:?, (j.1 <=? x) eqn:?, (x <? j.2) eqn:?,
          (Z.max j.1 max_end <=? x) eqn:?, (Z.max max_end j.2 <=? x) eqn:?;
          simpl; lia.
Qed.

Lemma lowest_start_le ivs : Forall (fun j => lowest_start ivs <= j.1) ivs.
Proof.
  destruct ivs as [|j ivs]; [constructor|]. unfold lowest_start.
  assert (∀ l m, fold_left Z.min l m <= m ∧
                 Forall (fun x => fold_left Z.min l m <= x) l) as H.
  { induction l as [|x l IH]; intros m; simpl; [split; [lia|constructor]|].
    destruct (IH (Z.min m x)) as [H1 H2]. split; [lia|].
    constructor; [lia|done]. }
  destruct (H (map fst ivs) j.1) as [H1 H2].
  constructor; [done|]. by rewrite Forall_map in H2.
Qed.

Lemma highest_end_ge ivs : Forall (fun j => j.2 <= highest_end ivs) ivs.
Proof.
  destruct ivs as [|j ivs]; [constructor|]. unfold highest_end.
  assert (∀ l m, m <= fold_left Z.max l m ∧
                 Forall (fun x => x <= fold_left Z.max l m) l) as H.
  { induction l as [|x l IH]; intros m; simpl; [split; [lia|constructor]|].
    destruct (IH (Z.max m x)) as [H1 H2]. split; [lia|].
    constructor; [lia|done]. }
  destruct (H (map snd ivs) j.2) as [H1 H2].
  constructor; [done|]. by rewrite Forall_map in H2.
Qed.

(** The sweep started at [-1] counts every covered position when no
    interval starts below [-1]. *)
Lemma covered_length_naive ivs :
  Forall (fun j => -1 <= j.1) ivs →
  covered_length ivs = naive_union_length ivs.
Proof.
  intros Hpos. unfold covered_length, naive_union_length.
  set (lo := lowest_start ivs). set (n := Z.to_nat (highest_end ivs - lo)).
  rewrite (sweep_count _ lo n).
  - rewrite Z.add_0_l. apply count_ext. intros x _.
    rewrite (covers_perm _ ivs) by apply sorted_perm.
    destruct (covers ivs x) eqn:Hc; [|by rewrite andb_false_r].
    apply covers_true in Hc as (j & Hj & Hx).
    rewrite Forall_forall in Hpos. specialize (Hpos j Hj). simpl in Hpos.
    rewrite andb_true_r. lia.
  - apply sorted_by_start.
  - rewrite sorted_perm.
    pose proof (lowest_start_le ivs) as H1.
    pose proof (highest_end_ge ivs) as H2.
    rewrite Forall_forall in H1, H2. apply Forall_forall. intros j Hj.
    specialize (H1 j Hj). specialize (H2 j Hj). simpl in *.
    subst n lo. lia.
Qed.

(** The sentinel [-1] is where the agreement stops: an interval that
    starts lower is counted from [-1] only. *)
Lemma covered_length_below_sentinel :
  covered_length [(-5, 3)] = 4 ∧ naive_union_length [(-5, 3)] = 8.
Proof. split; reflexivity. Qed.

(** C3: on reference intervals (0-based coordinates), the length the
    coverage scorer's sort-and-sweep computes for one chromosome equals the
    length of the set union of the intervals, counted position by position
    by the bitmap reference. *)
Theorem coverage_sweep_is_union_length (ivs : list interval) :
  Forall (fun j => 0 <= j.1) ivs →
  covered_length ivs = naive_union_length ivs.
Proof.
  intros H. apply covered_length_naive.
  eapply Forall_impl; [exact H|]. simpl. intros; lia.
Qed.

Lemma coverage_sweep_is_union_length_witness :
  Forall (fun j : interval => 0 <= j.1) [(5, 10); (0, 3); (2, 7); (20, 25)]
  ∧ covered_length [(5, 10); (0, 3); (2, 7); (20, 25)]
    = naive_union_length [(5, 10); (0, 3); (2, 7); (20, 25)].
Proof.
  assert (Forall (fun j : interval => 0 <= j.1)
            [(5, 10); (0, 3); (2, 7); (20, 25)]) as H
    by (repeat constructor; simpl; lia).
  split; [exact H|].
  exact (coverage_sweep_is_union_length
           [(5, 10); (0, 3); (2, 7); (20, 25)] H).
Defined.

(** C8: the scorer does not guard its division. When the covered lengths
    of the chromosomes kept by the length filter add up to zero, it raises
    [ZeroDivisionError] at the first chromosome; it returns the empty list
    only when no chromosome was kept at all. *)
Theorem get_ref_parts_zero_total {P} (pct_exceeds : Z → Z → P → bool)
    alns l p r all_intervals :
  collect_intervals alns l
    (range 0 (Z.of_nat (length (ref_headers alns)))) [] = Ok all_intervals →
  sum (map (fun kv => covered_length kv.2) all_intervals) = 0 →
  get_ref_parts pct_exceeds alns l p r
  = match all_intervals with
    | [] => Ok []
    | _ :: _ => Raise ZeroDivisionError
    end.
Proof.
  intros Hc Hz. unfold get_ref_parts. rewrite Hc. cbn [mbind result_bind].
  rewrite map_map. cbn [snd]. rewrite Hz.
  destruct all_intervals as [|[k ivs] rest]; [done|]. done.
Qed.

(** ** Sequence splitter *)

Lemma slice_in_range {A} (l : list A) a b :
  0 <= a <= b → b <= Z.of_nat (length l) →
  slice l a b = take (Z.to_nat (b - a)) (drop (Z.to_nat a) l).
Proof.
  intros Ha Hb. unfold slice, clip.
  destruct (a <? 0) eqn:?, (b <? 0) eqn:?; try lia.
  by rewrite !Z.min_l by lia.
Qed.

Lemma slice_all {A} (l : list A) : slice l 0 (Z.of_nat (length l)) = l.
Proof.
  rewrite slice_in_range by lia. rewrite drop_0, Z.sub_0_r, Nat2Z.id.
  by rewrite firstn_all.
Qed.

Lemma slice_app {A} (l : list A) a b c :
  0 <= a <= b → b <= c → c <= Z.of_nat (length l) →
  slice l a b ++ slice l b c = slice l a c.
Proof.
  intros Ha Hb Hc. rewrite !slice_in_range by lia.
  replace (Z.to_nat (c - a)) with (Z.to_nat (b - a) + Z.to_nat (c - b))%nat
    by lia.
  rewrite <- take_take_drop, drop_drop.
  do 3 f_equal. lia.
Qed.

Lemma tiles_le from to borders : tiles from to borders → from <= to.
Proof.
  revert from. induction borders as [|b bs IH]; simpl; intros from.
  - lia.
  - intros (<- & Hle & Ht). apply IH in Ht. lia.
Qed.

Lemma pieces_tile {A} (seq : list A) borders from to :
  0 <= from → to <= Z.of_nat (length seq) → tiles from to borders →
  concat (pieces seq borders) = slice seq from to.
Proof.
  revert from. induction borders as [|b bs IH]; simpl; intros from Hf Ht.
  - intros <-. rewrite slice_in_range by lia.
    by rewrite Z.sub_diag.
  - intros (<- & Hle & Hbs). pose proof (tiles_le _ _ _ Hbs).
    rewrite (IH b.2) by (done || lia). apply slice_app; lia.
Qed.

Lemma break_loop_test_seq header seq borders d t :
  (break_loop header seq borders (d, t)).2
  = t ++ concat (pieces seq borders).
Proof.
  revert d t. unfold break_loop.
  induction borders as [|b bs IH]; intros d t; simpl.
  - by rewrite app_nil_r.
  - rewrite IH. by rewrite <- app_assoc.
Qed.

Lemma break_loop_dict header seq borders d t :
  (break_loop header seq borders (d, t)).1
  = fold_left (fun m b => <[broken_name header b := slice seq b.1 b.2]> m)
      borders d.
Proof.
  revert d t. unfold break_loop.
  induction borders as [|b bs IH]; intros d t; simpl; [done|].
  by rewrite IH.
Qed.

Lemma break_contig_outcome contigs_dict header seq borders :
  contigs_dict !! header = Some seq →
  break_contig contigs_dict header borders
  = (fold_left (fun m b => <[broken_name header b := slice seq b.1 b.2]> m)
       borders (delete header contigs_dict),
     if decide (concat (pieces seq borders) = seq) then Ok ()
     else Raise AssertionError).
Proof.
  intros Hh. unfold break_contig. rewrite Hh.
  pose proof (break_loop_test_seq header seq borders
                (delete header contigs_dict) []) as H2.
  pose proof (break_loop_dict header seq borders
                (delete header contigs_dict) []) as H1.
  destruct (break_loop _ _ _ _) as [d t]. simpl in *. subst.
  by destruct (decide _).
Qed.

(** C1: for a sequence held by the dictionary and a border list that
    tiles it (contiguous, no border reversed, from 0 to the sequence
    length), the slices concatenated in border order are the sequence, and
    [break_contig] returns. When the concatenation differs from the
    sequence the call raises an assertion failure and returns nothing.
    The check comes after the writes: whatever the outcome, the
    dictionary has by then lost the contig's entry and holds the slice of
    every border under the border's name. *)
Theorem break_contig_reconstruction contigs_dict header seq borders :
  contigs_dict !! header = Some seq →
  let out := break_contig contigs_dict header borders in
  (tiles 0 (Z.of_nat (length seq)) borders →
   concat (pieces seq borders) = seq ∧ out.2 = Ok ())
  ∧ (concat (pieces seq borders) ≠ seq → out.2 = Raise AssertionError)
  ∧ out.1 !! header = None
  ∧ (∀ b, b ∈ borders →
       out.1 !! broken_name header b = Some (slice seq b.1 b.2)).
Proof.
  intros Hh out. subst out.
  rewrite (break_contig_outcome contigs_dict header seq borders Hh).
  cbn [fst snd]. repeat split.
  - rewrite (pieces_tile seq borders 0 (Z.of_nat (length seq)));
      [apply slice_all|lia|lia|done].
  - rewrite decide_True; [done|].
    rewrite (pieces_tile seq borders 0 (Z.of_nat (length seq)));
      [apply slice_all|lia|lia|done].
  - intros Hne. by rewrite decide_False.
  - rewrite (fold_insert_other (broken_name header)
               (fun b => slice seq b.1 b.2))
      by (intros b _; apply not_eq_sym, broken_name_fresh).
    apply lookup_delete_eq.
  - intros b Hb.
    apply (fold_insert_same (broken_name header)
             (fun b => slice seq b.1 b.2)); [|done].
    by intros b' _ ->%broken_name_inj.
Qed.

(** ** The alignment collection *)

Lemma length_keep {A B} (mask : list bool) (l : list A) (k : list B) :
  length l = length k → length (keep mask l) = length (keep mask k).
Proof.
  revert l k. induction mask as [|b mask IH]; intros [|x l] [|y k] Hl;
    simpl in *; try done.
  destruct b; simpl; auto.
Qed.

Lemma wf_update_alns mask a : wf_alns a → wf_alns (update_alns mask a).
Proof.
  unfold wf_alns. simpl. intros (?&?&?&?&?&?&?).
  repeat split; by apply length_keep.
Qed.

Lemma wf_filter_ref_chroms chroms a :
  wf_alns a → wf_alns (filter_ref_chroms chroms a).
Proof. apply wf_update_alns. Qed.

Lemma wf_filter_lengths l a : wf_alns a → wf_alns (filter_lengths l a).
Proof. apply wf_update_alns. Qed.

(** ** Orders *)

Lemma positions_Ok xs ys n :
  (n <= length xs)%nat → (n <= length ys)%nat →
  positions xs ys n
  = Ok (map (fun i => (xs !!! Z.to_nat i, ys !!! Z.to_nat i, i))
          (range 0 (Z.of_nat n))).
Proof.
  intros Hx Hy. unfold positions. apply traverse_map.
  intros i Hi%elem_of_range.
  by rewrite !getitem_total by lia.
Qed.

Lemma sorted_positions_indices (f : Z → Z * Z * Z) n i :
  (∀ k, (f k).2 = k) →
  i ∈ map snd (sorted tuple_le (map f (range 0 n))) → 0 <= i < n.
Proof.
  intros Hf Hi. apply list_elem_of_fmap in Hi as (t & -> & Ht).
  rewrite sorted_perm in Ht.
  apply list_elem_of_fmap in Ht as (k & -> & Hk%elem_of_range).
  by rewrite Hf.
Qed.

Lemma length_sorted_positions (f : Z → Z * Z * Z) n :
  length (map snd (sorted tuple_le (map f (range 0 n)))) = Z.to_nat n.
Proof.
  rewrite length_map, sorted_perm, length_map, length_range.
  f_equal. lia.
Qed.

(** [tuple_le] decides [lex_le], which is a total order. *)
Lemma tuple_le_lex x y : tuple_le x y = true → lex_le x y.
Proof.
  destruct x as [[a b] i], y as [[a' b'] i']. unfold tuple_le, lex_le.
  cbn [fst snd]. intros H.
  apply orb_true_iff in H as [H%Z.ltb_lt|H]; [by left|].
  apply andb_true_iff in H as [->%Z.eqb_eq H]. right. split; [done|].
  apply orb_true_iff in H as [H%Z.ltb_lt|H]; [by left|].
  apply andb_true_iff in H as [->%Z.eqb_eq H%Z.leb_le]. by right.
Qed.

Lemma tuple_nle_lex x y : tuple_le x y = false → lex_le y x.
Proof.
  destruct x as [[a b] i], y as [[a' b'] i']. unfold tuple_le, lex_le.
  cbn [fst snd]. intros H.
  apply orb_false_iff in H as [Ha%Z.ltb_ge H].
  destruct (Z.eqb_spec a a') as [->|Hne]; [|left; lia].
  right. split; [done|]. cbn [andb] in H.
  apply orb_false_iff in H as [Hb%Z.ltb_ge H].
  destruct (Z.eqb_spec b b') as [->|Hne]; [|left; lia].
  right. split; [done|]. cbn [andb] in H. apply Z.leb_gt in H. lia.
Qed.

Lemma lex_le_trans x y z : lex_le x y → lex_le y z → lex_le x z.
Proof. unfold lex_le. lia. Qed.

Lemma StronglySorted_map_back {A B} (R : A → A → Prop) (f : B → A)
    (g : A → B) l :
  Forall (fun t => f (g t) = t) l → StronglySorted R l →
  StronglySorted (fun i j => R (f i) (f j)) (map g l).
Proof.
  intros Hfg Hs. induction Hs as [|x l Hs IH Hx]; [constructor|].
  apply Forall_cons in Hfg as [Hx' Hl]. cbn [map].
  constructor; [by apply IH|]. apply Forall_map.
  rewrite Forall_forall in Hx, Hl. apply Forall_forall. intros y Hy.
  cbn. rewrite Hx', (Hl y Hy). by apply Hx.
Qed.

(** The order both walks work in is the sorted one: what
    [[i[2] for i in sorted(query_pos)]] holds. *)
Lemma sorted_positions_sorted_by xs ys n :
  sorted_by xs ys n
    (map snd
       (sorted tuple_le
          (map (fun i => (xs !!! Z.to_nat i, ys !!! Z.to_nat i, i))
             (range 0 (Z.of_nat n))))).
Proof.
  set (f := fun i : Z => (xs !!! Z.to_nat i, ys !!! Z.to_nat i, i)).
  split.
  - etrans; [apply Permutation_map, sorted_perm|].
    rewrite map_map. cbn. by rewrite map_id.
  - apply (StronglySorted_map_back lex_le f snd).
    + apply Forall_forall. intros t Ht. rewrite sorted_perm in Ht.
      by apply list_elem_of_fmap in Ht as (k & -> & _).
    + apply sorted_strongly;
        [apply tuple_le_lex|apply tuple_nle_lex|apply lex_le_trans].
Qed.

(** ** Interchromosomal clusterer *)

Section Walk.
Context (alns : ContigAlignment) (order : list Z).
Let hdr (i : Z) : string := ref_headers alns !!! Z.to_nat i.
Let qend (i : Z) : Z := query_ends alns !!! Z.to_nat i.
Hypothesis order_qend :
  ∀ i, i ∈ order → 0 <= i < Z.of_nat (length (query_ends alns)).

(** The loop over positions agrees with the walk over the alignments
    that remain, whatever has been walked already. *)
Lemma borders_loop_walk rest : ∀ pre prev current_ref borders,
  order = pre ++ prev :: rest →
  borders_loop (map hdr order) alns order
    (range (Z.of_nat (length pre) + 1) (Z.of_nat (length order) - 1))
    current_ref borders
  = Ok (borders
        ++ walk current_ref (qend prev)
             (map (fun i => (hdr i, qend i)) rest)).
Proof.
  induction rest as [|i rest IH]; intros pre prev current_ref borders Ho.
  { rewrite range_nil; [by rewrite app_nil_r|].
    rewrite Ho, length_app. simpl. lia. }
  destruct rest as [|j rest].
  { rewrite range_nil; [by rewrite app_nil_r|].
    rewrite Ho, length_app. simpl. lia. }
  assert (order = (pre ++ [prev]) ++ i :: j :: rest) as Ho'
    by by rewrite <- app_assoc.
  specialize (IH (pre ++ [prev]) i).
  rewrite length_app in IH. simpl in IH.
  replace (Z.of_nat (length pre + 1) + 1)
    with (Z.of_nat (length pre) + 1 + 1) in IH by lia.
  rewrite range_cons by (rewrite Ho, length_app; simpl; lia).
  cbn [borders_loop map walk fst snd].
  assert (getitem (map hdr order) (Z.of_nat (length pre) + 1) = Ok (hdr i))
    as ->.
  { apply getitem_lookup; [lia|]. rewrite list_lookup_fmap.
    replace (Z.to_nat (Z.of_nat (length pre) + 1))
      with (length (pre ++ [prev]) + 0)%nat
      by (rewrite length_app; simpl; lia).
    rewrite Ho', lookup_app_r by lia.
    by replace (_ - _)%nat with 0%nat by lia. }
  assert (getitem (map hdr order) (Z.of_nat (length pre) + 1 + 1)
          = Ok (hdr j)) as Hj.
  { apply getitem_lookup; [lia|]. rewrite list_lookup_fmap, Ho'.
    rewrite lookup_app_r by (rewrite length_app; simpl; lia).
    rewrite length_app. simpl.
    replace (_ - _)%nat with 1%nat by lia. done. }
  assert (getitem order (Z.of_nat (length pre) + 1 - 1) = Ok prev) as Hp.
  { apply getitem_lookup; [lia|]. rewrite Ho.
    replace (Z.to_nat _) with (length pre) by lia.
    by rewrite list_lookup_middle. }
  assert (getitem (query_ends alns) prev = Ok (qend prev)) as Hq.
  { apply getitem_total, order_qend. rewrite Ho.
    apply elem_of_app. right. left. }
  cbn [mbind result_bind].
  destruct (decide (hdr i ≠ current_ref)) as [Hi|Hi].
  - rewrite Hj. cbn [mbind result_bind].
    destruct (decide (hdr j ≠ current_ref)) as [Hj'|Hj'].
    + rewrite Hp. cbn [mbind result_bind]. rewrite Hq.
      cbn [mbind result_bind].
      rewrite decide_True by done.
      rewrite IH by done. by rewrite <- app_assoc.
    + rewrite decide_False by tauto. by apply IH.
  - rewrite decide_False by tauto. by apply IH.
Qed.
End Walk.

Lemma get_borders_walk alns order prev rest qlen :
  order = prev :: rest →
  (∀ i, i ∈ order → 0 <= i < Z.of_nat (length (query_ends alns))) →
  query_lens alns !! 0%nat = Some qlen →
  get_borders (map (fun i => ref_headers alns !!! Z.to_nat i) order) alns order
  = Ok (consecutive
          (0 :: walk (ref_headers alns !!! Z.to_nat prev)
                  (query_ends alns !!! Z.to_nat prev)
                  (map (fun i => (ref_headers alns !!! Z.to_nat i,
                                  query_ends alns !!! Z.to_nat i)) rest)
           ++ [qlen])).
Proof.
  intros Ho Hq Hl. unfold get_borders.
  assert (getitem (map (fun i => ref_headers alns !!! Z.to_nat i) order) 0
          = Ok (ref_headers alns !!! Z.to_nat prev)) as ->
    by (apply getitem_lookup; [done|by rewrite Ho]).
  cbn [mbind result_bind]. rewrite length_map.
  pose proof (borders_loop_walk alns order Hq rest [] prev) as Hw.
  simpl in Hw. rewrite Hw by done. cbn [mbind result_bind].
  assert (getitem (query_lens alns) 0 = Ok qlen) as ->
    by by apply getitem_lookup.
  done.
Qed.

Lemma query_order_indices a i :
  i ∈ query_order a → 0 <= i < Z.of_nat (length (ref_headers a)).
Proof. by apply sorted_positions_indices. Qed.

Lemma clustered_walk ctg r0 e0 rest qlen :
  wf_alns ctg →
  by_query_start ctg = (r0, e0) :: rest →
  query_lens ctg !! 0%nat = Some qlen →
  clustered ctg = Ok (consecutive (0 :: walk r0 e0 rest ++ [qlen])).
Proof.
  intros (Hql & Hqs & Hqe & _) Hby Hl. unfold clustered.
  rewrite positions_Ok by lia. cbn [mbind result_bind].
  fold (query_order ctg).
  rewrite (traverse_map _ (fun i => ref_headers ctg !!! Z.to_nat i)).
  2:{ intros i Hi%query_order_indices. by apply getitem_total. }
  cbn [mbind result_bind]. unfold by_query_start in Hby.
  destruct (query_order ctg) as [|prev order] eqn:Ho; [done|].
  injection Hby as <- <- <-.
  apply get_borders_walk; [done| |done].
  intros i Hi. rewrite <- Ho in Hi. apply query_order_indices in Hi. lia.
Qed.

Lemma clustered_empty ctg :
  ref_headers ctg = [] → clustered ctg = Raise IndexError.
Proof. intros H. unfold clustered. by rewrite H. Qed.



Lemma consecutive_contiguous l : contiguous (consecutive l).
Proof.
  induction l as [|a [|b [|c l]] IH]; simpl in *; done.
Qed.

Lemma length_query_order a :
  length (query_order a) = length (ref_headers a).
Proof.
  unfold query_order. rewrite length_sorted_positions. lia.
Qed.


(** ** Intrachromosomal detector *)

Lemma length_gaps f values :
  length (gaps f values) = (length values - 1)%nat.
Proof.
  induction values as [|x [|y l] IH]; simpl in *; try done.
  rewrite IH. lia.
Qed.

Lemma length_in_order xs order : length (in_order xs order) = length order.
Proof. apply length_map. Qed.

Lemma range_shift a b : range (a + 1) (b + 1) = map (Z.add 1) (range a b).
Proof.
  unfold range. rewrite map_map.
  replace (b + 1 - (a + 1)) with (b - a) by lia.
  apply map_ext. intros; lia.
Qed.

Lemma gaps_by_index f values :
  map (fun i => f (values !!! Z.to_nat (i + 1) - values !!! Z.to_nat i))
    (range 0 (Z.of_nat (length values) - 1))
  = gaps f values.
Proof.
  induction values as [|x [|y l] IH]; [done..|].
  rewrite range_cons by (simpl; lia).
  change (gaps f (x :: y :: l)) with (f (y - x) :: gaps f (y :: l)).
  cbn [map]. f_equal.
  rewrite <- IH.
  replace (Z.of_nat (length (x :: y :: l)) - 1)
    with (Z.of_nat (length (y :: l)) - 1 + 1) by (simpl; lia).
  rewrite (range_shift 0), map_map. apply map_ext_in.
  intros i Hi%list_elem_of_In%elem_of_range.
  replace (Z.to_nat (1 + i + 1)) with (S (Z.to_nat (i + 1))) by lia.
  replace (Z.to_nat (1 + i)) with (S (Z.to_nat i)) by lia.
  done.
Qed.

Lemma distances_gaps f xs order :
  (∀ i, i ∈ order → 0 <= i < Z.of_nat (length xs)) →
  distances f xs order = Ok (gaps f (in_order xs order)).
Proof.
  intros Hin. unfold distances.
  rewrite <- gaps_by_index, length_in_order.
  apply traverse_map. intros i Hi%elem_of_range.
  assert (∀ k, 0 <= k < Z.of_nat (length order) →
            getitem order k = Ok (order !!! Z.to_nat k)
            ∧ getitem xs (order !!! Z.to_nat k)
              = Ok (in_order xs order !!! Z.to_nat k)) as Hk.
  { intros k Hk. split; [by apply getitem_total|].
    unfold in_order.
    rewrite (list_lookup_total_fmap (fun i => xs !!! Z.to_nat i) order)
      by lia.
    apply getitem_total, Hin, list_elem_of_lookup_total_2. lia. }
  destruct (Hk (i + 1)) as [-> H1]; [lia|]. cbn [mbind result_bind].
  rewrite H1. cbn [mbind result_bind].
  destruct (Hk i) as [-> H2]; [lia|]. cbn [mbind result_bind].
  by rewrite H2.
Qed.

Lemma traverse_in_order xs order :
  (∀ i, i ∈ order → 0 <= i < Z.of_nat (length xs)) →
  traverse (getitem xs) order = Ok (in_order xs order).
Proof.
  intros Hin. apply traverse_map. intros i Hi. by apply getitem_total, Hin.
Qed.

Lemma ref_order_indices a i :
  i ∈ ref_order a → 0 <= i < Z.of_nat (length (ref_headers a)).
Proof. by apply sorted_positions_indices. Qed.

Lemma length_ref_order a : length (ref_order a) = length (ref_headers a).
Proof. unfold ref_order. rewrite length_sorted_positions. lia. Qed.

Section DetectorFacts.
Context (UniqueContigAlignment : ContigAlignment → result string)
        (LongestContigAlignment : ContigAlignment → result strand).

(** The copy is a new object: the call leaves every object of the
    caller's store as it was and works on the filtered copy. *)
Lemma get_intra_contigs_copy σ alns a best_header l d c :
  σ !! alns = Some a → UniqueContigAlignment a = Ok best_header →
  get_intra_contigs UniqueContigAlignment LongestContigAlignment
    σ alns l d c
  = (<[fresh (dom σ) :=
         filter_lengths l (filter_ref_chroms [best_header] a)]> σ,
     detect LongestContigAlignment
       (filter_lengths l (filter_ref_chroms [best_header] a)) d c).
Proof.
  intros Ha Hu. unfold get_intra_contigs, deepcopy. rewrite Ha, Hu.
  rewrite !alter_insert_eq. by rewrite lookup_insert_eq.
Qed.

(** The detector on a collection that is not empty, with the lists it
    builds replaced by what they hold. *)
Lemma detect_unfold ctg st d c :
  wf_alns ctg → ref_headers ctg ≠ [] →
  LongestContigAlignment ctg = Ok st →
  let order := ref_order ctg in
  let starts := match st with
                | Minus => query_ends ctg | Plus => query_starts ctg
                end in
  let ends := match st with
              | Minus => query_starts ctg | Plus => query_ends ctg
              end in
  let qs := in_order starts order in
  let qe := in_order ends order in
  let ref_gaps := gaps id (in_order (ref_starts ctg) order) in
  let query_gaps := gaps Z.abs qs in
  let qlen := query_lens ctg !!! 0%nat in
  detect LongestContigAlignment ctg d c
  = match ref_gaps with
    | [] => Ok None
    | _ :: _ =>
        m ← max_list ref_gaps;
        if d <? m then
          break_index ← index ref_gaps m;
          s ← getitem qs break_index;
          e ← getitem qe break_index;
          if s <? e then Ok (Some (contig ctg, [(0, s); (s, qlen)]))
          else Ok (Some (contig ctg, [(0, e); (e, qlen)]))
        else
          m' ← max_list query_gaps;
          if c <? m' then
            s ← getitem qs 0;
            Ok (Some (contig ctg, [(0, s); (s, qlen)]))
          else Ok None
    end.
Proof.
  intros (Hql & Hqs & Hqe & Hrs & Hre & _) Hne Hl
    order starts ends qs qe ref_gaps query_gaps qlen.
  unfold detect. rewrite bool_decide_eq_false_2.
  2:{ by destruct (ref_headers ctg). }
  rewrite positions_Ok by lia. cbn [mbind result_bind].
  fold (ref_order ctg). fold order. rewrite Hl. cbn [mbind result_bind].
  assert (∀ xs : list Z, length xs = length (ref_headers ctg) →
            ∀ i, i ∈ order → 0 <= i < Z.of_nat (length xs)) as Hin.
  { intros xs -> i Hi. by apply ref_order_indices. }
  assert ((if bool_decide (st = Minus) then query_ends ctg
           else query_starts ctg) = starts) as ->
    by by destruct st.
  assert ((if bool_decide (st = Minus) then query_starts ctg
           else query_ends ctg) = ends) as ->
    by by destruct st.
  assert (length starts = length (ref_headers ctg)) as Hls
    by by destruct st.
  assert (length ends = length (ref_headers ctg)) as Hle
    by by destruct st.
  rewrite !traverse_in_order by auto. cbn [mbind result_bind].
  rewrite !distances_gaps by auto. cbn [mbind result_bind].
  fold qs qe ref_gaps query_gaps.
  assert (getitem (query_lens ctg) 0 = Ok qlen) as Hq.
  { apply getitem_total. destruct (ref_headers ctg); [done|].
    rewrite Hql. simpl. lia. }
  destruct ref_gaps as [|g gs]; [done|].
  destruct (max_list (g :: gs)) as [m|]; [|done]. cbn [mbind result_bind].
  destruct (d <? m).
  - destruct (index (g :: gs) m) as [k|]; [|done]. cbn [mbind result_bind].
    destruct (getitem qs k) as [s|]; [|done]. cbn [mbind result_bind].
    destruct (getitem qe k) as [e|]; [|done]. cbn [mbind result_bind].
    by rewrite Hq.
  - destruct (max_list query_gaps) as [m'|]; [|done].
    cbn [mbind result_bind]. destruct (c <? m'); [|done].
    destruct (getitem qs 0) as [s|]; [|done]. cbn [mbind result_bind].
    by rewrite Hq.
Qed.
End DetectorFacts.

(** C6: with at least one alignment left after the restriction to the best
    chromosome and to length [l], the detector works on the alignments in
    reference order (each alignment once, by increasing reference start,
    then reference end, then input position), query starts and ends
    swapped when the longest alignment is on the minus strand. If some gap
    between consecutive reference starts exceeds [d], it returns the two
    pieces [(0, b)] and [(b, query length)], [b] being, at the first index
    of the largest gap, the query start if it is below the query end and
    the query end otherwise. If none does and some gap between consecutive
    query starts exceeds [c], it splits at the first alignment's query
    start. If none does either, it returns no breakpoint. *)
Theorem get_intra_contigs_rules
    (UniqueContigAlignment : ContigAlignment → result string)
    (LongestContigAlignment : ContigAlignment → result strand)
    σ alns a best_header st l d c :
  σ !! alns = Some a → wf_alns a →
  UniqueContigAlignment a = Ok best_header →
  let ctg_alns := filter_lengths l (filter_ref_chroms [best_header] a) in
  ref_headers ctg_alns ≠ [] →
  LongestContigAlignment ctg_alns = Ok st →
  let order := ref_order ctg_alns in
  let qs := in_order (match st with
                      | Minus => query_ends ctg_alns
                      | Plus => query_starts ctg_alns
                      end) order in
  let qe := in_order (match st with
                      | Minus => query_starts ctg_alns
                      | Plus => query_ends ctg_alns
                      end) order in
  let ref_gaps := gaps id (in_order (ref_starts ctg_alns) order) in
  let query_gaps := gaps Z.abs qs in
  let qlen := query_lens ctg_alns !!! 0%nat in
  let pieces b := Ok (Some (contig ctg_alns, [(0, b); (b, qlen)])) in
  let out :=
    (get_intra_contigs UniqueContigAlignment LongestContigAlignment
       σ alns l d c).2 in
  sorted_by (ref_starts ctg_alns) (ref_ends ctg_alns)
    (length (ref_headers ctg_alns)) order
  ∧ (Exists (fun g => d < g) ref_gaps →
     ∃ (k : nat) g s e,
       ref_gaps !! k = Some g ∧ Forall (fun g' => g' <= g) ref_gaps
       ∧ (∀ j, (j < k)%nat → ref_gaps !! j ≠ Some g)
       ∧ qs !! k = Some s ∧ qe !! k = Some e
       ∧ out = pieces (if s <? e then s else e))
  ∧ (Forall (fun g => g <= d) ref_gaps → Exists (fun g => c < g) query_gaps →
     ∃ s, qs !! 0%nat = Some s ∧ out = pieces s)
  ∧ (Forall (fun g => g <= d) ref_gaps → Forall (fun g => g <= c) query_gaps →
     out = Ok None).
Proof.
  intros Ha Hwf Hu ctg_alns Hne Hl order qs qe ref_gaps query_gaps qlen
    pieces out.
  assert (wf_alns ctg_alns) as Hwf'
    by by apply wf_filter_lengths, wf_filter_ref_chroms.
  assert (out = detect LongestContigAlignment ctg_alns d c) as Hout.
  { subst out.
    rewrite (get_intra_contigs_copy _ _ σ alns a best_header);
      [reflexivity|assumption..]. }
  pose proof (detect_unfold _ ctg_alns st d c Hwf' Hne Hl) as Hd.
  cbv zeta in Hd. rewrite Hd in Hout. clear Hd.
  fold order qs qe ref_gaps query_gaps qlen in Hout.
  assert (length qs = length order) as Hlqs by apply length_in_order.
  assert (length qe = length order) as Hlqe by apply length_in_order.
  assert (length ref_gaps = (length order - 1)%nat) as Hlr.
  { subst ref_gaps. by rewrite length_gaps, length_in_order. }
  assert (length query_gaps = (length order - 1)%nat) as Hlq.
  { subst query_gaps. by rewrite length_gaps, Hlqs. }
  split; [apply sorted_positions_sorted_by|].
  clearbody ref_gaps query_gaps qs qe out.
  repeat split.
  - intros Hex. destruct ref_gaps as [|g0 gs]; [by inversion Hex|].
    destruct (max_list_spec g0 gs) as (m & Hm & Hin & Hmax).
    rewrite Hm in Hout. cbn [mbind result_bind] in Hout.
    assert (d < m) as Hd.
    { apply Exists_exists in Hex as (g & Hg & Hdg).
      apply Hmax in Hg. lia. }
    rewrite (proj2 (Z.ltb_lt d m) Hd) in Hout.
    destruct (index_spec (g0 :: gs) m Hin) as (k & Hk & Hkm & Hleast).
    rewrite Hk in Hout. cbn [mbind result_bind] in Hout.
    pose proof (lookup_lt_Some _ _ _ Hkm) as Hlt.
    destruct (lookup_lt_is_Some_2 qs k) as [s Hs]; [lia|].
    destruct (lookup_lt_is_Some_2 qe k) as [e He]; [lia|].
    rewrite (getitem_lookup qs (Z.of_nat k) s) in Hout
      by (lia || by rewrite Nat2Z.id).
    rewrite (getitem_lookup qe (Z.of_nat k) e) in Hout
      by (lia || by rewrite Nat2Z.id).
    cbn [mbind result_bind] in Hout.
    exists k, m, s, e. repeat split; try done.
    + apply Forall_forall. intros g' Hg'. by apply Hmax.
    + rewrite Hout. by destruct (s <? e).
  - intros Hall Hex.
    destruct query_gaps as [|q0 qgs]; [by inversion Hex|].
    destruct ref_gaps as [|g0 gs]; [simpl in *; lia|].
    destruct (max_list_spec g0 gs) as (m & Hm & Hin & Hmax).
    rewrite Hm in Hout. cbn [mbind result_bind] in Hout.
    rewrite Forall_forall in Hall. pose proof (Hall m Hin) as Hmd.
    rewrite (proj2 (Z.ltb_ge d m)) in Hout by lia.
    destruct (max_list_spec q0 qgs) as (m' & Hm' & Hin' & Hmax').
    rewrite Hm' in Hout. cbn [mbind result_bind] in Hout.
    assert (c < m') as Hc.
    { apply Exists_exists in Hex as (g & Hg & Hcg).
      apply Hmax' in Hg. lia. }
    rewrite (proj2 (Z.ltb_lt c m') Hc) in Hout.
    destruct (lookup_lt_is_Some_2 qs 0) as [s Hs]; [simpl in *; lia|].
    rewrite (getitem_lookup qs 0 s) in Hout by done.
    by exists s.
  - intros Hall Hall'.
    destruct ref_gaps as [|g0 gs]; [done|].
    destruct query_gaps as [|q0 qgs]; [simpl in *; lia|].
    destruct (max_list_spec g0 gs) as (m & Hm & Hin & Hmax).
    rewrite Hm in Hout. cbn [mbind result_bind] in Hout.
    rewrite Forall_forall in Hall. pose proof (Hall m Hin) as Hmd.
    rewrite (proj2 (Z.ltb_ge d m)) in Hout by lia.
    destruct (max_list_spec q0 qgs) as (m' & Hm' & Hin' & Hmax').
    rewrite Hm' in Hout. cbn [mbind result_bind] in Hout.
    rewrite Forall_forall in Hall'. pose proof (Hall' m' Hin') as Hmc.
    by rewrite (proj2 (Z.ltb_ge c m')) in Hout by lia.
Qed.

(** C10: [get_intra_contigs] filters a deep copy. Whatever it returns or
    raises, every object of the caller's store, the collection passed in
    among them, is afterwards what it was before; the one change to the
    store is the new object that holds the copy. *)
Theorem get_intra_contigs_leaves_caller_collection
    (UniqueContigAlignment : ContigAlignment → result string)
    (LongestContigAlignment : ContigAlignment → result strand)
    (σ : gmap loc ContigAlignment) (alns : loc) (l d c : Z) :
  let σ' :=
    (get_intra_contigs UniqueContigAlignment LongestContigAlignment
       σ alns l d c).1 in
  σ' !! alns = σ !! alns
  ∧ σ ⊆ σ'
  ∧ dom σ' ⊆ dom σ ∪ {[fresh (dom σ)]}.
Proof.
  intros σ'. subst σ'.
  destruct (σ !! alns) as [a|] eqn:Ha.
  2:{ unfold get_intra_contigs. rewrite Ha. simpl.
      split; [done|]. split; [done|]. set_solver. }
  destruct (UniqueContigAlignment a) as [best_header|e] eqn:Hu.
  2:{ unfold get_intra_contigs. rewrite Ha, Hu. simpl.
      split; [done|]. split; [done|]. set_solver. }
  rewrite (get_intra_contigs_copy _ _ σ alns a best_header) by done.
  cbn [fst].
  assert (σ !! fresh (dom σ) = None) as Hfresh.
  { apply not_elem_of_dom, is_fresh. }
  split; [|split].
  - rewrite lookup_insert_ne; [done|]. intros Heq.
    rewrite Heq, Ha in Hfresh. discriminate.
  - apply insert_subseteq, Hfresh.
  - rewrite dom_insert_L. by rewrite (comm_L (∪)).
Qed.

Lemma cluster_contig_alns_filters_in_place σ contig alns chroms l x a :
  alns !! contig = Some x → σ !! x = Some a →
  (cluster_contig_alns σ contig alns chroms l).1 !! x
  = Some (filter_ref_chroms chroms a).
Proof.
  intros Hc Hx. unfold cluster_contig_alns. rewrite Hc, Hx. simpl.
  by rewrite lookup_insert_eq.
Qed.

Lemma clustered_single ctg :
  wf_alns ctg → length (ref_headers ctg) = 1%nat →
  clustered ctg = Ok [(0, query_lens ctg !!! 0%nat)].
Proof.
  intros Hwf Hn.
  assert (length (by_query_start ctg) = 1%nat) as Hlen.
  { unfold by_query_start. by rewrite length_map, length_query_order. }
  destruct (by_query_start ctg) as [|[r0 e0] [|??]] eqn:Hby; try done.
  rewrite (clustered_walk ctg r0 e0 [] (query_lens ctg !!! 0%nat));
    [done..|].
  apply list_lookup_lookup_total_lt. destruct Hwf as [-> _]. lia.
Qed.

Lemma detect_single LongestContigAlignment ctg st d c :
  wf_alns ctg → length (ref_headers ctg) = 1%nat →
  LongestContigAlignment ctg = Ok st →
  detect LongestContigAlignment ctg d c = Ok None.
Proof.
  intros Hwf Hn Hl.
  assert (ref_headers ctg ≠ []) as Hne by by destruct (ref_headers ctg).
  pose proof (detect_unfold _ ctg st d c Hwf Hne Hl) as Hd.
  cbv zeta in Hd. rewrite Hd. clear Hd.
  assert (length (gaps id (in_order (ref_starts ctg) (ref_order ctg)))
          = 0%nat) as Hg.
  { rewrite length_gaps, length_in_order, length_ref_order. lia. }
  by destruct (gaps _ _).
Qed.

Lemma detect_empty LongestContigAlignment ctg d c :
  ref_headers ctg = [] → detect LongestContigAlignment ctg d c = Ok None.
Proof. intros H. unfold detect. by rewrite H. Qed.

Lemma keep_all {A B} (f : B → bool) (ks : list B) (l : list A) :
  Forall (fun k => f k = true) ks → length l = length ks →
  keep (map f ks) l = l.
Proof.
  revert l. induction ks as [|k ks IH]; intros [|x l] Hall Hlen;
    try done.
  apply Forall_cons in Hall as [Hk Hall]. cbn [map keep]. rewrite Hk.
  f_equal. apply IH; [done|]. simpl in Hlen. lia.
Qed.

Lemma keep_none {A B} (f : B → bool) (ks : list B) (l : list A) :
  Forall (fun k => f k = false) ks → keep (map f ks) l = [].
Proof.
  revert l. induction ks as [|k ks IH]; intros [|x l] Hall; try done.
  apply Forall_cons in Hall as [Hk Hall]. cbn [map keep]. rewrite Hk.
  by apply IH.
Qed.

(** C9: on a contig with a single alignment the clusterer yields the
    whole-contig interval when the alignment's chromosome is among the
    chosen ones, and raises [IndexError] when it is not; it raises
    [IndexError] whenever the chromosome filter leaves no alignment, an
    empty collection included, there being no query length to read. The
    detector returns no breakpoint when no alignment, or a single one,
    remains after its filters. *)
Theorem degenerate_inputs
    (UniqueContigAlignment : ContigAlignment → result string)
    (LongestContigAlignment : ContigAlignment → result strand) :
  (∀ σ contig alns chroms l x a h,
     alns !! contig = Some x → σ !! x = Some a → wf_alns a →
     ref_headers a = [h] →
     (cluster_contig_alns σ contig alns chroms l).2
     = if bool_decide (h ∈ chroms)
       then Ok [(0, query_lens a !!! 0%nat)]
       else Raise IndexError)
  ∧ (∀ σ contig alns chroms l x a,
       alns !! contig = Some x → σ !! x = Some a →
       ref_headers (filter_ref_chroms chroms a) = [] →
       (cluster_contig_alns σ contig alns chroms l).2 = Raise IndexError)
  ∧ (∀ σ alns a best_header l d c,
       σ !! alns = Some a → UniqueContigAlignment a = Ok best_header →
       ref_headers (filter_lengths l (filter_ref_chroms [best_header] a)) = [] →
       (get_intra_contigs UniqueContigAlignment LongestContigAlignment
          σ alns l d c).2 = Ok None)
  ∧ (∀ σ alns a best_header st l d c,
       σ !! alns = Some a → wf_alns a →
       UniqueContigAlignment a = Ok best_header →
       length (ref_headers
                 (filter_lengths l (filter_ref_chroms [best_header] a)))
       = 1%nat →
       LongestContigAlignment
         (filter_lengths l (filter_ref_chroms [best_header] a)) = Ok st →
       (get_intra_contigs UniqueContigAlignment LongestContigAlignment
          σ alns l d c).2 = Ok None).
Proof.
  repeat split.
  - intros σ contig alns chroms l x a h Hc Hx Hwf Hh.
    unfold cluster_contig_alns. rewrite Hc, Hx. simpl.
    case_bool_decide as Hin.
    + assert (query_lens (filter_ref_chroms chroms a) = query_lens a)
        as Hq.
      { cbn [filter_ref_chroms update_alns query_lens].
        apply keep_all; [|by destruct Hwf as [-> _]].
        rewrite Hh. constructor; [by apply bool_decide_eq_true_2|done]. }
      rewrite <- Hq. apply clustered_single;
        [by apply wf_filter_ref_chroms|].
      cbn [filter_ref_chroms update_alns ref_headers].
      rewrite keep_all; [by rewrite Hh|rewrite Hh|done].
      constructor; [by apply bool_decide_eq_true_2|done].
    + apply clustered_empty.
      cbn [filter_ref_chroms update_alns ref_headers].
      apply keep_none. rewrite Hh.
      constructor; [by apply bool_decide_eq_false_2|done].
  - intros σ contig alns chroms l x a Hc Hx Hn.
    unfold cluster_contig_alns. rewrite Hc, Hx. simpl.
    by apply clustered_empty.
  - intros σ alns a best_header l d c Ha Hu Hn.
    rewrite (get_intra_contigs_copy _ _ σ alns a best_header) by done.
    by apply detect_empty.
  - intros σ alns a best_header st l d c Ha Hwf Hu Hn Hl.
    rewrite (get_intra_contigs_copy _ _ σ alns a best_header) by done.
    apply (detect_single _ _ st); [|done..].
    by apply wf_filter_lengths, wf_filter_ref_chroms.
Qed.

(** ** The interval index *)

Lemma tree_add_elem t b e data t' q :
  tree_add t b e data = Ok t' → q ∈ t' ↔ q ∈ t ∨ q = (b, e, data).
Proof.
  unfold tree_add. case_bool_decide as Hin.
  - intros [= <-]. split; [by left|]. by intros [?| ->].
  - destruct (e <=? b); [done|]. intros [= <-].
    rewrite elem_of_app, list_elem_of_singleton. done.
Qed.

Lemma tree_add_Ok t b e data : b < e → is_Ok (tree_add t b e data).
Proof.
  intros Hlt. unfold tree_add, is_Ok. case_bool_decide; [by eexists|].
  rewrite (proj2 (Z.leb_gt e b)) by done. by eexists.
Qed.

Lemma tree_add_NoDup t b e data t' :
  tree_add t b e data = Ok t' → NoDup t → NoDup t'.
Proof.
  unfold tree_add. case_bool_decide as Hin; [by intros [= <-]|].
  destruct (e <=? b); [done|]. intros [= <-] Hnd.
  apply NoDup_app. split; [done|]. split; [|apply NoDup_singleton].
  intros q Hq ->%list_elem_of_singleton. done.
Qed.

Lemma tree_at_nil t p :
  tree_at t p = [] ↔ ∀ q, q ∈ t → ¬ (q.1.1 <= p < q.1.2).
Proof.
  unfold tree_at. split.
  - intros Hnil q Hq Hp.
    assert (In q (List.filter
                    (fun iv => (iv.1.1 <=? p) && (p <? iv.1.2)) t)) as Hin.
    { apply filter_In. split; [by apply list_elem_of_In|].
      apply andb_true_iff. split; [apply Z.leb_le|apply Z.ltb_lt]; lia. }
    by rewrite Hnil in Hin.
  - intros Hall.
    destruct (List.filter (fun iv => (iv.1.1 <=? p) && (p <? iv.1.2)) t)
      as [|q l] eqn:Hf; [done|].
    assert (In q (q :: l)) as Hin by by left.
    rewrite <- Hf in Hin. apply filter_In in Hin as [Hq Hb].
    apply andb_true_iff in Hb as [H1%Z.leb_le H2%Z.ltb_lt].
    destruct (Hall q); [by apply list_elem_of_In|lia].
Qed.

(** ** Breakpoint adjuster *)

Lemma feature_tree_elem gff_ins : ∀ t,
  Forall (fun f => start f <= end_ f) gff_ins →
  ∃ t', feature_tree gff_ins t = Ok t'
        ∧ ∀ q, q ∈ t' ↔
               q ∈ t ∨ ∃ f, f ∈ gff_ins ∧ start f ≠ end_ f
                            ∧ q = (start f, end_ f, (start f, end_ f)).
Proof.
  induction gff_ins as [|f gff_ins IH]; intros t Hwf; simpl.
  - exists t. split; [done|]. intros q. split; [by left|].
    intros [?|(f & Hf & _)]; [done|by inversion Hf].
  - apply Forall_cons in Hwf as [Hf Hwf].
    destruct (start f =? end_ f) eqn:Heq.
    + apply Z.eqb_eq in Heq.
      destruct (IH t Hwf) as (t' & Ht' & Hq). exists t'. split; [done|].
      intros q. rewrite Hq. split; intros [?|(g & Hg & Hne & ->)];
        try by left.
      * right. exists g. split; [by right|done].
      * apply elem_of_cons in Hg as [->|Hg]; [done|]. right. by exists g.
    + apply Z.eqb_neq in Heq.
      destruct (tree_add_Ok t (start f) (end_ f) (start f, end_ f))
        as [t1 Ht1]; [lia|].
      rewrite Ht1. cbn [mbind result_bind].
      destruct (IH t1 Hwf) as (t' & Ht' & Hq). exists t'. split; [done|].
      intros q. rewrite Hq, (tree_add_elem _ _ _ _ _ _ Ht1).
      split.
      * intros [[?| ->]|(g & Hg & Hne & ->)]; [by left|..].
        -- right. exists f. split; [left|done].
        -- right. exists g. split; [by right|done].
      * intros [?|(g & Hg & Hne & ->)]; [by left; left|].
        apply elem_of_cons in Hg as [->|Hg]; [by left; right|].
        right. by exists g.
Qed.

Lemma probe_finds t : ∀ fuel p,
  (0 < fuel)%nat → (∀ q, q ∈ t → q.1.2 - p < Z.of_nat fuel) →
  ∃ p', probe fuel t p = Some p' ∧ tree_at t p' = [] ∧ p <= p'
        ∧ ∀ x, p <= x < p' → tree_at t x ≠ [].
Proof.
  induction fuel as [|fuel IH]; intros p Hpos Hfuel; [lia|].
  simpl. destruct (tree_at t p) as [|q l] eqn:Hat.
  - exists p. repeat split; [done|lia|]. intros; lia.
  - assert (q ∈ t ∧ q.1.1 <= p < q.1.2) as [Hq Hp].
    { assert (In q (tree_at t p)) as Hin by (rewrite Hat; by left).
      apply filter_In in Hin as [Hq Hb].
      apply andb_true_iff in Hb as [H1%Z.leb_le H2%Z.ltb_lt].
      split; [by apply list_elem_of_In|lia]. }
    pose proof (Hfuel q Hq).
    destruct (IH (p + 1)) as (p' & Hp' & Hnil & Hle & Hbetween).
    { lia. }
    { intros q' Hq'. specialize (Hfuel q' Hq'). lia. }
    exists p'. repeat split; [done..|lia|].
    intros x Hx. destruct (decide (x = p)) as [->|Hne].
    + by rewrite Hat.
    + apply Hbetween. lia.
Qed.

Lemma adjust_finds t fuel borders :
  (0 < fuel)%nat →
  (∀ q b, q ∈ t → b ∈ borders →
          q.1.2 - b.1 < Z.of_nat fuel ∧ q.1.2 - b.2 < Z.of_nat fuel) →
  ∃ new_borders,
    adjust fuel t borders = Some new_borders
    ∧ Forall2 (fun b b' => b.1 <= b'.1 ∧ b.2 <= b'.2) borders new_borders
    ∧ Forall (fun b' => tree_at t b'.1 = [] ∧ tree_at t b'.2 = [])
        new_borders.
Proof.
  intros Hpos. induction borders as [|b borders IH]; intros Hfuel; simpl.
  - exists []. by repeat constructor.
  - destruct (probe_finds t fuel b.1) as (s & Hs & Hsn & Hsl & _);
      [done|intros q Hq; apply (Hfuel q b Hq); left|].
    destruct (probe_finds t fuel b.2) as (e & He & Hen & Hel & _);
      [done|intros q Hq; apply (Hfuel q b Hq); left|].
    destruct IH as (nb & Hnb & Hle & Hfree).
    { intros q b' Hq Hb'. apply Hfuel; [done|by right]. }
    rewrite Hs, He, Hnb. simpl. exists ((s, e) :: nb).
    split; [done|]. split; constructor; done.
Qed.

Lemma slice_init {A} (l : list A) x : slice (l ++ [x]) 0 (-1) = l.
Proof.
  unfold slice, clip. rewrite length_app. simpl.
  replace (Z.to_nat (Z.min 0 _)) with 0%nat by lia.
  replace (Z.to_nat (_ - _)) with (length l) by lia.
  by rewrite drop_0, take_app_length.
Qed.

Lemma fuel_for_enough borders gff_ins f b :
  f ∈ gff_ins → b ∈ borders →
  end_ f - b.1 < Z.of_nat (fuel_for borders gff_ins)
  ∧ end_ f - b.2 < Z.of_nat (fuel_for borders gff_ins).
Proof.
  intros Hf Hb. unfold fuel_for.
  assert (∀ (l : list Z) x, x ∈ l → x <= fold_right Z.max 0 l) as Hmax.
  { induction l as [|y l IH]; intros x Hx; [by inversion Hx|]. simpl.
    apply elem_of_cons in Hx as [->|Hx]; [lia|]. apply IH in Hx. lia. }
  assert (∀ (l : list Z) x, x ∈ l → fold_right Z.min 0 l <= x) as Hmin.
  { induction l as [|y l IH]; intros x Hx; [by inversion Hx|]. simpl.
    apply elem_of_cons in Hx as [->|Hx]; [lia|]. apply IH in Hx. lia. }
  pose proof (Hmax (map end_ gff_ins) (end_ f)
                ltac:(by apply list_elem_of_fmap_2)) as H1.
  pose proof (Hmin (map fst borders ++ map snd borders) b.1
                ltac:(apply elem_of_app; left;
                      by apply list_elem_of_fmap_2)) as H2.
  pose proof (Hmin (map fst borders ++ map snd borders) b.2
                ltac:(apply elem_of_app; right;
                      by apply list_elem_of_fmap_2)) as H3.
  lia.
Qed.

(** What the adjuster returns, given fuel enough for its loops: one
    border per input border, with no start, and no end but the last, in a
    feature's interval [[start, end)], and the end of the last input
    border as the last end. *)
Lemma avoid_gff_intervals_free fuel borders gff_ins :
  borders ≠ [] →
  Forall (fun f => start f <= end_ f) gff_ins →
  (fuel_for borders gff_ins <= fuel)%nat →
  ∃ new_borders,
    avoid_gff_intervals fuel borders gff_ins = Some (Ok new_borders)
    ∧ length new_borders = length borders
    ∧ (∀ (k : nat) b f,
         new_borders !! k = Some b → f ∈ gff_ins →
         ¬ (start f <= b.1 < end_ f)
         ∧ ((S k < length new_borders)%nat → ¬ (start f <= b.2 < end_ f)))
    ∧ snd <$> last new_borders = snd <$> last borders.
Proof.
  intros Hne Hwf Hfuel. unfold avoid_gff_intervals.
  destruct (feature_tree_elem gff_ins [] Hwf) as (t & -> & Ht).
  destruct (adjust_finds t fuel borders) as (nb & -> & Hle & Hfree).
  { unfold fuel_for in Hfuel. lia. }
  { intros q b Hq Hb. apply Ht in Hq as [Hq|(f & Hf & _ & ->)];
      [by inversion Hq|].
    pose proof (fuel_for_enough borders gff_ins f b Hf Hb). simpl. lia. }
  pose proof (Forall2_length _ _ _ Hle) as Hlen.
  destruct (exists_last Hne) as (bs & last_old & ->).
  destruct nb as [|n0 nb0] using rev_ind;
    [rewrite length_app in Hlen; simpl in Hlen; lia|]. clear IHnb0.
  rename nb0 into nbs. rename n0 into last_new.
  cbn [mbind option_bind]. rewrite !getitem_last. cbn [mbind result_bind].
  rewrite slice_init.
  exists (nbs ++ [(last_new.1, last_old.2)]).
  split; [done|]. split; [by rewrite !length_app in *|].
  assert (∀ p f, tree_at t p = [] → f ∈ gff_ins →
                 ¬ (start f <= p < end_ f)) as Hout.
  { intros p f Hnil Hf Hp. assert (start f ≠ end_ f) as Hnz by lia.
    rewrite tree_at_nil in Hnil.
    apply (Hnil (start f, end_ f, (start f, end_ f))); [|done].
    apply Ht. right. by exists f. }
  apply Forall_app in Hfree as [Hfree Hlast].
  apply Forall_singleton in Hlast as [Hlast _].
  split; [|by rewrite !last_snoc].
  intros k b f Hk Hf. rewrite length_app. simpl.
  apply lookup_app_Some in Hk as [Hk|[Hge Hk]].
  - rewrite Forall_forall in Hfree.
    destruct (Hfree b) as [H1 H2]; [by eapply list_elem_of_lookup_2|].
    split; [by apply Hout|]. intros _. by apply Hout.
  - apply list_lookup_singleton_Some in Hk as [Hk <-]. simpl.
    split; [by apply Hout|]. unfold interval in *. lia.
Qed.

(** C5: for features that end within the contig, whose length is the end
    of the last input border, the adjuster, with fuel enough for its
    loops, returns one border per input border; no start and no end of an
    adjusted border lies strictly inside a feature's interval; more, no
    start, and no end but the last, lies in a feature's interval
    [[start, end)]; and the last border's end is the end of the last
    input border. *)
Theorem avoid_gff_intervals_avoids fuel borders gff_ins :
  borders ≠ [] →
  Forall (fun f => start f <= end_ f) gff_ins →
  (∀ b f, last borders = Some b → f ∈ gff_ins → end_ f <= b.2) →
  (fuel_for borders gff_ins <= fuel)%nat →
  ∃ new_borders,
    avoid_gff_intervals fuel borders gff_ins = Some (Ok new_borders)
    ∧ length new_borders = length borders
    ∧ (∀ b f, b ∈ new_borders → f ∈ gff_ins →
         ¬ (start f < b.1 < end_ f) ∧ ¬ (start f < b.2 < end_ f))
    ∧ (∀ (k : nat) b f,
         new_borders !! k = Some b → f ∈ gff_ins →
         ¬ (start f <= b.1 < end_ f)
         ∧ ((S k < length new_borders)%nat → ¬ (start f <= b.2 < end_ f)))
    ∧ snd <$> last new_borders = snd <$> last borders.
Proof.
  intros Hne Hwf Hin Hfuel.
  destruct (avoid_gff_intervals_free fuel borders gff_ins Hne Hwf Hfuel)
    as (new_borders & Hres & Hlen & Hfree & Hlast).
  exists new_borders. split; [done|]. split; [done|].
  split; [|by split].
  intros b f Hb Hf. apply list_elem_of_lookup_1 in Hb as [k Hk].
  destruct (Hfree k b f Hk Hf) as [Hstart Hend]. unfold interval in *.
  split; [lia|].
  destruct (decide (S k < length new_borders)%nat) as [Hlt|Hge];
    [specialize (Hend Hlt); lia|].
  assert (last new_borders = Some b) as Hb.
  { rewrite last_lookup. rewrite <- Hk. f_equal.
    apply lookup_lt_Some in Hk. lia. }
  rewrite Hb in Hlast. destruct (last borders) as [b0|] eqn:Hb0; [|done].
  injection Hlast as Hlast. specialize (Hin b0 f eq_refl Hf). lia.
Qed.

(** ** Feature remapper *)

Lemma border_tree_elem borders : ∀ t,
  Forall (fun b => b.1 < b.2) borders → NoDup t →
  ∃ t', border_tree borders t = Ok t' ∧ NoDup t'
        ∧ ∀ q, q ∈ t' ↔ q ∈ t ∨ ∃ b, b ∈ borders ∧ q = (b.1, b.2, b).
Proof.
  induction borders as [|b borders IH]; intros t Hwf Hnd; simpl.
  - exists t. split; [done|]. split; [done|]. intros q. split; [by left|].
    intros [?|(b & Hb & _)]; [done|by inversion Hb].
  - apply Forall_cons in Hwf as [Hb Hwf].
    destruct (tree_add_Ok t b.1 b.2 b Hb) as [t1 Ht1].
    rewrite Ht1. cbn [mbind result_bind].
    destruct (IH t1 Hwf) as (t' & Ht' & Hnd' & Hq);
      [by eapply tree_add_NoDup|].
    exists t'. split; [done|]. split; [done|].
    intros q. rewrite Hq, (tree_add_elem _ _ _ _ _ _ Ht1). split.
    + intros [[?| ->]|(b' & Hb' & ->)]; [by left|..].
      * right. exists b. split; [left|done].
      * right. exists b'. split; [by right|done].
    + intros [?|(b' & Hb' & ->)]; [by left; left|].
      apply elem_of_cons in Hb' as [->|Hb']; [by left; right|].
      right. by exists b'.
Qed.

Lemma tree_at_elem t p q :
  q ∈ tree_at t p ↔ q ∈ t ∧ q.1.1 <= p < q.1.2.
Proof.
  unfold tree_at. rewrite !list_elem_of_In, filter_In.
  rewrite andb_true_iff, Z.leb_le, Z.ltb_lt. tauto.
Qed.

Lemma tree_at_NoDup t p : NoDup t → NoDup (tree_at t p).
Proof.
  rewrite !NoDup_ListNoDup. apply List.NoDup_filter.
Qed.

Section Remap.
Context (contig : string) (borders : list interval) (t : IntervalTree).
Hypothesis t_NoDup : NoDup t.
Hypothesis t_elem : ∀ q, q ∈ t ↔ ∃ b, b ∈ borders ∧ q = (b.1, b.2, b).

Lemma tree_at_unique p q :
  tree_at t p = [q]
  ↔ ∃ b, unique_border borders p b ∧ q = (b.1, b.2, b).
Proof.
  split.
  - intros Hat.
    assert (q ∈ tree_at t p) as Hq by (rewrite Hat; left).
    apply tree_at_elem in Hq as [Hq Hp].
    apply t_elem in Hq as (b & Hb & ->). simpl in Hp.
    exists b. split; [|done]. split; [done|]. split; [done|].
    intros b' Hb' Hp'.
    assert ((b'.1, b'.2, b') ∈ tree_at t p) as Hin.
    { apply tree_at_elem. split; [|done]. apply t_elem. by exists b'. }
    rewrite Hat in Hin. apply list_elem_of_singleton in Hin.
    by injection Hin.
  - intros (b & (Hb & Hp & Huniq) & ->).
    assert ((b.1, b.2, b) ∈ tree_at t p) as Hin.
    { apply tree_at_elem. split; [|done]. apply t_elem. by exists b. }
    assert (∀ q, q ∈ tree_at t p → q = (b.1, b.2, b)) as Hall.
    { intros q [Hq Hqp]%tree_at_elem.
      apply t_elem in Hq as (b' & Hb' & ->). simpl in Hqp.
      by rewrite (Huniq b' Hb' Hqp). }
    pose proof (tree_at_NoDup t p t_NoDup) as Hnd.
    destruct (tree_at t p) as [|q1 [|q2 l]]; [by inversion Hin| |].
    + f_equal. apply Hall. left.
    + rewrite (Hall q1), (Hall q2) in Hnd by (repeat constructor).
      apply NoDup_cons in Hnd as [Hnd _]. destruct Hnd. left.
Qed.

Lemma remap_step i contig_feats features b fs :
  unique_border borders (start i) b →
  features !! broken_name contig b = Some fs →
  remap contig borders t (i :: contig_feats) features
  = remap contig borders t contig_feats
      (<[broken_name contig b := fs ++ [relocate contig b i]]> features).
Proof.
  intros Hu Hfs. cbn [remap].
  rewrite (proj2 (tree_at_unique (start i) (b.1, b.2, b)))
    by by exists b.
  cbn [fst snd]. destruct Hu as (Hb & _).
  replace (b.1, b.2) with b by by destruct b.
  rewrite index_getitem by done. by rewrite Hfs.
Qed.



Lemma remap_ok contig_feats : ∀ features,
  (∀ b, b ∈ borders → is_Some (features !! broken_name contig b)) →
  Forall (fun i => ∃ b, unique_border borders (start i) b) contig_feats →
  ∃ features',
    remap contig borders t contig_feats features = (features', Ok ())
    ∧ (∀ b, b ∈ borders →
         features' !! broken_name contig b
         = (fun fs => fs ++ (relocate contig b <$>
                               filter (fun i => b.1 <= start i < b.2)
                                 contig_feats))
           <$> features !! broken_name contig b)
    ∧ (∀ k, (∀ b, b ∈ borders → k ≠ broken_name contig b) →
            features' !! k = features !! k).
Proof.
  induction contig_feats as [|i feats IH]; intros features Hkeys Hall.
  - exists features. split; [done|]. split; [|done].
    intros b Hb. destruct (Hkeys b Hb) as [fs ->]. simpl.
    by rewrite app_nil_r.
  - apply Forall_cons in Hall as [(b0 & Hu) Hall].
    pose proof Hu as (Hb0 & Hp0 & Huniq).
    destruct (Hkeys b0 Hb0) as [fs0 Hfs0].
    rewrite (remap_step i feats features b0 fs0) by done.
    destruct (IH (<[broken_name contig b0 :=
                      fs0 ++ [relocate contig b0 i]]> features))
      as (features' & -> & Hin & Hother); [|done|].
    { intros b Hb. destruct (decide (b = b0)) as [->|Hne].
      - rewrite lookup_insert_eq. by eexists.
      - rewrite lookup_insert_ne; [by apply Hkeys|].
        intros Heq. by apply broken_name_inj in Heq. }
    exists features'. split; [done|]. split.
    + intros b Hb. rewrite (Hin b Hb).
      destruct (decide (b = b0)) as [->|Hne].
      * rewrite lookup_insert_eq, Hfs0. simpl.
        rewrite filter_cons_True by done. simpl.
        by rewrite <- app_assoc.
      * rewrite lookup_insert_ne
          by (intros Heq; by apply broken_name_inj in Heq).
        rewrite filter_cons_False; [done|].
        intros Hp. by apply Hne, Huniq.
    + intros k Hk. rewrite (Hother k Hk).
      apply lookup_insert_ne, not_eq_sym, Hk, Hb0.
Qed.

End Remap.



(** ** The theorems at sample inputs *)

Lemma break_contig_reconstruction_witness :
  ({[ "ctg" := ["A"; "C"; "G"; "T"]%char ]} : gmap string (list ascii))
    !! "ctg" = Some ["A"; "C"; "G"; "T"]%char
  ∧ tiles 0 4 [(0, 1); (1, 4)]
  ∧ (break_contig {[ "ctg" := ["A"; "C"; "G"; "T"]%char ]} "ctg"
       [(0, 1); (1, 4)]).2 = Ok ().
Proof.
  assert (tiles 0 4 [(0, 1); (1, 4)]) as Ht by (simpl; lia).
  assert (({[ "ctg" := ["A"; "C"; "G"; "T"]%char ]}
             : gmap string (list ascii)) !! "ctg"
          = Some ["A"; "C"; "G"; "T"]%char) as Hh by reflexivity.
  split; [exact Hh|]. split; [exact Ht|].
  exact (proj2 (proj1 (break_contig_reconstruction
                         {[ "ctg" := ["A"; "C"; "G"; "T"]%char ]} "ctg"
                         ["A"; "C"; "G"; "T"]%char [(0, 1); (1, 4)]
                         Hh) Ht)).
Defined.

(** C1, as first stated, fails: the assertion fails on borders that leave
    a gap, and the dictionary already holds the two slices and no longer
    holds the contig. *)
Lemma break_contig_writes_before_check :
  let out := break_contig {[ "ctg" := ["A"; "C"; "G"; "T"]%char ]} "ctg"
               [(0, 1); (2, 4)] in
  out.2 = Raise AssertionError
  ∧ out.1 !! "ctg" = None
  ∧ out.1 !! "ctg_chimera_broken:0-1" = Some ["A"]%char
  ∧ out.1 !! "ctg_chimera_broken:2-4" = Some ["G"; "T"]%char.
Proof. vm_compute. repeat split; reflexivity. Qed.

(** C2: on a long alignment with short alignments to two other chromosomes
    nested in its query range, the clusterer's borders are contiguous from
    0 to the query length but the second one is reversed and the first and
    third overlap; the splitter's own check rejects them. *)
Theorem clusterer_borders_can_overlap :
  (cluster_contig_alns {[ 1%positive := nested_alns ]} "ctg"
     {[ "ctg" := 1%positive ]} ["chr1"; "chr2"; "chr3"] 0).2
  = Ok [(0, 10); (10, 2); (2, 10)]
  ∧ contiguous [(0, 10); (10, 2); (2, 10)]
  ∧ ¬ tiles 0 10 [(0, 10); (10, 2); (2, 10)]
  ∧ (break_contig
       {[ "ctg" := ["A"; "C"; "G"; "T"; "A"; "C"; "G"; "T"; "A"; "C"]%char ]}
       "ctg" [(0, 10); (10, 2); (2, 10)]).2 = Raise AssertionError.
Proof.
  split; [by vm_compute|]. split; [by simpl|]. split; [simpl; lia|].
  by vm_compute.
Qed.



Lemma avoid_gff_intervals_avoids_witness :
  [(0, 10); (10, 20)] ≠ ([] : list interval)
  ∧ Forall (fun f => start f <= end_ f) [sample_feature 5 15]
  ∧ (∀ b f, last [(0, 10); (10, 20)] = Some b → f ∈ [sample_feature 5 15] →
       end_ f <= b.2)
  ∧ Nat.le (fuel_for [(0, 10); (10, 20)] [sample_feature 5 15]) 16
  ∧ ∃ new_borders,
      avoid_gff_intervals 16 [(0, 10); (10, 20)] [sample_feature 5 15]
      = Some (Ok new_borders)
      ∧ length new_borders = 2%nat
      ∧ ∀ b f, b ∈ new_borders → f ∈ [sample_feature 5 15] →
          ¬ (start f < b.1 < end_ f) ∧ ¬ (start f < b.2 < end_ f).
Proof.
  assert ([(0, 10); (10, 20)] ≠ ([] : list interval)) as H1 by discriminate.
  assert (Forall (fun f => start f <= end_ f) [sample_feature 5 15]) as H2
    by (repeat constructor; simpl; lia).
  assert (∀ b f, last [(0, 10); (10, 20)] = Some b →
            f ∈ [sample_feature 5 15] → end_ f <= b.2) as Hin.
  { intros b f [= <-] ->%list_elem_of_singleton. simpl. lia. }
  assert (Nat.le (fuel_for [(0, 10); (10, 20)] [sample_feature 5 15]) 16)
    as H3 by (vm_compute; lia).
  split; [exact H1|]. split; [exact H2|]. split; [exact Hin|].
  split; [exact H3|].
  destruct (avoid_gff_intervals_avoids 16 [(0, 10); (10, 20)]
              [sample_feature 5 15] H1 H2 Hin H3)
    as (nb & Hnb & Hlen & Hout & _).
  exists nb. split; [exact Hnb|]. split; [exact Hlen|exact Hout].
Defined.

(** That the features end within the contig is needed: the end of the
    last border is put back where it was, without a look at the features,
    so a feature that runs past it keeps it strictly inside. *)
Lemma avoid_gff_intervals_restores_last_end :
  avoid_gff_intervals 16 [(0, 10)] [sample_feature 5 15]
  = Some (Ok [(0, 10)])
  ∧ start (sample_feature 5 15) < 10 < end_ (sample_feature 5 15).
Proof. split; [by vm_compute|simpl; lia]. Qed.

Lemma get_intra_contigs_rules_witness :
  ({[ 1%positive := gap_alns ]} : gmap loc ContigAlignment) !! 1%positive
  = Some gap_alns
  ∧ wf_alns gap_alns
  ∧ best_ref_chrom gap_alns = Ok "chr1"
  ∧ ref_headers (filter_lengths 0 (filter_ref_chroms ["chr1"] gap_alns)) ≠ []
  ∧ longest_strand (filter_lengths 0 (filter_ref_chroms ["chr1"] gap_alns))
    = Ok Plus
  ∧ (get_intra_contigs best_ref_chrom longest_strand
       {[ 1%positive := gap_alns ]} 1%positive 0 1000 1000).2
    = Ok (Some ("ctg", [(0, 500); (500, 1010)])).
Proof.
  assert (wf_alns gap_alns) as Hwf by (repeat split; reflexivity).
  assert (ref_headers (filter_lengths 0 (filter_ref_chroms ["chr1"] gap_alns))
          ≠ []) as Hne by (vm_compute; discriminate).
  assert (({[ 1%positive := gap_alns ]} : gmap loc ContigAlignment)
            !! 1%positive = Some gap_alns) as Ha by reflexivity.
  assert (best_ref_chrom gap_alns = Ok "chr1") as Hu by reflexivity.
  assert (longest_strand
            (filter_lengths 0 (filter_ref_chroms ["chr1"] gap_alns))
          = Ok Plus) as Hl by reflexivity.
  split; [exact Ha|]. split; [exact Hwf|]. split; [exact Hu|].
  split; [exact Hne|]. split; [exact Hl|].
  destruct (proj1 (proj2 (get_intra_contigs_rules best_ref_chrom
                            longest_strand
                            {[ 1%positive := gap_alns ]} 1%positive gap_alns
                            "chr1" Plus 0 1000 1000 Ha Hwf Hu Hne Hl)))
    as (k & g & s & e & Hk & _ & _ & Hs & He & ->).
  { apply Exists_cons_hd. vm_compute. reflexivity. }
  destruct k as [|[|k]]; vm_compute in Hk; try discriminate.
  vm_compute in Hs, He. injection Hs as <-. injection He as <-.
  reflexivity.
Defined.


Lemma get_ref_parts_zero_total_witness :
  collect_intervals zero_coverage_alns 0 (range 0 1) [] = Ok [("chr1", [(5, 5)])]
  ∧ sum (map (fun kv : string * list interval => covered_length kv.2)
           [("chr1", [(5, 5)])]) = 0
  ∧ get_ref_parts exact_pct_exceeds zero_coverage_alns 0 50 1000
    = Raise ZeroDivisionError.
Proof.
  assert (collect_intervals zero_coverage_alns 0 (range 0 1) []
          = Ok [("chr1", [(5, 5)])]) as Hc by reflexivity.
  assert (sum (map (fun kv : string * list interval => covered_length kv.2)
                 [("chr1", [(5, 5)])]) = 0) as Hz by reflexivity.
  split; [exact Hc|]. split; [exact Hz|].
  exact (get_ref_parts_zero_total exact_pct_exceeds zero_coverage_alns
           0 50 1000 [("chr1", [(5, 5)])] Hc Hz).
Defined.

(** C8, as first stated, fails: with a total covered length of zero the
    scorer stops on the arithmetic fault itself. *)
Lemma get_ref_parts_divides_by_zero :
  sum (map (fun kv : string * list interval => covered_length kv.2)
         [("chr1", [(5, 5)])]) = 0
  ∧ get_ref_parts exact_pct_exceeds zero_coverage_alns 0 10 5
    = Raise ZeroDivisionError.
Proof. split; reflexivity. Qed.

Lemma degenerate_inputs_witness :
  ({[ "ctg" := 1%positive ]} : gmap string loc) !! "ctg" = Some 1%positive
  ∧ ({[ 1%positive := zero_coverage_alns ]} : gmap loc ContigAlignment)
      !! 1%positive = Some zero_coverage_alns
  ∧ wf_alns zero_coverage_alns
  ∧ ref_headers zero_coverage_alns = ["chr1"]
  ∧ (cluster_contig_alns {[ 1%positive := zero_coverage_alns ]} "ctg"
       {[ "ctg" := 1%positive ]} ["chr1"] 0).2
    = Ok [(0, 10)]
  ∧ (cluster_contig_alns {[ 1%positive := zero_coverage_alns ]} "ctg"
       {[ "ctg" := 1%positive ]} ["chr2"] 0).2
    = Raise IndexError.
Proof.
  assert (wf_alns zero_coverage_alns) as Hwf by (repeat split; reflexivity).
  assert (({[ "ctg" := 1%positive ]} : gmap string loc) !! "ctg"
          = Some 1%positive) as Hc by reflexivity.
  assert (({[ 1%positive := zero_coverage_alns ]}
             : gmap loc ContigAlignment) !! 1%positive
          = Some zero_coverage_alns) as Hx by reflexivity.
  assert (ref_headers zero_coverage_alns = ["chr1"]) as Hh by reflexivity.
  split; [exact Hc|]. split; [exact Hx|]. split; [exact Hwf|].
  split; [exact Hh|]. split.
  - exact (proj1 (degenerate_inputs best_ref_chrom longest_strand)
             {[ 1%positive := zero_coverage_alns ]} "ctg"
             {[ "ctg" := 1%positive ]} ["chr1"] 0 1%positive
             zero_coverage_alns "chr1" Hc Hx Hwf Hh).
  - exact (proj1 (degenerate_inputs best_ref_chrom longest_strand)
             {[ 1%positive := zero_coverage_alns ]} "ctg"
             {[ "ctg" := 1%positive ]} ["chr2"] 0 1%positive
             zero_coverage_alns "chr1" Hc Hx Hwf Hh).
Defined.

(** C9, as first stated, fails: on a collection with no alignment the
    clusterer raises instead of yielding the whole-contig interval. *)
Lemma cluster_contig_alns_empty_raises :
  (cluster_contig_alns {[ 1%positive := no_alns ]} "ctg"
     {[ "ctg" := 1%positive ]} ["chr1"] 0).2
  = Raise IndexError.
Proof. reflexivity. Qed.

(** * Further properties *)

(** ** Breakpoint adjuster: where the borders go *)

Lemma nearest_free_unique gff_ins p q q' :
  nearest_free gff_ins p q → nearest_free gff_ins p q' → q = q'.
Proof.
  intros (H1 & H2 & H3) (H1' & H2' & H3').
  destruct (Z.lt_trichotomy q q') as [Hlt|[->|Hlt]]; [|done|].
  - destruct (H3' q); [lia|done].
  - destruct (H3 q'); [lia|done].
Qed.

Lemma nearest_free_mono gff_ins p p' q q' :
  p <= p' → nearest_free gff_ins p q → nearest_free gff_ins p' q' → q <= q'.
Proof.
  intros Hp (H1 & H2 & H3) (H1' & H2' & H3').
  destruct (Z_le_gt_dec q q') as [|Hgt]; [done|].
  destruct (H3 q'); [lia|done].
Qed.

Lemma nearest_free_here gff_ins p q :
  free gff_ins p → nearest_free gff_ins p q → q = p.
Proof.
  intros Hp (H1 & H2 & H3).
  destruct (Z_le_gt_dec q p) as [|Hgt]; [lia|].
  destruct (H3 p); [lia|done].
Qed.

Lemma nearest_free_below gff_ins p q top :
  p <= top → free gff_ins top → nearest_free gff_ins p q → q <= top.
Proof.
  intros Hp Htop (H1 & H2 & H3).
  destruct (Z_le_gt_dec q top) as [|Hgt]; [done|].
  destruct (H3 top); [lia|done].
Qed.

Lemma feature_tree_free gff_ins t :
  Forall (fun f => start f <= end_ f) gff_ins →
  feature_tree gff_ins [] = Ok t →
  ∀ p, tree_at t p = [] ↔ free gff_ins p.
Proof.
  intros Hwf Ht p.
  destruct (feature_tree_elem gff_ins [] Hwf) as (t' & Ht' & Hq).
  rewrite Ht in Ht'. injection Ht' as <-.
  rewrite tree_at_nil. unfold free. split.
  - intros Hall f Hf Hp.
    apply (Hall (start f, end_ f, (start f, end_ f))); [|done].
    apply Hq. right. exists f. split; [done|]. split; [lia|done].
  - intros Hfree q Hin Hp.
    apply Hq in Hin as [Hin|(f & Hf & _ & ->)]; [by inversion Hin|].
    by apply (Hfree f Hf).
Qed.

(** What a probe returns, whatever the fuel. *)
Lemma probe_Some t : ∀ fuel p q,
  probe fuel t p = Some q →
  p <= q ∧ tree_at t q = [] ∧ ∀ x, p <= x < q → tree_at t x ≠ [].
Proof.
  induction fuel as [|fuel IH]; intros p q Hq; [done|].
  simpl in Hq. destruct (tree_at t p) as [|i l] eqn:Hat.
  - injection Hq as <-. repeat split; [lia|done|intros; lia].
  - apply IH in Hq as (Hle & Hnil & Hbetween).
    repeat split; [lia|done|].
    intros x Hx. destruct (decide (x = p)) as [->|Hne].
    + by rewrite Hat.
    + apply Hbetween. lia.
Qed.

Lemma adjust_Some t fuel : ∀ borders new_borders,
  adjust fuel t borders = Some new_borders →
  Forall2 (fun b b' => probe fuel t b.1 = Some b'.1
                       ∧ probe fuel t b.2 = Some b'.2)
    borders new_borders.
Proof.
  induction borders as [|b borders IH]; intros nb Hnb; simpl in Hnb.
  - injection Hnb as <-. constructor.
  - destruct (probe fuel t b.1) as [s|] eqn:Hs; [|done].
    destruct (probe fuel t b.2) as [e|] eqn:He; [|done].
    destruct (adjust fuel t borders) as [rest|] eqn:Hr; [|done].
    simpl in Hnb. injection Hnb as <-. constructor; [done|by apply IH].
Qed.

Lemma with_last_end_snoc borders b e :
  with_last_end (borders ++ [b]) e = borders ++ [(b.1, e)].
Proof.
  induction borders as [|b0 borders IH]; [done|].
  simpl. rewrite IH. by destruct (borders ++ [b]) eqn:?, borders.
Qed.

(** The adjuster's answer: every coordinate goes to the nearest free
    position at or after it, and the last end is then put back. *)
Lemma avoid_gff_intervals_result fuel borders gff_ins :
  borders ≠ [] →
  Forall (fun f => start f <= end_ f) gff_ins →
  (fuel_for borders gff_ins <= fuel)%nat →
  ∃ moved last_old,
    last borders = Some last_old
    ∧ Forall2 (fun b b' => nearest_free gff_ins b.1 b'.1
                           ∧ nearest_free gff_ins b.2 b'.2) borders moved
    ∧ avoid_gff_intervals fuel borders gff_ins
      = Some (Ok (with_last_end moved last_old.2)).
Proof.
  intros Hne Hwf Hfuel. unfold avoid_gff_intervals.
  destruct (feature_tree_elem gff_ins [] Hwf) as (t & Ht & Hq).
  pose proof (feature_tree_free gff_ins t Hwf Ht) as Hfree.
  rewrite Ht.
  destruct (adjust_finds t fuel borders) as (nb & Hnb & Hle & _).
  { unfold fuel_for in Hfuel. lia. }
  { intros q b Hin Hb. apply Hq in Hin as [Hin|(f & Hf & _ & ->)];
      [by inversion Hin|].
    pose proof (fuel_for_enough borders gff_ins f b Hf Hb). simpl. lia. }
  rewrite Hnb. pose proof (Forall2_length _ _ _ Hle) as Hlen.
  apply adjust_Some in Hnb.
  assert (Forall2 (fun b b' => nearest_free gff_ins b.1 b'.1
                               ∧ nearest_free gff_ins b.2 b'.2)
            borders nb) as Hnear.
  { eapply Forall2_impl; [exact Hnb|]. intros b b' [H1 H2].
    apply probe_Some in H1 as (? & ? & H1). apply probe_Some in H2 as (? & ? & H2).
    split; (split; [done|]; split; [by apply Hfree|]);
      intros x Hx Hx'%Hfree; [by apply (H1 x)|by apply (H2 x)]. }
  destruct (exists_last Hne) as (bs & last_old & ->).
  destruct nb as [|n0 nbs _] using rev_ind;
    [rewrite length_app in Hlen; simpl in Hlen; lia|].
  exists (nbs ++ [n0]), last_old. split; [by rewrite last_snoc|].
  split; [done|]. cbn [mbind option_bind].
  rewrite !getitem_last. cbn [mbind result_bind].
  by rewrite slice_init, with_last_end_snoc.
Qed.

Lemma avoid_gff_intervals_snoc fuel borders gff_ins :
  borders ≠ [] →
  Forall (fun f => start f <= end_ f) gff_ins →
  (fuel_for borders gff_ins <= fuel)%nat →
  ∃ bs last_old moved last_new,
    borders = bs ++ [last_old]
    ∧ Forall2 (fun b b' => nearest_free gff_ins b.1 b'.1
                           ∧ nearest_free gff_ins b.2 b'.2) bs moved
    ∧ nearest_free gff_ins last_old.1 last_new
    ∧ avoid_gff_intervals fuel borders gff_ins
      = Some (Ok (moved ++ [(last_new, last_old.2)])).
Proof.
  intros Hne Hwf Hfuel.
  destruct (avoid_gff_intervals_result fuel borders gff_ins Hne Hwf Hfuel)
    as (moved & last_old & Hlast & Hnear & Hout).
  destruct (exists_last Hne) as (bs & lo & ->).
  rewrite last_snoc in Hlast. injection Hlast as ->.
  apply Forall2_app_inv_l in Hnear as (nbs & nl & Hnbs & Hnl & ->).
  apply Forall2_cons_inv_l in Hnl as (ln & nil' & [Hl1 Hl2] & Hnil & ->).
  apply Forall2_nil_inv_l in Hnil as ->.
  exists bs, last_old, nbs, ln.1. rewrite with_last_end_snoc in Hout.
  done.
Qed.


Lemma contiguous_app_one l b :
  contiguous (l ++ [b])
  ↔ contiguous l ∧ ∀ b0, last l = Some b0 → b0.2 = b.1.
Proof.
  induction l as [|a [|a' l] IH]; simpl in *.
  - split; [done|]. done.
  - split.
    + intros [H _]. split; [done|]. by intros b0 [= <-].
    + intros [_ H]. split; [|done]. by apply H.
  - rewrite IH. split.
    + intros (H1 & H2 & H3). done.
    + intros ((H1 & H2) & H3). done.
Qed.

Lemma near_contiguous gff_ins l l' :
  Forall2 (fun b b' => nearest_free gff_ins b.1 b'.1
                       ∧ nearest_free gff_ins b.2 b'.2) l l' →
  contiguous l → contiguous l'.
Proof.
  induction 1 as [|b b' l l' [H1 H2] Hrest IH]; [done|].
  destruct Hrest as [|c c' l l' [H1' H2'] Hrest]; [done|].
  simpl. intros [Hbc Hc]. split; [|by apply IH].
  eapply nearest_free_unique; [exact H2|]. by rewrite Hbc.
Qed.

(** X2: borders that are contiguous going in are contiguous coming out:
    an end and the start that follows it, being one position, move to one
    position. *)
Theorem avoid_gff_intervals_keeps_contiguity fuel borders gff_ins :
  borders ≠ [] →
  Forall (fun f => start f <= end_ f) gff_ins →
  (fuel_for borders gff_ins <= fuel)%nat →
  contiguous borders →
  ∃ new_borders,
    avoid_gff_intervals fuel borders gff_ins = Some (Ok new_borders)
    ∧ contiguous new_borders.
Proof.
  intros Hne Hwf Hfuel Hc.
  destruct (avoid_gff_intervals_snoc fuel borders gff_ins Hne Hwf Hfuel)
    as (bs & lo & moved & ln & -> & Hnear & Hlast & ->).
  eexists. split; [done|].
  apply contiguous_app_one in Hc as [Hbs Hlo].
  apply contiguous_app_one. split; [by eapply near_contiguous|].
  intros n0 Hn0. simpl.
  destruct bs as [|b0 bs _] using rev_ind.
  { apply Forall2_nil_inv_l in Hnear as ->. done. }
  apply Forall2_app_inv_l in Hnear as (m1 & m2 & _ & Hm2 & ->).
  apply Forall2_cons_inv_l in Hm2 as (n1 & nil' & [_ H2] & Hnil & ->).
  apply Forall2_nil_inv_l in Hnil as ->.
  rewrite last_snoc in Hn0. injection Hn0 as <-.
  eapply nearest_free_unique; [exact H2|].
  rewrite (Hlo b0) by by rewrite last_snoc. done.
Qed.

Lemma tiles_app_one from to l b :
  tiles from to (l ++ [b])
  ↔ ∃ mid, tiles from mid l ∧ b.1 = mid ∧ b.1 <= b.2 ∧ b.2 = to.
Proof.
  revert from. induction l as [|a l IH]; intros from; simpl.
  - split.
    + intros (H1 & H2 & H3). exists from. done.
    + intros (mid & <- & H1 & H2 & H3). done.
  - rewrite IH. split.
    + intros (H1 & H2 & mid & H3). exists mid. tauto.
    + intros (mid & (H1 & H2 & H3) & H4). split; [done|]. split; [done|].
      by exists mid.
Qed.

Lemma near_tiles gff_ins l l' :
  Forall2 (fun b b' => nearest_free gff_ins b.1 b'.1
                       ∧ nearest_free gff_ins b.2 b'.2) l l' →
  ∀ from mid from',
    tiles from mid l → nearest_free gff_ins from from' →
    ∃ mid', tiles from' mid' l' ∧ nearest_free gff_ins mid mid'.
Proof.
  induction 1 as [|b b' l l' [H1 H2] Hrest IH]; intros from mid from' Ht Hf.
  - simpl in Ht. subst mid. by exists from'.
  - destruct Ht as (Hb & Hle & Ht).
    destruct (IH b.2 mid b'.2 Ht H2) as (mid' & Ht' & Hmid).
    exists mid'. split; [|done]. simpl. split; [|split; [|done]].
    + rewrite Hb in H1. by eapply nearest_free_unique.
    + by eapply nearest_free_mono.
Qed.

(** X3: when the borders tile the contig, no feature covers position 0
    and every feature ends within the contig, the adjusted borders tile
    the contig as well, so the splitter's check passes on them. *)
Theorem avoid_gff_intervals_keeps_tiling fuel borders gff_ins
    (contigs_dict : gmap string (list ascii)) header seq :
  borders ≠ [] →
  Forall (fun f => start f <= end_ f <= Z.of_nat (length seq)) gff_ins →
  (fuel_for borders gff_ins <= fuel)%nat →
  tiles 0 (Z.of_nat (length seq)) borders →
  free gff_ins 0 →
  contigs_dict !! header = Some seq →
  ∃ new_borders,
    avoid_gff_intervals fuel borders gff_ins = Some (Ok new_borders)
    ∧ tiles 0 (Z.of_nat (length seq)) new_borders
    ∧ (break_contig contigs_dict header new_borders).2 = Ok ().
Proof.
  intros Hne Hwf Hfuel Ht H0 Hh.
  assert (Forall (fun f => start f <= end_ f) gff_ins) as Hwf'.
  { eapply Forall_impl; [exact Hwf|]. simpl. intros; lia. }
  assert (free gff_ins (Z.of_nat (length seq))) as Htop.
  { intros f Hf Hp. rewrite Forall_forall in Hwf. specialize (Hwf f Hf).
    simpl in Hwf. lia. }
  destruct (avoid_gff_intervals_snoc fuel borders gff_ins Hne Hwf' Hfuel)
    as (bs & lo & moved & ln & -> & Hnear & Hlast & ->).
  apply tiles_app_one in Ht as (mid & Hbs & Hlo1 & Hlo2 & Hlo3).
  destruct (near_tiles gff_ins bs moved Hnear 0 mid 0 Hbs)
    as (mid' & Hmoved & Hmid).
  { split; [lia|]. split; [done|]. intros; lia. }
  assert (tiles 0 (Z.of_nat (length seq)) (moved ++ [(ln, lo.2)])) as Hout.
  { apply tiles_app_one. exists mid'. split; [done|]. simpl.
    rewrite Hlo1 in Hlast. split; [by eapply nearest_free_unique|].
    split; [|done]. rewrite Hlo3.
    eapply nearest_free_below; [|exact Htop|exact Hlast]. lia. }
  eexists. split; [done|]. split; [done|].
  rewrite (break_contig_outcome contigs_dict header seq _ Hh). cbn [snd].
  rewrite decide_True; [done|].
  rewrite (pieces_tile seq _ 0 (Z.of_nat (length seq)));
    [apply slice_all|lia|lia|done].
Qed.

Lemma near_free_same gff_ins l l' :
  Forall2 (fun b b' => nearest_free gff_ins b.1 b'.1
                       ∧ nearest_free gff_ins b.2 b'.2) l l' →
  Forall (fun b => free gff_ins b.1 ∧ free gff_ins b.2) l → l' = l.
Proof.
  induction 1 as [|b b' l l' [H1 H2] Hrest IH]; [done|].
  intros [[F1 F2] Hl]%Forall_cons. rewrite IH by done. f_equal.
  apply (nearest_free_here _ _ _ F1) in H1.
  apply (nearest_free_here _ _ _ F2) in H2.
  destruct b, b'; simpl in *; by subst.
Qed.

Lemma near_free gff_ins l l' :
  Forall2 (fun b b' => nearest_free gff_ins b.1 b'.1
                       ∧ nearest_free gff_ins b.2 b'.2) l l' →
  Forall (fun b => free gff_ins b.1 ∧ free gff_ins b.2) l'.
Proof.
  induction 1 as [|b b' l l' [(_ & H1 & _) (_ & H2 & _)] Hrest IH];
    constructor; done.
Qed.

(** X4: borders whose starts, and whose ends but the last, lie in no
    feature come back as they went in; so do all borders when there is no
    feature, or none of non-zero length. *)
Theorem avoid_gff_intervals_leaves_free_borders fuel borders gff_ins :
  borders ≠ [] →
  Forall (fun f => start f <= end_ f) gff_ins →
  (fuel_for borders gff_ins <= fuel)%nat →
  (∀ (k : nat) b, borders !! k = Some b →
     free gff_ins b.1 ∧ ((S k < length borders)%nat → free gff_ins b.2)) →
  avoid_gff_intervals fuel borders gff_ins = Some (Ok borders).
Proof.
  intros Hne Hwf Hfuel Hfree.
  destruct (avoid_gff_intervals_snoc fuel borders gff_ins Hne Hwf Hfuel)
    as (bs & lo & moved & ln & -> & Hnear & Hlast & ->).
  assert (Forall (fun b => free gff_ins b.1 ∧ free gff_ins b.2) bs) as Hbs.
  { apply Forall_lookup. intros k b Hb.
    pose proof (lookup_lt_Some _ _ _ Hb) as Hlt.
    destruct (Hfree k b) as [H1 H2]; [by apply lookup_app_l_Some|].
    split; [done|]. apply H2. rewrite length_app. simpl.
    unfold interval in *. lia. }
  rewrite (near_free_same _ _ _ Hnear Hbs).
  destruct (Hfree (length bs) lo) as [H1 _]; [by apply list_lookup_middle|].
  rewrite (nearest_free_here _ _ _ H1 Hlast). by destruct lo.
Qed.

Lemma fold_min_le (l l' : list Z) :
  Forall2 Z.le l l' → fold_right Z.min 0 l <= fold_right Z.min 0 l'.
Proof. induction 1; simpl; lia. Qed.

Lemma fuel_for_moved borders borders' gff_ins :
  Forall2 (fun b b' : interval => b.1 <= b'.1 ∧ b.2 <= b'.2)
    borders borders' →
  (fuel_for borders' gff_ins <= fuel_for borders gff_ins)%nat.
Proof.
  intros H. unfold fuel_for.
  assert (fold_right Z.min 0 (map fst borders ++ map snd borders)
          <= fold_right Z.min 0 (map fst borders' ++ map snd borders')).
  { apply fold_min_le, Forall2_app; apply Forall2_fmap;
      (eapply Forall2_impl; [exact H|]); simpl; intros; lia. }
  lia.
Qed.

(** X5: adjusting borders that have been adjusted changes nothing. *)
Theorem avoid_gff_intervals_idempotent fuel borders gff_ins :
  borders ≠ [] →
  Forall (fun f => start f <= end_ f) gff_ins →
  (fuel_for borders gff_ins <= fuel)%nat →
  ∃ new_borders,
    avoid_gff_intervals fuel borders gff_ins = Some (Ok new_borders)
    ∧ avoid_gff_intervals fuel new_borders gff_ins = Some (Ok new_borders).
Proof.
  intros Hne Hwf Hfuel.
  destruct (avoid_gff_intervals_snoc fuel borders gff_ins Hne Hwf Hfuel)
    as (bs & lo & moved & ln & -> & Hnear & Hlast & ->).
  eexists. split; [done|].
  assert (moved ++ [(ln, lo.2)] ≠ []) as Hne' by by destruct moved.
  assert (fuel_for (moved ++ [(ln, lo.2)]) gff_ins <= fuel)%nat as Hfuel'.
  { etrans; [|exact Hfuel]. apply fuel_for_moved, Forall2_app.
    - eapply Forall2_impl; [exact Hnear|].
      intros b b' [(? & _) (? & _)]. done.
    - constructor; [|constructor]. simpl. destruct Hlast. lia. }
  destruct (avoid_gff_intervals_snoc fuel _ gff_ins Hne' Hwf Hfuel')
    as (bs2 & lo2 & moved2 & ln2 & Heq & Hnear2 & Hlast2 & ->).
  apply app_inj_tail in Heq as [<- <-]. simpl in *.
  rewrite (near_free_same _ _ _ Hnear2 (near_free _ _ _ Hnear)).
  destruct Hlast as (_ & Hln & _).
  by rewrite (nearest_free_here _ _ _ Hln Hlast2).
Qed.

Lemma feature_tree_reversed gff_ins : ∀ t,
  Forall (fun q : Interval => q.1.1 < q.1.2) t →
  Exists (fun f => end_ f < start f) gff_ins →
  feature_tree gff_ins t = Raise ValueError.
Proof.
  induction gff_ins as [|f gff_ins IH]; intros t Ht Hex;
    [by inversion Hex|].
  simpl. destruct (start f =? end_ f) eqn:Heq.
  - apply Z.eqb_eq in Heq. apply IH; [done|].
    apply Exists_cons in Hex as [Hf|Hex]; [lia|done].
  - apply Z.eqb_neq in Heq. unfold tree_add. case_bool_decide as Hin.
    + cbn [mbind result_bind]. apply IH; [done|].
      apply Exists_cons in Hex as [Hf|Hex]; [|done].
      rewrite Forall_forall in Ht. specialize (Ht _ Hin). simpl in Ht. lia.
    + destruct (end_ f <=? start f) eqn:Hle; [done|].
      apply Z.leb_gt in Hle. cbn [mbind result_bind]. apply IH.
      * apply Forall_app. split; [done|]. by constructor.
      * apply Exists_cons in Hex as [Hf|Hex]; [lia|done].
Qed.

(** X6: the adjuster's two errors. A feature whose end lies before its
    start makes it raise [ValueError], whatever the borders; with sound
    features, an empty border list makes it raise [IndexError]. Neither
    needs fuel. *)
Theorem avoid_gff_intervals_errors fuel borders gff_ins :
  (Exists (fun f => end_ f < start f) gff_ins →
   avoid_gff_intervals fuel borders gff_ins = Some (Raise ValueError))
  ∧ (Forall (fun f => start f <= end_ f) gff_ins → borders = [] →
     avoid_gff_intervals fuel borders gff_ins = Some (Raise IndexError)).
Proof.
  split.
  - intros Hex. unfold avoid_gff_intervals.
    by rewrite feature_tree_reversed by (done || constructor).
  - intros Hwf ->. unfold avoid_gff_intervals.
    by destruct (feature_tree_elem gff_ins [] Hwf) as (t & -> & _).
Qed.

(** ** Feature remapper: what it touches and when it stops *)

Lemma getitem_elem {A} (l : list A) i x : getitem l i = Ok x → x ∈ l.
Proof.
  unfold getitem. destruct (_ && _); [|done].
  destruct (l !! _) as [y|] eqn:Hy; [|done]. intros [= <-].
  by eapply list_elem_of_lookup_2.
Qed.

Lemma remap_frame contig borders t contig_feats : ∀ features k,
  (∀ b, b ∈ borders → k ≠ broken_name contig b) →
  (remap contig borders t contig_feats features).1 !! k = features !! k.
Proof.
  induction contig_feats as [|i feats IH]; intros features k Hk; [done|].
  cbn [remap]. destruct (tree_at t (start i)) as [|q [|q' l]]; [done| |done].
  destruct (index borders (q.1.1, q.1.2)) as [n|] eqn:Hn; [|done].
  cbn [mbind result_bind].
  destruct (getitem borders n) as [b|] eqn:Hb; [|done].
  destruct (features !! broken_name contig b) as [fs|]; [|done].
  rewrite IH by done. apply lookup_insert_ne, not_eq_sym, Hk.
  by eapply getitem_elem.
Qed.

Lemma initial_lists_other contig borders (features : gmap string (list feature)) k :
  (∀ b, b ∈ borders → k ≠ broken_name contig b) →
  fold_left (fun m b => <[broken_name contig b := []]> m) borders features
    !! k = features !! k.
Proof.
  intros Hk.
  by apply (fold_insert_other (broken_name contig) (fun _ => [])).
Qed.

(** X7: [update_gff] on a contig without an entry raises [KeyError] and
    leaves the dictionary as it was; whatever it returns or raises, the
    entries of the other contigs, those named neither as the contig nor
    as one of its pieces, are untouched. *)
Theorem update_gff_frame features borders contig :
  (features !! contig = None →
   update_gff features borders contig = (features, Raise KeyError))
  ∧ (∀ k, k ≠ contig →
          (∀ b, b ∈ borders → k ≠ broken_name contig b) →
          (update_gff features borders contig).1 !! k = features !! k).
Proof.
  split.
  - intros Hc. unfold update_gff. by rewrite Hc.
  - intros k Hk Hpieces. unfold update_gff.
    destruct (features !! contig) as [contig_feats|]; [|done].
    destruct (border_tree borders []) as [t|e]; cbn [fst].
    + rewrite remap_frame, initial_lists_other by done.
      by apply lookup_delete_ne.
    + rewrite initial_lists_other by done. by apply lookup_delete_ne.
Qed.

Lemma border_tree_reversed borders : ∀ t,
  Forall (fun q : Interval => q.1.1 < q.1.2) t →
  Exists (fun b : interval => b.2 <= b.1) borders →
  border_tree borders t = Raise ValueError.
Proof.
  induction borders as [|b borders IH]; intros t Ht Hex;
    [by inversion Hex|].
  simpl. unfold tree_add. case_bool_decide as Hin.
  - cbn [mbind result_bind]. apply IH; [done|].
    apply Exists_cons in Hex as [Hb|Hex]; [|done].
    rewrite Forall_forall in Ht. specialize (Ht _ Hin). simpl in Ht. lia.
  - destruct (b.2 <=? b.1) eqn:Hle; [done|].
    apply Z.leb_gt in Hle. cbn [mbind result_bind]. apply IH.
    + apply Forall_app. split; [done|]. by constructor.
    + apply Exists_cons in Hex as [Hb|Hex]; [lia|done].
Qed.

(** X8: a border that is empty or reversed makes [update_gff] raise
    [ValueError]; by then the contig's entry is gone and the list of every
    piece is there, empty: no feature has been placed. *)
Theorem update_gff_rejects_empty_border features borders contig
    contig_feats :
  features !! contig = Some contig_feats →
  Exists (fun b : interval => b.2 <= b.1) borders →
  let out := update_gff features borders contig in
  out.2 = Raise ValueError
  ∧ out.1 !! contig = None
  ∧ ∀ b, b ∈ borders → out.1 !! broken_name contig b = Some [].
Proof.
  intros Hc Hex out. subst out. unfold update_gff. rewrite Hc.
  rewrite border_tree_reversed by (done || constructor). cbn [fst snd].
  split; [done|]. split.
  - rewrite initial_lists_other
      by (intros b _; apply not_eq_sym, broken_name_fresh).
    apply lookup_delete_eq.
  - intros b Hb.
    by apply (fold_insert_same (broken_name contig) (fun _ => [])).
Qed.

Lemma tiles_starts from to borders b :
  tiles from to borders → b ∈ borders → from <= b.1 ∧ b.1 <= b.2 ∧ b.2 <= to.
Proof.
  revert from. induction borders as [|a borders IH]; intros from Ht Hb;
    [by inversion Hb|].
  destruct Ht as (Ha & Hle & Ht). pose proof (tiles_le _ _ _ Ht).
  apply elem_of_cons in Hb as [->|Hb]; [lia|].
  specialize (IH _ Ht Hb). lia.
Qed.

(** In a tiling by non-empty borders, every position of the range lies
    in one border and no more. *)
Lemma tiles_unique_border from to borders p :
  tiles from to borders → Forall (fun b : interval => b.1 < b.2) borders →
  from <= p < to → ∃ b, unique_border borders p b.
Proof.
  revert from. induction borders as [|a borders IH]; intros from Ht Hne Hp.
  - simpl in Ht. lia.
  - destruct Ht as (Ha & Hle & Ht). apply Forall_cons in Hne as [Hane Hne].
    destruct (Z_lt_le_dec p a.2) as [Hin|Hout].
    + exists a. split; [left|]. split; [lia|].
      intros b' Hb' Hp'. apply elem_of_cons in Hb' as [->|Hb']; [done|].
      pose proof (tiles_starts _ _ _ _ Ht Hb'). lia.
    + destruct (IH a.2 Ht Hne) as (b & Hb & Hpb & Huniq); [lia|].
      exists b. split; [by right|]. split; [done|].
      intros b' Hb' Hp'. apply elem_of_cons in Hb' as [->|Hb']; [lia|].
      by apply Huniq.
Qed.

Lemma update_gff_unfold features borders contig contig_feats :
  features !! contig = Some contig_feats →
  Forall (fun b : interval => b.1 < b.2) borders →
  ∃ t, NoDup t
       ∧ (∀ q, q ∈ t ↔ ∃ b, b ∈ borders ∧ q = (b.1, b.2, b))
       ∧ update_gff features borders contig
         = remap contig borders t contig_feats
             (fold_left (fun m b => <[broken_name contig b := []]> m)
                borders (delete contig features)).
Proof.
  intros Hc Hwf. unfold update_gff. rewrite Hc.
  destruct (border_tree_elem borders [] Hwf NoDup_nil_2)
    as (t & -> & Hnd & Ht).
  exists t. split; [done|]. split; [|done].
  intros q. rewrite Ht. split; [|by right].
  intros [Hq|?]; [by inversion Hq|done].
Qed.

(** X9: on borders that tile the contig in non-empty pieces,
    [update_gff] returns for every list of features that start inside
    the contig: no assertion fails. *)
Theorem update_gff_accepts_tiling features borders contig contig_feats len :
  features !! contig = Some contig_feats →
  tiles 0 len borders →
  Forall (fun b : interval => b.1 < b.2) borders →
  Forall (fun i => 0 <= start i < len) contig_feats →
  (update_gff features borders contig).2 = Ok ().
Proof.
  intros Hc Ht Hwf Hin.
  destruct (update_gff_unfold features borders contig contig_feats Hc Hwf)
    as (t & Hnd & Hel & ->).
  destruct (remap_ok contig borders t Hnd Hel contig_feats
              (fold_left (fun m b => <[broken_name contig b := []]> m)
                 borders (delete contig features)))
    as (features' & -> & _); [| |done].
  - intros b Hb. exists [].
    by apply (fold_insert_same (broken_name contig) (fun _ => [])).
  - eapply Forall_impl; [exact Hin|]. intros i Hi.
    by eapply tiles_unique_border.
Qed.

Lemma groups_cons (borders : list interval) (i : feature) contig_feats :
  concat (map (fun b : interval =>
                 filter (fun i => b.1 <= start i < b.2) (i :: contig_feats))
            borders)
  ≡ₚ replicate
       (length (filter (fun b : interval => b.1 <= start i < b.2) borders)) i
     ++ concat (map (fun b : interval =>
                       filter (fun i => b.1 <= start i < b.2) contig_feats)
                  borders).
Proof.
  induction borders as [|b borders IH]; [done|].
  cbn [map concat]. rewrite IH.
  destruct (decide (b.1 <= start i < b.2)) as [Hin|Hout].
  - rewrite !filter_cons_True by done. simpl.
    constructor. rewrite !app_assoc. apply Permutation_app_tail.
    apply Permutation_app_comm.
  - rewrite !filter_cons_False by done.
    rewrite !app_assoc. apply Permutation_app_tail.
    apply Permutation_app_comm.
Qed.

Lemma unique_border_once borders p b :
  NoDup borders → unique_border borders p b →
  filter (fun b : interval => b.1 <= p < b.2) borders = [b].
Proof.
  intros Hnd (Hb & Hp & Huniq).
  assert (b ∈ filter (fun b : interval => b.1 <= p < b.2) borders) as Hin
    by by apply list_elem_of_filter.
  assert (∀ b', b' ∈ filter (fun b : interval => b.1 <= p < b.2) borders →
                b' = b) as Hall.
  { intros b' [Hp' Hb']%list_elem_of_filter. by apply Huniq. }
  pose proof (NoDup_filter (fun b : interval => b.1 <= p < b.2) _ Hnd)
    as Hnd'.
  destruct (filter _ borders) as [|b1 [|b2 l]]; [by inversion Hin| |].
  - f_equal. apply Hall. left.
  - rewrite (Hall b1), (Hall b2) in Hnd' by (repeat constructor).
    apply NoDup_cons in Hnd' as [Hnd' _]. destruct Hnd'. left.
Qed.

Lemma groups_partition borders contig_feats :
  NoDup borders →
  Forall (fun i => ∃ b, unique_border borders (start i) b) contig_feats →
  concat (map (fun b : interval =>
                 filter (fun i => b.1 <= start i < b.2) contig_feats)
            borders) ≡ₚ contig_feats.
Proof.
  intros Hnd. induction 1 as [|i feats (b & Hb) Hall IH].
  - induction borders as [|b borders IH]; [done|].
    simpl. apply IH. by apply NoDup_cons in Hnd as [_ ?].
  - rewrite groups_cons, (unique_border_once _ _ b) by done. simpl.
    by constructor.
Qed.

(** X10: on distinct, non-empty borders, when [update_gff] returns, the
    lists of the pieces hold the features of the contig, each moved to
    its piece, with none lost and none repeated: taken in border order
    they are, before the move, a rearrangement of the contig's list. *)
Theorem update_gff_partitions features borders contig contig_feats :
  features !! contig = Some contig_feats →
  Forall (fun b : interval => b.1 < b.2) borders →
  NoDup borders →
  Forall (fun i => ∃ b, unique_border borders (start i) b) contig_feats →
  let out := update_gff features borders contig in
  ∃ groups,
    Forall2 (fun b g =>
               out.1 !! broken_name contig b = Some (relocate contig b <$> g))
      borders groups
    ∧ concat groups ≡ₚ contig_feats.
Proof.
  intros Hc Hwf Hnd Hall out. subst out.
  destruct (update_gff_unfold features borders contig contig_feats Hc Hwf)
    as (t & Hndt & Hel & ->).
  destruct (remap_ok contig borders t Hndt Hel contig_feats
              (fold_left (fun m b => <[broken_name contig b := []]> m)
                 borders (delete contig features)))
    as (features' & -> & Hin & _); [|done|].
  { intros b Hb. exists [].
    by apply (fold_insert_same (broken_name contig) (fun _ => [])). }
  exists (map (fun b : interval =>
                 filter (fun i => b.1 <= start i < b.2) contig_feats)
            borders).
  split; [|by apply groups_partition].
  apply Forall2_fmap_r, Forall_Forall2_diag, Forall_forall.
  intros b Hb. cbn [fst]. rewrite (Hin b Hb).
  by rewrite (fold_insert_same (broken_name contig) (fun _ => [])).
Qed.

(** ** Sequence splitter: what it touches, and the pieces' names and
    lengths *)

(** X11: [break_contig] on a contig without a sequence raises [KeyError]
    and leaves the dictionary as it was; whatever it returns or raises,
    the sequences of the other contigs, those named neither as the contig
    nor as one of its pieces, are untouched. *)
Theorem break_contig_frame (contigs_dict : gmap string (list ascii))
    header break_points :
  (contigs_dict !! header = None →
   break_contig contigs_dict header break_points
   = (contigs_dict, Raise KeyError))
  ∧ (∀ k, k ≠ header →
          (∀ b, b ∈ break_points → k ≠ broken_name header b) →
          (break_contig contigs_dict header break_points).1 !! k
          = contigs_dict !! k).
Proof.
  split.
  - intros Hh. unfold break_contig. by rewrite Hh.
  - intros k Hk Hpieces.
    destruct (contigs_dict !! header) as [seq|] eqn:Hh.
    + rewrite (break_contig_outcome contigs_dict header seq _ Hh).
      cbn [fst].
      rewrite (fold_insert_other (broken_name header)
                 (fun b => slice seq b.1 b.2)) by done.
      by apply lookup_delete_ne.
    + unfold break_contig. by rewrite Hh.
Qed.

(** X12: the names given to the pieces of one contig tell the borders
    apart, and none of them is the contig's own name: no piece is written
    over another piece, and none takes the place of the contig. *)
Theorem piece_names_distinct contig (b b' : interval) :
  (broken_name contig b = broken_name contig b' ↔ b = b')
  ∧ broken_name contig b ≠ contig.
Proof.
  split; [|apply broken_name_fresh].
  split; [apply broken_name_inj|by intros ->].
Qed.

Lemma length_slice_in_range {A} (l : list A) a b :
  0 <= a <= b → b <= Z.of_nat (length l) →
  Z.of_nat (length (slice l a b)) = b - a.
Proof.
  intros Ha Hb. rewrite slice_in_range by done.
  rewrite length_take, length_drop. lia.
Qed.

(** X13: on borders that tile the sequence, every piece written has the
    length its name announces, end minus start. *)
Theorem break_contig_piece_lengths (contigs_dict : gmap string (list ascii))
    header seq break_points :
  contigs_dict !! header = Some seq →
  tiles 0 (Z.of_nat (length seq)) break_points →
  ∀ b, b ∈ break_points →
    ∃ piece,
      (break_contig contigs_dict header break_points).1
        !! broken_name header b = Some piece
      ∧ Z.of_nat (length piece) = b.2 - b.1.
Proof.
  intros Hh Ht b Hb.
  rewrite (break_contig_outcome contigs_dict header seq _ Hh). cbn [fst].
  exists (slice seq b.1 b.2). split.
  - apply (fold_insert_same (broken_name header)
             (fun b => slice seq b.1 b.2)); [|done].
    by intros b' _ ->%broken_name_inj.
  - pose proof (tiles_starts _ _ _ _ Ht Hb).
    apply length_slice_in_range; lia.
Qed.

Lemma slice_clipped {A} (l : list A) a b :
  0 <= a → 0 <= b →
  slice l a b
  = slice l (Z.min a (Z.of_nat (length l))) (Z.min b (Z.of_nat (length l))).
Proof.
  intros Ha Hb. unfold slice, clip. set (n := Z.of_nat (length l)).
  rewrite (proj2 (Z.ltb_ge a 0)), (proj2 (Z.ltb_ge b 0)) by lia.
  rewrite (proj2 (Z.ltb_ge (Z.min a n) 0)) by lia.
  rewrite (proj2 (Z.ltb_ge (Z.min b n) 0)) by lia.
  replace (Z.min (Z.min a n) n) with (Z.min a n) by lia.
  by replace (Z.min (Z.min b n) n) with (Z.min b n) by lia.
Qed.

Lemma tiles_clipped n from to borders :
  tiles from to borders →
  tiles (Z.min from n) (Z.min to n)
    (map (fun b : interval => (Z.min b.1 n, Z.min b.2 n)) borders).
Proof.
  revert from. induction borders as [|b borders IH]; intros from; simpl.
  - by intros ->.
  - intros (<- & Hle & Ht). split; [done|]. split; [lia|]. by apply IH.
Qed.

(** X14: the splitter's check does not see a tiling that runs past the
    end of the sequence: Python clips the slices, so borders that tile
    [0, n) for some [n] at or above the sequence length rebuild the
    sequence and the call returns. *)
Theorem break_contig_accepts_overshoot
    (contigs_dict : gmap string (list ascii)) header seq break_points n :
  contigs_dict !! header = Some seq →
  Z.of_nat (length seq) <= n →
  tiles 0 n break_points →
  concat (pieces seq break_points) = seq
  ∧ (break_contig contigs_dict header break_points).2 = Ok ().
Proof.
  intros Hh Hn Ht.
  assert (concat (pieces seq break_points) = seq) as Hrebuilt.
  { assert (pieces seq break_points
            = pieces seq
                (map (fun b : interval =>
                        (Z.min b.1 (Z.of_nat (length seq)),
                         Z.min b.2 (Z.of_nat (length seq))))
                   break_points)) as ->.
    { unfold pieces. rewrite map_map. apply map_ext_in.
      intros b Hb%list_elem_of_In.
      pose proof (tiles_starts _ _ _ _ Ht Hb). simpl.
      apply slice_clipped; lia. }
    apply (tiles_clipped (Z.of_nat (length seq))) in Ht.
    rewrite (pieces_tile seq _ (Z.min 0 (Z.of_nat (length seq)))
               (Z.min n (Z.of_nat (length seq)))); [|lia|lia|exact Ht].
    rewrite Z.min_l, Z.min_r by lia. apply slice_all. }
  split; [done|].
  rewrite (break_contig_outcome contigs_dict header seq _ Hh). cbn [snd].
  by rewrite decide_True.
Qed.

(** ** Interchromosomal clusterer: the shape of its borders *)

Lemma cluster_contig_alns_result σ contig alns chroms l x a r0 e0 rest :
  alns !! contig = Some x → σ !! x = Some a → wf_alns a →
  by_query_start (filter_ref_chroms chroms a) = (r0, e0) :: rest →
  (cluster_contig_alns σ contig alns chroms l).2
  = Ok (consecutive
          (0 :: walk r0 e0 rest
           ++ [query_lens (filter_ref_chroms chroms a) !!! 0%nat])).
Proof.
  intros Hc Hx Hwf Hby.
  assert (wf_alns (filter_ref_chroms chroms a)) as Hwf'
    by by apply wf_filter_ref_chroms.
  unfold cluster_contig_alns. rewrite Hc, Hx. cbn [snd].
  apply clustered_walk; [done..|].
  apply list_lookup_lookup_total_lt. destruct Hwf' as [-> _].
  rewrite <- length_query_order.
  apply (f_equal length) in Hby. unfold by_query_start in Hby.
  rewrite length_map in Hby. simpl in Hby. lia.
Qed.

Lemma walk_length current_ref prev_end rest :
  (length (walk current_ref prev_end rest) <= length rest - 1)%nat.
Proof.
  revert current_ref prev_end.
  induction rest as [|cur rest IH]; intros current_ref prev_end; [done|].
  destruct rest as [|next rest]; [done|]. cbn [walk].
  destruct (decide _).
  - specialize (IH cur.1 cur.2). simpl in *. lia.
  - specialize (IH current_ref cur.2). simpl in *. lia.
Qed.

Lemma walk_elem current_ref prev_end rest x :
  x ∈ walk current_ref prev_end rest → x = prev_end ∨ x ∈ map snd rest.
Proof.
  revert current_ref prev_end.
  induction rest as [|cur rest IH]; intros current_ref prev_end Hx;
    [by inversion Hx|].
  destruct rest as [|next rest]; [by inversion Hx|]. cbn [walk] in Hx.
  destruct (decide _).
  - apply elem_of_cons in Hx as [->|Hx]; [by left|].
    right. apply IH in Hx as [->|Hx]; [left|by right].
  - right. apply IH in Hx as [->|Hx]; [left|by right].
Qed.

Lemma length_consecutive l : length (consecutive l) = (length l - 1)%nat.
Proof.
  induction l as [|a [|b l] IH]; [done..|].
  change (consecutive (a :: b :: l)) with ((a, b) :: consecutive (b :: l)).
  simpl in *. rewrite IH. lia.
Qed.

Lemma consecutive_end l b : b ∈ consecutive l → b.2 ∈ tail l.
Proof.
  induction l as [|a [|c l] IH]; [by inversion 1..|].
  change (consecutive (a :: c :: l)) with ((a, c) :: consecutive (c :: l)).
  intros [->|Hb]%elem_of_cons; [left|]. right. by apply IH.
Qed.

(** X15: on a well-formed collection that keeps an alignment, the
    clusterer returns at least one border, each ending where the next
    starts; there are no more borders than alignments after the first,
    or one; and every border ends at the query length or at the query
    end of an alignment. *)
Theorem cluster_contig_alns_borders σ contig alns chroms l x a r0 e0 rest :
  alns !! contig = Some x → σ !! x = Some a → wf_alns a →
  by_query_start (filter_ref_chroms chroms a) = (r0, e0) :: rest →
  ∃ borders,
    (cluster_contig_alns σ contig alns chroms l).2 = Ok borders
    ∧ borders ≠ []
    ∧ contiguous borders
    ∧ (length borders <= Nat.max 1 (length rest))%nat
    ∧ ∀ b, b ∈ borders →
        b.2 = query_lens (filter_ref_chroms chroms a) !!! 0%nat
        ∨ b.2 ∈ map snd (by_query_start (filter_ref_chroms chroms a)).
Proof.
  intros Hc Hx Hwf Hby.
  rewrite (cluster_contig_alns_result σ contig alns chroms l x a r0 e0 rest)
    by done.
  eexists. split; [done|]. split; [|split; [|split]].
  - destruct (walk r0 e0 rest); discriminate.
  - apply consecutive_contiguous.
  - rewrite length_consecutive. simpl. rewrite length_app. simpl.
    pose proof (walk_length r0 e0 rest). lia.
  - intros b Hb%consecutive_end. simpl in Hb.
    apply elem_of_app in Hb as [Hb|Hb%list_elem_of_singleton]; [|by left].
    right. rewrite Hby. simpl.
    apply walk_elem in Hb as [->|Hb]; [left|by right].
Qed.

Lemma walk_tiles to rest : ∀ current_ref prev_end lower,
  StronglySorted Z.le (prev_end :: map snd rest) →
  Forall (fun e => e <= to) (prev_end :: map snd rest) →
  lower <= prev_end →
  tiles lower to
    (consecutive (lower :: walk current_ref prev_end rest ++ [to])).
Proof.
  induction rest as [|cur rest IH]; intros current_ref prev_end lower Hs Hto Hl.
  { simpl. apply Forall_cons in Hto as [? _]. lia. }
  destruct rest as [|next rest].
  { simpl. apply Forall_cons in Hto as [? _]. lia. }
  apply StronglySorted_inv in Hs as [Hs Hprev].
  apply Forall_cons in Hto as [Hpto Hto].
  apply Forall_cons in Hprev as [Hpc _].
  cbn [walk]. destruct (decide _).
  - change (consecutive (lower :: (prev_end :: walk cur.1 cur.2 (next :: rest))
                         ++ [to]))
      with ((lower, prev_end)
            :: consecutive (prev_end :: walk cur.1 cur.2 (next :: rest)
                            ++ [to])).
    split; [done|]. split; [done|]. by apply IH.
  - apply IH; [done..|]. simpl in Hpc. lia.
Qed.

(** X16: when the query ends of the alignments, taken in query-start
    order, never go down and lie between 0 and the query length, the
    clusterer's borders tile the contig, and the splitter's check passes
    on them for a sequence of that length. *)
Theorem cluster_contig_alns_tiles_ordered_ends σ contig alns chroms l x a
    r0 e0 rest (contigs_dict : gmap string (list ascii)) seq :
  alns !! contig = Some x → σ !! x = Some a → wf_alns a →
  by_query_start (filter_ref_chroms chroms a) = (r0, e0) :: rest →
  query_lens (filter_ref_chroms chroms a) !!! 0%nat
  = Z.of_nat (length seq) →
  StronglySorted Z.le (e0 :: map snd rest) →
  Forall (fun e => 0 <= e <= Z.of_nat (length seq)) (e0 :: map snd rest) →
  contigs_dict !! contig = Some seq →
  ∃ borders,
    (cluster_contig_alns σ contig alns chroms l).2 = Ok borders
    ∧ tiles 0 (Z.of_nat (length seq)) borders
    ∧ (break_contig contigs_dict contig borders).2 = Ok ().
Proof.
  intros Hc Hx Hwf Hby Hq Hs Hin Hseq.
  rewrite (cluster_contig_alns_result σ contig alns chroms l x a r0 e0 rest)
    by done.
  rewrite Hq.
  assert (tiles 0 (Z.of_nat (length seq))
            (consecutive (0 :: walk r0 e0 rest ++ [Z.of_nat (length seq)])))
    as Ht.
  { apply walk_tiles; [done| |].
    - eapply Forall_impl; [exact Hin|]. simpl. intros; lia.
    - apply Forall_cons in Hin as [? _]. lia. }
  eexists. split; [done|]. split; [done|].
  rewrite (break_contig_outcome contigs_dict contig seq _ Hseq). cbn [snd].
  rewrite decide_True; [done|].
  rewrite (pieces_tile seq _ 0 (Z.of_nat (length seq)));
    [apply slice_all|lia|lia|done].
Qed.

(** ** Coverage scorer: the covered length *)

Lemma sum_from (l : list Z) a : fold_left Z.add l a = a + sum l.
Proof.
  unfold sum. revert a. induction l as [|x l IH]; intros a; simpl; [lia|].
  rewrite (IH (a + x)), (IH (0 + x)). lia.
Qed.

Lemma sum_cons x l : sum (x :: l) = x + sum l.
Proof. unfold sum at 1. simpl. rewrite sum_from. lia. Qed.

Lemma sum_perm l l' : l ≡ₚ l' → sum l = sum l'.
Proof.
  induction 1 as [|x l l' _ IH|x y l|l l' l'' _ IH1 _ IH2];
    rewrite ?sum_cons; lia.
Qed.

Lemma sweep_bounds ivs : ∀ max_end acc,
  acc <= sweep ivs max_end acc
  <= acc + sum (map (fun j : interval => Z.max 0 (j.2 - j.1)) ivs).
Proof.
  induction ivs as [|j ivs IH]; intros max_end acc; simpl.
  - unfold sum. simpl. lia.
  - rewrite sum_cons.
    specialize (IH (Z.max max_end j.2)
                  (acc + Z.max 0 (j.2 - Z.max j.1 max_end))). lia.
Qed.

(** X18: the covered length of a chromosome is never negative and never
    more than the lengths of its intervals added up. *)
Theorem covered_length_bounds (ivs : list interval) :
  0 <= covered_length ivs
  <= sum (map (fun j : interval => Z.max 0 (j.2 - j.1)) ivs).
Proof.
  unfold covered_length.
  pose proof (sweep_bounds (sorted by_start ivs) (-1) 0) as H.
  rewrite (sum_perm _ (map (fun j : interval => Z.max 0 (j.2 - j.1)) ivs))
    in H; [lia|].
  apply Permutation_map, sorted_perm.
Qed.

(** The covered length as a count over any window that holds the
    intervals. *)
Lemma covered_length_count ivs lo n :
  Forall (fun j : interval => lo <= j.1 ∧ j.2 <= lo + Z.of_nat n) ivs →
  covered_length ivs = count (fun x => (-1 <=? x) && covers ivs x) lo n.
Proof.
  intros Hw. unfold covered_length.
  rewrite (sweep_count _ lo n).
  - rewrite Z.add_0_l. apply count_ext. intros x _.
    by rewrite (covers_perm _ ivs) by apply sorted_perm.
  - apply sorted_by_start.
  - by rewrite sorted_perm.
Qed.

Lemma window_of (ivs : list interval) :
  ∃ lo n, Forall (fun j : interval => lo <= j.1 ∧ j.2 <= lo + Z.of_nat n) ivs.
Proof.
  exists (lowest_start ivs), (Z.to_nat (highest_end ivs - lowest_start ivs)).
  pose proof (lowest_start_le ivs) as H1.
  pose proof (highest_end_ge ivs) as H2.
  rewrite Forall_forall in H1, H2. apply Forall_forall. intros j Hj.
  specialize (H1 j Hj). specialize (H2 j Hj). simpl in *. lia.
Qed.

(** X19: the covered length does not depend on the order the alignments
    come in. *)
Theorem covered_length_permutation (ivs ivs' : list interval) :
  ivs ≡ₚ ivs' → covered_length ivs = covered_length ivs'.
Proof.
  intros Hp. destruct (window_of ivs) as (lo & n & Hw).
  rewrite (covered_length_count ivs lo n Hw).
  rewrite (covered_length_count ivs' lo n) by by rewrite <- Hp.
  apply count_ext. intros x _. by rewrite (covers_perm _ _ _ Hp).
Qed.

Lemma count_le f g lo n :
  (∀ x, lo <= x < lo + Z.of_nat n → f x = true → g x = true) →
  count f lo n <= count g lo n.
Proof.
  revert lo. induction n as [|n IH]; intros lo Hfg; simpl; [lia|].
  specialize (IH (lo + 1) ltac:(intros; apply Hfg; [lia|done])).
  specialize (Hfg lo ltac:(lia)).
  destruct (f lo), (g lo); simpl;
    first [lia | discriminate (Hfg eq_refl)].
Qed.

(** X20: one more alignment never lowers the covered length. *)
Theorem covered_length_grows (ivs : list interval) (j : interval) :
  covered_length ivs <= covered_length (ivs ++ [j]).
Proof.
  destruct (window_of (ivs ++ [j])) as (lo & n & Hw).
  rewrite (covered_length_count (ivs ++ [j]) lo n Hw).
  apply Forall_app in Hw as [Hw _].
  rewrite (covered_length_count ivs lo n Hw).
  apply count_le. intros x _ [H1 H2]%andb_true_iff.
  apply andb_true_iff. split; [done|].
  apply covers_true in H2 as (k & Hk & Hx). apply covers_true.
  exists k. split; [|done]. apply elem_of_app. by left.
Qed.

(** ** Coverage scorer: grouping and selection *)

Lemma dd_append_keys k v d :
  map fst (dd_append k v d)
  = if decide (k ∈ map fst d) then map fst d else map fst d ++ [k].
Proof.
  induction d as [|[k' vs] d IH].
  - destruct (decide (k ∈ map fst [])) as [Hin|_]; [by inversion Hin|done].
  - cbn [dd_append]. destruct (decide (k = k')) as [->|Hne].
    + destruct (decide (k' ∈ map fst ((k', vs) :: d))) as [_|Hout]; [done|].
      destruct Hout. left.
    + cbn [map fst]. rewrite IH.
      destruct (decide (k ∈ map fst d)) as [Hin|Hout];
        destruct (decide (k ∈ k' :: map fst d)) as [Hin'|Hout']; try done.
      * destruct Hout'. by right.
      * apply elem_of_cons in Hin' as [?|?]; done.
Qed.

Lemma dd_append_NoDup k v d :
  NoDup (map fst d) → NoDup (map fst (dd_append k v d)).
Proof.
  intros Hnd. rewrite dd_append_keys. destruct (decide _); [done|].
  apply NoDup_app. split; [done|]. split; [|apply NoDup_singleton].
  intros x Hx ->%list_elem_of_singleton. done.
Qed.

Lemma dd_append_map k v d :
  (list_to_map (dd_append k v d) : gmap string (list interval))
  = <[k := default [] ((list_to_map d : gmap string (list interval)) !! k)
          ++ [v]]> (list_to_map d).
Proof.
  induction d as [|[k' vs] d IH]; simpl; [done|].
  destruct (decide (k = k')) as [->|Hne]; simpl.
  - by rewrite lookup_insert_eq, insert_insert_eq.
  - rewrite IH, lookup_insert_ne by done. by apply insert_insert_ne.
Qed.

Lemma intervals_at_snoc_kept alns l h done i :
  l <= aln_lens alns !!! Z.to_nat i →
  intervals_at alns l h (done ++ [i])
  = intervals_at alns l h done
    ++ (if decide (ref_headers alns !!! Z.to_nat i = h)
        then [(ref_starts alns !!! Z.to_nat i, ref_ends alns !!! Z.to_nat i)]
        else []).
Proof.
  intros Hl. unfold intervals_at. rewrite filter_app, map_app. f_equal.
  destruct (decide _) as [Hh|Hh].
  - by rewrite filter_cons_True.
  - rewrite filter_cons_False; [done|]. by intros [_ ?].
Qed.

Lemma intervals_at_snoc_dropped alns l h done i :
  aln_lens alns !!! Z.to_nat i < l →
  intervals_at alns l h (done ++ [i]) = intervals_at alns l h done.
Proof.
  intros Hl. unfold intervals_at. rewrite filter_app, map_app.
  rewrite filter_cons_False by lia. by rewrite app_nil_r.
Qed.

Lemma collect_intervals_gathers alns l idxs : ∀ done d,
  wf_alns alns →
  (∀ i, i ∈ idxs → 0 <= i < Z.of_nat (length (ref_headers alns))) →
  gathered alns l done d →
  ∃ d', collect_intervals alns l idxs d = Ok d'
        ∧ gathered alns l (done ++ idxs) d'.
Proof.
  induction idxs as [|i idxs IH]; intros done d Hwf Hin Hd.
  - exists d. by rewrite app_nil_r.
  - pose proof Hwf as (_ & _ & _ & Hrs & Hre & Hal & _).
    assert (0 <= i < Z.of_nat (length (ref_headers alns))) as Hi
      by (apply Hin; left).
    cbn [collect_intervals]. rewrite !getitem_total by lia.
    cbn [mbind result_bind].
    replace (done ++ i :: idxs) with ((done ++ [i]) ++ idxs)
      by by rewrite <- app_assoc.
    destruct (aln_lens alns !!! Z.to_nat i <? l) eqn:Hl.
    + apply Z.ltb_lt in Hl. apply IH; [done|intros; apply Hin; by right|].
      destruct Hd as [Hnd Hmap]. split; [done|]. intros h.
      by rewrite intervals_at_snoc_dropped.
    + apply Z.ltb_ge in Hl. apply IH; [done|intros; apply Hin; by right|].
      destruct Hd as [Hnd Hmap]. split; [by apply dd_append_NoDup|].
      intros h. rewrite dd_append_map, intervals_at_snoc_kept by done.
      destruct (decide (ref_headers alns !!! Z.to_nat i = h)) as [<-|Hne].
      * rewrite lookup_insert_eq, Hmap.
        by destruct (intervals_at alns l _ done).
      * rewrite lookup_insert_ne, Hmap, app_nil_r by done. done.
Qed.

Lemma gathered_elem alns l done d :
  gathered alns l done d →
  ∀ h ivs, (h, ivs) ∈ d ↔ ivs = intervals_at alns l h done ∧ ivs ≠ [].
Proof.
  intros [Hnd Hmap] h ivs.
  rewrite (elem_of_list_to_map (M:=gmap string) d h ivs Hnd), Hmap.
  destruct (intervals_at alns l h done) as [|j js]; split.
  - done.
  - by intros [-> ?].
  - intros [= <-]. done.
  - by intros [-> _].
Qed.

Lemma gathered_nil alns l : gathered alns l [] [].
Proof. split; [constructor|]. intros h. apply lookup_empty. Qed.

(** X21: The first loop of [get_ref_parts] groups the reference
    intervals by chromosome: on a well-formed collection it ends with one
    entry per chromosome that has an alignment of length at least [l],
    no chromosome twice, and the entry of a chromosome lists the
    reference intervals of exactly its alignments of length at least [l],
    in the order of the alignments. *)
Theorem get_ref_parts_groups_by_chromosome alns l :
  wf_alns alns →
  ∃ all_intervals,
    collect_intervals alns l
      (range 0 (Z.of_nat (length (ref_headers alns)))) [] = Ok all_intervals
    ∧ NoDup (map fst all_intervals)
    ∧ ∀ h ivs, (h, ivs) ∈ all_intervals
               ↔ ivs = chrom_intervals alns l h ∧ ivs ≠ [].
Proof.
  intros Hwf.
  destruct (collect_intervals_gathers alns l
              (range 0 (Z.of_nat (length (ref_headers alns)))) [] [] Hwf)
    as (d & Hd & Hg).
  - intros i Hi%elem_of_range. lia.
  - apply gathered_nil.
  - exists d. split; [done|]. split; [apply Hg|].
    apply (gathered_elem _ _ _ _ Hg).
Qed.

Section Selection.
Context {P : Type} (pct_exceeds : Z → Z → P → bool).

Lemma select_refs_filter ranges total_sum (p : P) r :
  total_sum ≠ 0 →
  select_refs pct_exceeds ranges total_sum p r
  = Ok (map fst (List.filter
                   (fun kv => pct_exceeds kv.2 total_sum p && (r <? kv.2))
                   ranges)).
Proof.
  intros Ht. induction ranges as [|[i x] ranges IH]; [done|].
  cbn [select_refs List.filter]. rewrite (proj2 (Z.eqb_neq _ _) Ht), IH.
  cbn [mbind result_bind snd]. by destruct (_ && _).
Qed.

Lemma NoDup_map_fst_filter {A B} (f : A * B → bool) (d : list (A * B)) :
  NoDup (map fst d) → NoDup (map fst (List.filter f d)).
Proof.
  induction d as [|kv d IH]; [done|]. cbn [map List.filter].
  intros [Hout Hnd]%NoDup_cons. destruct (f kv); [|by apply IH].
  cbn [map]. apply NoDup_cons. split; [|by apply IH].
  intros Hin. apply Hout. apply list_elem_of_fmap in Hin as (kv' & -> & Hin).
  apply list_elem_of_fmap. exists kv'. split; [done|].
  apply list_elem_of_In, filter_In in Hin as [Hin _]. by apply list_elem_of_In.
Qed.

(** X22: When the total covered length is not zero, [get_ref_parts]
    returns, without repetition, exactly the chromosomes that have an
    alignment of length at least [l] and whose covered length passes both
    tests: the percentage test against [p] and being greater than [r]. *)
Theorem get_ref_parts_selects alns l (p : P) r all_intervals :
  wf_alns alns →
  collect_intervals alns l
    (range 0 (Z.of_nat (length (ref_headers alns)))) [] = Ok all_intervals →
  let total_sum :=
    sum (map (fun kv => covered_length kv.2) all_intervals) in
  total_sum ≠ 0 →
  ∃ chimeric_refs,
    get_ref_parts pct_exceeds alns l p r = Ok chimeric_refs
    ∧ NoDup chimeric_refs
    ∧ ∀ h, h ∈ chimeric_refs
           ↔ chrom_intervals alns l h ≠ []
             ∧ pct_exceeds (covered_length (chrom_intervals alns l h))
                 total_sum p = true
             ∧ r < covered_length (chrom_intervals alns l h).
Proof.
  intros Hwf Hc total_sum Ht.
  destruct (collect_intervals_gathers alns l
              (range 0 (Z.of_nat (length (ref_headers alns)))) [] [] Hwf)
    as (d & Hd & Hg).
  { intros i Hi%elem_of_range. lia. }
  { apply gathered_nil. }
  rewrite Hc in Hd. injection Hd as <-. cbn [app] in Hg.
  pose proof (gathered_elem _ _ _ _ Hg) as Hel. destruct Hg as [Hnd _].
  unfold get_ref_parts. rewrite Hc. cbn [mbind result_bind].
  rewrite map_map. cbn [snd].
  fold total_sum. rewrite select_refs_filter by done.
  eexists. split; [done|]. split.
  - apply NoDup_map_fst_filter. by rewrite map_map.
  - intros h. rewrite list_elem_of_fmap. split.
    + intros ([h' x] & -> & Hin).
      apply list_elem_of_In, filter_In in Hin as [Hin Htest].
      apply list_elem_of_In, list_elem_of_fmap in Hin
        as ([h'' ivs] & [= -> ->] & Hin).
      apply Hel in Hin as [-> Hne]. cbn [fst snd] in *.
      apply andb_true_iff in Htest as [H1 H2%Z.ltb_lt]. done.
    + intros (Hne & H1 & H2).
      exists (h, covered_length (chrom_intervals alns l h)). split; [done|].
      apply list_elem_of_In, filter_In. split.
      * apply list_elem_of_In, list_elem_of_fmap.
        exists (h, chrom_intervals alns l h). split; [done|].
        by apply Hel.
      * cbn [snd]. rewrite H1. by apply Z.ltb_lt.
Qed.
End Selection.

Lemma getitem_cases {A} (xs : list A) j :
  (∃ a, getitem xs j = Ok a) ∨ getitem xs j = Raise IndexError.
Proof.
  unfold getitem. destruct (_ && _); [|by right].
  destruct (xs !! _); [left; by eexists|by right].
Qed.

Lemma getitem_short {A} (xs : list A) j :
  Z.of_nat (length xs) <= j → getitem xs j = Raise IndexError.
Proof.
  intros Hj. unfold getitem.
  destruct (j <? 0) eqn:Hneg; [apply Z.ltb_lt in Hneg; lia|].
  destruct (j <? Z.of_nat (length xs)) eqn:Hlt;
    [apply Z.ltb_lt in Hlt; lia|].
  by rewrite andb_false_r.
Qed.

Lemma collect_intervals_short alns l idxs : ∀ d i,
  i ∈ idxs → Z.of_nat (length (aln_lens alns)) <= i →
  collect_intervals alns l idxs d = Raise IndexError.
Proof.
  induction idxs as [|j idxs IH]; intros d i Hin Hshort.
  - by inversion Hin.
  - cbn [collect_intervals].
    apply elem_of_cons in Hin as [Heq|Hin].
    { subst j. rewrite (getitem_short (aln_lens alns) i Hshort). reflexivity. }
    destruct (getitem_cases (aln_lens alns) j) as [[n ->]| ->]; [|done].
    cbn [mbind result_bind]. destruct (n <? l); [by eapply IH|].
    destruct (getitem_cases (ref_headers alns) j) as [[h ->]| ->]; [|done].
    destruct (getitem_cases (ref_starts alns) j) as [[s ->]| ->]; [|done].
    destruct (getitem_cases (ref_ends alns) j) as [[e ->]| ->]; [|done].
    cbn [mbind result_bind]. by eapply IH.
Qed.

(** X23: [get_ref_parts] walks the alignments by the number of
    reference headers: a collection with fewer alignment lengths than
    headers makes it raise [IndexError], whatever the thresholds. *)
Theorem get_ref_parts_short_lengths {P} (pct_exceeds : Z → Z → P → bool)
    alns l (p : P) r :
  (length (aln_lens alns) < length (ref_headers alns))%nat →
  get_ref_parts pct_exceeds alns l p r = Raise IndexError.
Proof.
  intros Hlt. unfold get_ref_parts.
  rewrite (collect_intervals_short alns l _ []
             (Z.of_nat (length (aln_lens alns)))); [done| |lia].
  apply elem_of_range. lia.
Qed.

(** ** Intrachromosomal detector: thresholds and shape of the split *)

Section DetectorMore.
Context (UniqueContigAlignment : ContigAlignment → result string)
        (LongestContigAlignment : ContigAlignment → result strand).

Lemma elem_of_keep {A} (mask : list bool) (l : list A) x :
  x ∈ keep mask l → x ∈ l.
Proof.
  revert l. induction mask as [|m mask IH]; intros [|y l]; cbn [keep];
    try by inversion 1.
  destruct m.
  - intros [->|Hx]%elem_of_cons; [left|right; by apply IH].
  - intros Hx. right. by apply IH.
Qed.

Lemma traverse_getitem_elem {A} (xs : list A) order ys y :
  traverse (getitem xs) order = Ok ys → y ∈ ys → y ∈ xs.
Proof.
  revert ys. induction order as [|i order IH]; intros ys; cbn [traverse].
  - intros [= <-]. by inversion 1.
  - destruct (getitem xs i) as [z|] eqn:Hz; [|done].
    cbn [mbind result_bind].
    destruct (traverse _ order) as [zs|]; [|done].
    cbn [mbind result_bind]. intros [= <-] [->|Hy]%elem_of_cons.
    + by eapply getitem_elem.
    + by eapply IH.
Qed.

Lemma detect_no_split_monotone ctg d c d' c' :
  d <= d' → c <= c' →
  detect LongestContigAlignment ctg d c = Ok None →
  detect LongestContigAlignment ctg d' c' = Ok None.
Proof.
  intros Hd Hc. unfold detect.
  destruct (bool_decide _); [done|].
  repeat bind_head.
  destruct distances_wrt_ref as [|g gs]; [done|].
  bind_head. destruct (d <? m) eqn:Hdm.
  - repeat bind_head.
    match goal with |- (if ?b then _ else _) = _ → _ => by destruct b end.
  - apply Z.ltb_ge in Hdm. rewrite (proj2 (Z.ltb_ge d' m)) by lia.
    bind_head. destruct (c <? m') eqn:Hcm.
    + by repeat bind_head.
    + apply Z.ltb_ge in Hcm. by rewrite (proj2 (Z.ltb_ge c' m')) by lia.
Qed.

(** X24: Raising the thresholds never creates a breakpoint: if
    [get_intra_contigs] returns no breakpoint for the distances [d] and
    [c], it returns none for any larger pair, on the same collection and
    minimum length. *)
Theorem get_intra_contigs_no_split_monotone σ alns l d c d' c' :
  d <= d' → c <= c' →
  (get_intra_contigs UniqueContigAlignment LongestContigAlignment
     σ alns l d c).2 = Ok None →
  (get_intra_contigs UniqueContigAlignment LongestContigAlignment
     σ alns l d' c').2 = Ok None.
Proof.
  intros Hd Hc. unfold get_intra_contigs, deepcopy.
  destruct (σ !! alns) as [a|]; [|done].
  destruct (UniqueContigAlignment a) as [best_header|]; [|done].
  destruct (_ !! fresh (dom σ)) as [ctg|]; [|done]. cbn [snd].
  by apply detect_no_split_monotone.
Qed.

Lemma detect_split_shape ctg d c name borders :
  detect LongestContigAlignment ctg d c = Ok (Some (name, borders)) →
  name = contig ctg
  ∧ ∃ b qlen, (b ∈ query_starts ctg ∨ b ∈ query_ends ctg)
              ∧ qlen ∈ query_lens ctg
              ∧ borders = [(0, b); (b, qlen)].
Proof.
  unfold detect. destruct (bool_decide _); [done|].
  repeat bind_head_eq.
  assert (∀ y, y ∈ ordered_query_ends ∨ y ∈ ordered_query_starts →
               y ∈ query_starts ctg ∨ y ∈ query_ends ctg) as Hq.
  { intros y [Hy|Hy];
      (eapply traverse_getitem_elem in Hy; [|eassumption]);
      destruct (bool_decide _); auto. }
  destruct distances_wrt_ref as [|g gs]; [done|].
  bind_head_eq. destruct (d <? m).
  - repeat bind_head_eq.
    match goal with |- (if ?b then _ else _) = _ → _ => destruct b end;
      intros [= <- <-]; (split; [done|]); eexists _, _;
      (split; [|split; [eapply getitem_elem; eassumption|reflexivity]]);
      apply Hq; [right|left]; eapply getitem_elem; eassumption.
  - bind_head_eq. destruct (c <? m'); [|done].
    repeat bind_head_eq. intros [= <- <-]. split; [done|]. eexists _, _.
    split; [|split; [eapply getitem_elem; eassumption|reflexivity]].
    apply Hq. right. eapply getitem_elem; eassumption.
Qed.

(** X25: A breakpoint of the detector is always usable: on a collection
    whose alignments all carry the query length [qlen] and query
    coordinates within [0, qlen], whenever [get_intra_contigs] returns a
    split it names the contig of the collection and gives the two borders
    [(0, b)] and [(b, qlen)] for a query start or end [b] of one of the
    alignments; these tile the contig, and [break_contig] on them returns
    for every dictionary that holds the contig with a sequence of that
    length. *)
Theorem get_intra_contigs_split_tiles σ alns a l d c qlen name borders :
  σ !! alns = Some a →
  Forall (fun x => x = qlen) (query_lens a) →
  Forall (fun x => 0 <= x <= qlen) (query_starts a) →
  Forall (fun x => 0 <= x <= qlen) (query_ends a) →
  (get_intra_contigs UniqueContigAlignment LongestContigAlignment
     σ alns l d c).2 = Ok (Some (name, borders)) →
  name = contig a
  ∧ (∃ b, (b ∈ query_starts a ∨ b ∈ query_ends a)
          ∧ borders = [(0, b); (b, qlen)])
  ∧ tiles 0 qlen borders
  ∧ ∀ contigs_dict seq,
      contigs_dict !! name = Some seq → Z.of_nat (length seq) = qlen →
      (break_contig contigs_dict name borders).2 = Ok ().
Proof.
  intros Ha Hql Hqs Hqe.
  destruct (UniqueContigAlignment a) as [best_header|e] eqn:Hu.
  2:{ unfold get_intra_contigs. by rewrite Ha, Hu. }
  rewrite (get_intra_contigs_copy _ _ σ alns a best_header) by done.
  cbn [snd]. intros (-> & b & qlen' & Hb & Hq & ->)%detect_split_shape.
  assert (qlen' = qlen) as ->.
  { cbn [filter_lengths filter_ref_chroms update_alns query_lens] in Hq.
    do 2 apply elem_of_keep in Hq.
    by apply (proj1 (Forall_forall _ _) Hql). }
  assert (b ∈ query_starts a ∨ b ∈ query_ends a) as Hb'.
  { cbn [filter_lengths filter_ref_chroms update_alns query_starts query_ends]
      in Hb.
    destruct Hb as [Hb|Hb]; do 2 apply elem_of_keep in Hb; auto. }
  assert (0 <= b <= qlen) as Hrange.
  { destruct Hb' as [Hb'|Hb'];
      [apply (proj1 (Forall_forall _ _) Hqs)
      |apply (proj1 (Forall_forall _ _) Hqe)]; done. }
  assert (tiles 0 qlen [(0, b); (b, qlen)]) as Ht
    by (cbn [tiles fst snd]; lia).
  split; [done|]. split; [by exists b|]. split; [done|].
  intros contigs_dict seq Hseq Hlen.
  rewrite (break_contig_outcome contigs_dict _ seq _ Hseq). cbn [snd].
  rewrite decide_True; [done|].
  rewrite (pieces_tile seq _ 0 (Z.of_nat (length seq)));
    [apply slice_all|lia|lia|by rewrite Hlen].
Qed.

End DetectorMore.

(** ** The further properties on sample inputs *)

Lemma sample_feature_sound s e gff_ins :
  s <= e → Forall (fun f => start f <= end_ f) gff_ins →
  Forall (fun f => start f <= end_ f) (sample_feature s e :: gff_ins).
Proof. intros Hse Hg. by constructor. Qed.


Lemma avoid_gff_intervals_keeps_contiguity_witness :
  [(0, 10); (10, 20)] ≠ ([] : list interval)
  ∧ Forall (fun f => start f <= end_ f) [sample_feature 5 15]
  ∧ Nat.le (fuel_for [(0, 10); (10, 20)] [sample_feature 5 15]) 16
  ∧ contiguous [(0, 10); (10, 20)]
  ∧ ∃ new_borders,
      avoid_gff_intervals 16 [(0, 10); (10, 20)] [sample_feature 5 15]
      = Some (Ok new_borders)
      ∧ contiguous new_borders.
Proof.
  assert ([(0, 10); (10, 20)] ≠ ([] : list interval)) as Hne by discriminate.
  assert (Forall (fun f => start f <= end_ f) [sample_feature 5 15]) as Hf
    by (apply sample_feature_sound; [lia|constructor]).
  assert (Nat.le (fuel_for [(0, 10); (10, 20)] [sample_feature 5 15]) 16)
    as Hfuel by (vm_compute; lia).
  assert (contiguous [(0, 10); (10, 20)]) as Hc by (simpl; tauto).
  split; [exact Hne|]. split; [exact Hf|]. split; [exact Hfuel|].
  split; [exact Hc|].
  exact (avoid_gff_intervals_keeps_contiguity 16 [(0, 10); (10, 20)]
           [sample_feature 5 15] Hne Hf Hfuel Hc).
Defined.

Lemma avoid_gff_intervals_keeps_tiling_witness :
  [(0, 2); (2, 4)] ≠ ([] : list interval)
  ∧ Forall (fun f => start f <= end_ f
                     <= Z.of_nat (length ["A"; "C"; "G"; "T"]%char))
      [sample_feature 1 3]
  ∧ Nat.le (fuel_for [(0, 2); (2, 4)] [sample_feature 1 3]) 4
  ∧ tiles 0 (Z.of_nat (length ["A"; "C"; "G"; "T"]%char)) [(0, 2); (2, 4)]
  ∧ free [sample_feature 1 3] 0
  ∧ ({[ "ctg" := ["A"; "C"; "G"; "T"]%char ]} : gmap string (list ascii))
      !! "ctg" = Some ["A"; "C"; "G"; "T"]%char
  ∧ ∃ new_borders,
      avoid_gff_intervals 4 [(0, 2); (2, 4)] [sample_feature 1 3]
      = Some (Ok new_borders)
      ∧ tiles 0 (Z.of_nat (length ["A"; "C"; "G"; "T"]%char)) new_borders
      ∧ (break_contig {[ "ctg" := ["A"; "C"; "G"; "T"]%char ]} "ctg"
           new_borders).2 = Ok ().
Proof.
  assert ([(0, 2); (2, 4)] ≠ ([] : list interval)) as Hne by discriminate.
  assert (Forall (fun f => start f <= end_ f
                           <= Z.of_nat (length ["A"; "C"; "G"; "T"]%char))
            [sample_feature 1 3]) as Hf
    by (repeat constructor; simpl; lia).
  assert (Nat.le (fuel_for [(0, 2); (2, 4)] [sample_feature 1 3]) 4)
    as Hfuel by (vm_compute; lia).
  assert (tiles 0 (Z.of_nat (length ["A"; "C"; "G"; "T"]%char))
            [(0, 2); (2, 4)]) as Ht
    by (simpl; lia).
  assert (free [sample_feature 1 3] 0) as Hfree.
  { intros f ->%list_elem_of_singleton. simpl. lia. }
  assert (({[ "ctg" := ["A"; "C"; "G"; "T"]%char ]}
             : gmap string (list ascii)) !! "ctg"
          = Some ["A"; "C"; "G"; "T"]%char) as Hc by reflexivity.
  split; [exact Hne|]. split; [exact Hf|]. split; [exact Hfuel|].
  split; [exact Ht|]. split; [exact Hfree|]. split; [exact Hc|].
  exact (avoid_gff_intervals_keeps_tiling 4 [(0, 2); (2, 4)]
           [sample_feature 1 3] {[ "ctg" := ["A"; "C"; "G"; "T"]%char ]}
           "ctg" ["A"; "C"; "G"; "T"]%char Hne Hf Hfuel Ht Hfree Hc).
Defined.

Lemma avoid_gff_intervals_leaves_free_borders_witness :
  [(0, 3); (3, 20)] ≠ ([] : list interval)
  ∧ Forall (fun f => start f <= end_ f) [sample_feature 5 15]
  ∧ Nat.le (fuel_for [(0, 3); (3, 20)] [sample_feature 5 15]) 16
  ∧ (∀ (k : nat) b, [(0, 3); (3, 20)] !! k = Some b →
       free [sample_feature 5 15] b.1
       ∧ ((S k < length [(0, 3); (3, 20)])%nat →
          free [sample_feature 5 15] b.2))
  ∧ avoid_gff_intervals 16 [(0, 3); (3, 20)] [sample_feature 5 15]
    = Some (Ok [(0, 3); (3, 20)]).
Proof.
  assert ([(0, 3); (3, 20)] ≠ ([] : list interval)) as Hne by discriminate.
  assert (Forall (fun f => start f <= end_ f) [sample_feature 5 15]) as Hf
    by (apply sample_feature_sound; [lia|constructor]).
  assert (Nat.le (fuel_for [(0, 3); (3, 20)] [sample_feature 5 15]) 16)
    as Hfuel by (vm_compute; lia).
  assert (∀ (k : nat) b, [(0, 3); (3, 20)] !! k = Some b →
            free [sample_feature 5 15] b.1
            ∧ ((S k < length [(0, 3); (3, 20)])%nat →
               free [sample_feature 5 15] b.2)) as Hfree.
  { intros [|[|k]] b Hb; simpl in Hb; [| |done]; injection Hb as <-.
    - split; [|intros _]; intros f ->%list_elem_of_singleton; simpl; lia.
    - split; [|simpl; lia].
      intros f ->%list_elem_of_singleton; simpl; lia. }
  split; [exact Hne|]. split; [exact Hf|]. split; [exact Hfuel|].
  split; [exact Hfree|].
  exact (avoid_gff_intervals_leaves_free_borders 16 [(0, 3); (3, 20)]
           [sample_feature 5 15] Hne Hf Hfuel Hfree).
Defined.

Lemma avoid_gff_intervals_idempotent_witness :
  [(0, 10); (10, 20)] ≠ ([] : list interval)
  ∧ Forall (fun f => start f <= end_ f) [sample_feature 5 15]
  ∧ Nat.le (fuel_for [(0, 10); (10, 20)] [sample_feature 5 15]) 16
  ∧ ∃ new_borders,
      avoid_gff_intervals 16 [(0, 10); (10, 20)] [sample_feature 5 15]
      = Some (Ok new_borders)
      ∧ avoid_gff_intervals 16 new_borders [sample_feature 5 15]
        = Some (Ok new_borders).
Proof.
  assert ([(0, 10); (10, 20)] ≠ ([] : list interval)) as Hne by discriminate.
  assert (Forall (fun f => start f <= end_ f) [sample_feature 5 15]) as Hf
    by (apply sample_feature_sound; [lia|constructor]).
  assert (Nat.le (fuel_for [(0, 10); (10, 20)] [sample_feature 5 15]) 16)
    as Hfuel by (vm_compute; lia).
  split; [exact Hne|]. split; [exact Hf|]. split; [exact Hfuel|].
  exact (avoid_gff_intervals_idempotent 16 [(0, 10); (10, 20)]
           [sample_feature 5 15] Hne Hf Hfuel).
Defined.

Lemma avoid_gff_intervals_errors_witness :
  Exists (fun f => end_ f < start f) [sample_feature 15 5]
  ∧ avoid_gff_intervals 0 [(0, 10)] [sample_feature 15 5]
    = Some (Raise ValueError)
  ∧ Forall (fun f => start f <= end_ f) [sample_feature 5 15]
  ∧ avoid_gff_intervals 0 [] [sample_feature 5 15]
    = Some (Raise IndexError).
Proof.
  assert (Exists (fun f => end_ f < start f) [sample_feature 15 5]) as Hrev
    by (apply Exists_cons_hd; simpl; lia).
  assert (Forall (fun f => start f <= end_ f) [sample_feature 5 15]) as Hf
    by (apply sample_feature_sound; [lia|constructor]).
  split; [exact Hrev|]. split.
  - exact (proj1 (avoid_gff_intervals_errors 0 [(0, 10)]
                    [sample_feature 15 5]) Hrev).
  - split; [exact Hf|].
    exact (proj2 (avoid_gff_intervals_errors 0 [] [sample_feature 5 15])
             Hf eq_refl).
Defined.

Lemma update_gff_frame_witness :
  ({[ "other" := [sample_feature 1 2] ]} : gmap string (list feature))
    !! "ctg" = None
  ∧ update_gff {[ "other" := [sample_feature 1 2] ]} [(0, 10)] "ctg"
    = ({[ "other" := [sample_feature 1 2] ]}, Raise KeyError)
  ∧ "other" ≠ "ctg"
  ∧ (∀ b, b ∈ [(0, 10); (10, 20)] → "other" ≠ broken_name "ctg" b)
  ∧ (update_gff
       (<[ "other" := [sample_feature 1 2] ]>
          {[ "ctg" := [sample_feature 5 15] ]})
       [(0, 10); (10, 20)] "ctg").1 !! "other"
    = (<[ "other" := [sample_feature 1 2] ]>
         ({[ "ctg" := [sample_feature 5 15] ]}
            : gmap string (list feature))) !! "other".
Proof.
  assert (({[ "other" := [sample_feature 1 2] ]}
             : gmap string (list feature)) !! "ctg" = None) as Hnone
    by reflexivity.
  assert ("other" ≠ "ctg") as Hk by discriminate.
  assert (∀ b, b ∈ [(0, 10); (10, 20)] → "other" ≠ broken_name "ctg" b)
    as Hb.
  { intros b Hb. apply elem_of_cons in Hb as [->|Hb];
      [|apply list_elem_of_singleton in Hb as ->];
      intros Heq; vm_compute in Heq; discriminate. }
  split; [exact Hnone|]. split.
  - exact (proj1 (update_gff_frame {[ "other" := [sample_feature 1 2] ]}
                    [(0, 10)] "ctg") Hnone).
  - split; [exact Hk|]. split; [exact Hb|].
    exact (proj2 (update_gff_frame
                    (<[ "other" := [sample_feature 1 2] ]>
                       {[ "ctg" := [sample_feature 5 15] ]})
                    [(0, 10); (10, 20)] "ctg") "other" Hk Hb).
Defined.

Lemma update_gff_rejects_empty_border_witness :
  ({[ "ctg" := [sample_feature 5 15] ]} : gmap string (list feature))
    !! "ctg" = Some [sample_feature 5 15]
  ∧ Exists (fun b : interval => b.2 <= b.1) [(0, 10); (10, 10)]
  ∧ (update_gff {[ "ctg" := [sample_feature 5 15] ]}
       [(0, 10); (10, 10)] "ctg").2 = Raise ValueError
  ∧ (update_gff {[ "ctg" := [sample_feature 5 15] ]}
       [(0, 10); (10, 10)] "ctg").1 !! "ctg" = None
  ∧ ∀ b, b ∈ [(0, 10); (10, 10)] →
      (update_gff {[ "ctg" := [sample_feature 5 15] ]}
         [(0, 10); (10, 10)] "ctg").1 !! broken_name "ctg" b = Some [].
Proof.
  assert (({[ "ctg" := [sample_feature 5 15] ]}
             : gmap string (list feature)) !! "ctg"
          = Some [sample_feature 5 15]) as Hc by reflexivity.
  assert (Exists (fun b : interval => b.2 <= b.1) [(0, 10); (10, 10)])
    as Hex by (apply Exists_cons_tl, Exists_cons_hd; simpl; lia).
  split; [exact Hc|]. split; [exact Hex|].
  exact (update_gff_rejects_empty_border
           {[ "ctg" := [sample_feature 5 15] ]} [(0, 10); (10, 10)] "ctg"
           [sample_feature 5 15] Hc Hex).
Defined.

Lemma update_gff_accepts_tiling_witness :
  ({[ "ctg" := [sample_feature 5 15] ]} : gmap string (list feature))
    !! "ctg" = Some [sample_feature 5 15]
  ∧ tiles 0 20 [(0, 10); (10, 20)]
  ∧ Forall (fun b : interval => b.1 < b.2) [(0, 10); (10, 20)]
  ∧ Forall (fun i => 0 <= start i < 20) [sample_feature 5 15]
  ∧ (update_gff {[ "ctg" := [sample_feature 5 15] ]}
       [(0, 10); (10, 20)] "ctg").2 = Ok ().
Proof.
  assert (({[ "ctg" := [sample_feature 5 15] ]}
             : gmap string (list feature)) !! "ctg"
          = Some [sample_feature 5 15]) as Hc by reflexivity.
  assert (tiles 0 20 [(0, 10); (10, 20)]) as Ht by (simpl; lia).
  assert (Forall (fun b : interval => b.1 < b.2) [(0, 10); (10, 20)]) as Hb
    by (repeat constructor; simpl; lia).
  assert (Forall (fun i => 0 <= start i < 20) [sample_feature 5 15]) as Hf
    by (repeat constructor; simpl; lia).
  split; [exact Hc|]. split; [exact Ht|]. split; [exact Hb|].
  split; [exact Hf|].
  exact (update_gff_accepts_tiling {[ "ctg" := [sample_feature 5 15] ]}
           [(0, 10); (10, 20)] "ctg" [sample_feature 5 15] 20
           Hc Ht Hb Hf).
Defined.

Lemma update_gff_partitions_witness :
  ({[ "ctg" := [sample_feature 12 15; sample_feature 2 8] ]}
     : gmap string (list feature)) !! "ctg"
  = Some [sample_feature 12 15; sample_feature 2 8]
  ∧ Forall (fun b : interval => b.1 < b.2) [(0, 10); (10, 20)]
  ∧ NoDup [(0, 10); (10, 20)]
  ∧ Forall (fun i => ∃ b, unique_border [(0, 10); (10, 20)] (start i) b)
      [sample_feature 12 15; sample_feature 2 8]
  ∧ ∃ groups,
      Forall2
        (fun b g =>
           (update_gff
              {[ "ctg" := [sample_feature 12 15; sample_feature 2 8] ]}
              [(0, 10); (10, 20)] "ctg").1 !! broken_name "ctg" b
           = Some (relocate "ctg" b <$> g))
        [(0, 10); (10, 20)] groups
      ∧ concat groups ≡ₚ [sample_feature 12 15; sample_feature 2 8].
Proof.
  assert (({[ "ctg" := [sample_feature 12 15; sample_feature 2 8] ]}
             : gmap string (list feature)) !! "ctg"
          = Some [sample_feature 12 15; sample_feature 2 8]) as Hc
    by reflexivity.
  assert (Forall (fun b : interval => b.1 < b.2) [(0, 10); (10, 20)]) as Hb
    by (repeat constructor; simpl; lia).
  assert (NoDup [(0, 10); (10, 20)]) as Hnd.
  { apply NoDup_cons. split; [|apply NoDup_singleton].
    intros H%list_elem_of_singleton. discriminate. }
  assert (Forall
            (fun i => ∃ b, unique_border [(0, 10); (10, 20)] (start i) b)
            [sample_feature 12 15; sample_feature 2 8]) as Hf.
  { repeat constructor.
    - exists (10, 20). split; [right; left|]. split; [simpl; lia|].
      intros b' Hb' Hp. simpl in Hp.
      apply elem_of_cons in Hb' as [->|Hb']; [simpl in Hp; lia|].
      by apply list_elem_of_singleton in Hb' as ->.
    - exists (0, 10). split; [left|]. split; [simpl; lia|].
      intros b' Hb' Hp. simpl in Hp.
      apply elem_of_cons in Hb' as [->|Hb']; [done|].
      apply list_elem_of_singleton in Hb' as ->. simpl in Hp. lia. }
  split; [exact Hc|]. split; [exact Hb|]. split; [exact Hnd|].
  split; [exact Hf|].
  exact (update_gff_partitions
           {[ "ctg" := [sample_feature 12 15; sample_feature 2 8] ]}
           [(0, 10); (10, 20)] "ctg"
           [sample_feature 12 15; sample_feature 2 8] Hc Hb Hnd Hf).
Defined.

Lemma break_contig_frame_witness :
  ({[ "other" := ["A"; "C"]%char ]} : gmap string (list ascii)) !! "ctg"
  = None
  ∧ break_contig {[ "other" := ["A"; "C"]%char ]} "ctg" [(0, 2)]
    = ({[ "other" := ["A"; "C"]%char ]}, Raise KeyError)
  ∧ "other" ≠ "ctg"
  ∧ (∀ b, b ∈ [(0, 1); (1, 4)] → "other" ≠ broken_name "ctg" b)
  ∧ (break_contig
       (<[ "other" := ["A"; "C"]%char ]>
          {[ "ctg" := ["A"; "C"; "G"; "T"]%char ]})
       "ctg" [(0, 1); (1, 4)]).1 !! "other"
    = (<[ "other" := ["A"; "C"]%char ]>
         ({[ "ctg" := ["A"; "C"; "G"; "T"]%char ]}
            : gmap string (list ascii))) !! "other".
Proof.
  assert (({[ "other" := ["A"; "C"]%char ]} : gmap string (list ascii))
            !! "ctg" = None) as Hnone by reflexivity.
  assert ("other" ≠ "ctg") as Hk by discriminate.
  assert (∀ b, b ∈ [(0, 1); (1, 4)] → "other" ≠ broken_name "ctg" b) as Hb.
  { intros b Hb. apply elem_of_cons in Hb as [->|Hb];
      [|apply list_elem_of_singleton in Hb as ->];
      intros Heq; vm_compute in Heq; discriminate. }
  split; [exact Hnone|]. split.
  - exact (proj1 (break_contig_frame {[ "other" := ["A"; "C"]%char ]}
                    "ctg" [(0, 2)]) Hnone).
  - split; [exact Hk|]. split; [exact Hb|].
    exact (proj2 (break_contig_frame
                    (<[ "other" := ["A"; "C"]%char ]>
                       {[ "ctg" := ["A"; "C"; "G"; "T"]%char ]})
                    "ctg" [(0, 1); (1, 4)]) "other" Hk Hb).
Defined.

Lemma break_contig_piece_lengths_witness :
  ({[ "ctg" := ["A"; "C"; "G"; "T"]%char ]} : gmap string (list ascii))
    !! "ctg" = Some ["A"; "C"; "G"; "T"]%char
  ∧ tiles 0 (Z.of_nat (length ["A"; "C"; "G"; "T"]%char)) [(0, 1); (1, 4)]
  ∧ ∀ b, b ∈ [(0, 1); (1, 4)] →
      ∃ piece,
        (break_contig {[ "ctg" := ["A"; "C"; "G"; "T"]%char ]} "ctg"
           [(0, 1); (1, 4)]).1 !! broken_name "ctg" b = Some piece
        ∧ Z.of_nat (length piece) = b.2 - b.1.
Proof.
  assert (({[ "ctg" := ["A"; "C"; "G"; "T"]%char ]}
             : gmap string (list ascii)) !! "ctg"
          = Some ["A"; "C"; "G"; "T"]%char) as Hh by reflexivity.
  assert (tiles 0 (Z.of_nat (length ["A"; "C"; "G"; "T"]%char))
            [(0, 1); (1, 4)]) as Ht by (simpl; lia).
  split; [exact Hh|]. split; [exact Ht|].
  exact (break_contig_piece_lengths
           {[ "ctg" := ["A"; "C"; "G"; "T"]%char ]} "ctg"
           ["A"; "C"; "G"; "T"]%char [(0, 1); (1, 4)] Hh Ht).
Defined.

Lemma break_contig_accepts_overshoot_witness :
  ({[ "ctg" := ["A"; "C"; "G"; "T"]%char ]} : gmap string (list ascii))
    !! "ctg" = Some ["A"; "C"; "G"; "T"]%char
  ∧ Z.of_nat (length ["A"; "C"; "G"; "T"]%char) <= 10
  ∧ tiles 0 10 [(0, 2); (2, 10)]
  ∧ concat (pieces ["A"; "C"; "G"; "T"]%char [(0, 2); (2, 10)])
    = ["A"; "C"; "G"; "T"]%char
  ∧ (break_contig {[ "ctg" := ["A"; "C"; "G"; "T"]%char ]} "ctg"
       [(0, 2); (2, 10)]).2 = Ok ().
Proof.
  assert (({[ "ctg" := ["A"; "C"; "G"; "T"]%char ]}
             : gmap string (list ascii)) !! "ctg"
          = Some ["A"; "C"; "G"; "T"]%char) as Hh by reflexivity.
  assert (Z.of_nat (length ["A"; "C"; "G"; "T"]%char) <= 10) as Hn
    by (simpl; lia).
  assert (tiles 0 10 [(0, 2); (2, 10)]) as Ht by (simpl; lia).
  split; [exact Hh|]. split; [exact Hn|]. split; [exact Ht|].
  exact (break_contig_accepts_overshoot
           {[ "ctg" := ["A"; "C"; "G"; "T"]%char ]} "ctg"
           ["A"; "C"; "G"; "T"]%char [(0, 2); (2, 10)] 10 Hh Hn Ht).
Defined.

Lemma cluster_contig_alns_borders_witness :
  ({[ "ctg" := 1%positive ]} : gmap string loc) !! "ctg" = Some 1%positive
  ∧ ({[ 1%positive := switch_alns ]} : gmap loc ContigAlignment) !! 1%positive
    = Some switch_alns
  ∧ wf_alns switch_alns
  ∧ by_query_start (filter_ref_chroms ["chr1"; "chr2"] switch_alns)
    = [("chr1", 100); ("chr2", 200); ("chr2", 300)]
  ∧ ∃ borders,
      (cluster_contig_alns {[ 1%positive := switch_alns ]} "ctg"
         {[ "ctg" := 1%positive ]} ["chr1"; "chr2"] 0).2 = Ok borders
      ∧ borders ≠ []
      ∧ contiguous borders
      ∧ Nat.le (length borders)
          (Nat.max 1 (length [("chr2", 200); ("chr2", 300)]))
      ∧ ∀ b, b ∈ borders →
          b.2 = query_lens (filter_ref_chroms ["chr1"; "chr2"] switch_alns)
                  !!! 0%nat
          ∨ b.2 ∈ map snd (by_query_start
                             (filter_ref_chroms ["chr1"; "chr2"]
                                switch_alns)).
Proof.
  assert (wf_alns switch_alns) as Hwf by (repeat split; reflexivity).
  assert (({[ "ctg" := 1%positive ]} : gmap string loc) !! "ctg"
          = Some 1%positive) as Hc by reflexivity.
  assert (({[ 1%positive := switch_alns ]} : gmap loc ContigAlignment)
            !! 1%positive = Some switch_alns) as Hx by reflexivity.
  assert (by_query_start (filter_ref_chroms ["chr1"; "chr2"] switch_alns)
          = [("chr1", 100); ("chr2", 200); ("chr2", 300)]) as Hby
    by reflexivity.
  split; [exact Hc|]. split; [exact Hx|]. split; [exact Hwf|].
  split; [exact Hby|].
  exact (cluster_contig_alns_borders
           {[ 1%positive := switch_alns ]} "ctg"
           {[ "ctg" := 1%positive ]} ["chr1"; "chr2"] 0 1%positive
           switch_alns "chr1" 100 [("chr2", 200); ("chr2", 300)]
           Hc Hx Hwf Hby).
Defined.

Lemma cluster_contig_alns_tiles_ordered_ends_witness :
  ({[ "ctg" := 1%positive ]} : gmap string loc) !! "ctg" = Some 1%positive
  ∧ ({[ 1%positive := switch_alns ]} : gmap loc ContigAlignment) !! 1%positive
    = Some switch_alns
  ∧ wf_alns switch_alns
  ∧ by_query_start (filter_ref_chroms ["chr1"; "chr2"] switch_alns)
    = [("chr1", 100); ("chr2", 200); ("chr2", 300)]
  ∧ query_lens (filter_ref_chroms ["chr1"; "chr2"] switch_alns) !!! 0%nat
    = Z.of_nat (length (replicate 300 "A"%char))
  ∧ StronglySorted Z.le (100 :: map snd [("chr2", 200); ("chr2", 300)])
  ∧ Forall (fun e => 0 <= e <= Z.of_nat (length (replicate 300 "A"%char)))
      (100 :: map snd [("chr2", 200); ("chr2", 300)])
  ∧ ({[ "ctg" := replicate 300 "A"%char ]} : gmap string (list ascii))
      !! "ctg" = Some (replicate 300 "A"%char)
  ∧ ∃ borders,
      (cluster_contig_alns {[ 1%positive := switch_alns ]} "ctg"
         {[ "ctg" := 1%positive ]} ["chr1"; "chr2"] 0).2 = Ok borders
      ∧ tiles 0 (Z.of_nat (length (replicate 300 "A"%char))) borders
      ∧ (break_contig {[ "ctg" := replicate 300 "A"%char ]} "ctg"
           borders).2 = Ok ().
Proof.
  assert (wf_alns switch_alns) as Hwf by (repeat split; reflexivity).
  assert (({[ "ctg" := 1%positive ]} : gmap string loc) !! "ctg"
          = Some 1%positive) as Hc by reflexivity.
  assert (({[ 1%positive := switch_alns ]} : gmap loc ContigAlignment)
            !! 1%positive = Some switch_alns) as Hx by reflexivity.
  assert (by_query_start (filter_ref_chroms ["chr1"; "chr2"] switch_alns)
          = [("chr1", 100); ("chr2", 200); ("chr2", 300)]) as Hby
    by reflexivity.
  assert (query_lens (filter_ref_chroms ["chr1"; "chr2"] switch_alns)
            !!! 0%nat
          = Z.of_nat (length (replicate 300 "A"%char))) as Hq
    by reflexivity.
  assert (StronglySorted Z.le
            (100 :: map snd [("chr2", 200); ("chr2", 300)])) as Hs
    by (repeat (constructor; simpl); lia).
  assert (Forall
            (fun e => 0 <= e <= Z.of_nat (length (replicate 300 "A"%char)))
            (100 :: map snd [("chr2", 200); ("chr2", 300)])) as Hr
    by (rewrite length_replicate; repeat constructor; simpl; lia).
  assert (({[ "ctg" := replicate 300 "A"%char ]}
             : gmap string (list ascii)) !! "ctg"
          = Some (replicate 300 "A"%char)) as Hd by reflexivity.
  split; [exact Hc|]. split; [exact Hx|]. split; [exact Hwf|].
  split; [exact Hby|]. split; [exact Hq|]. split; [exact Hs|].
  split; [exact Hr|]. split; [exact Hd|].
  exact (cluster_contig_alns_tiles_ordered_ends
           {[ 1%positive := switch_alns ]} "ctg"
           {[ "ctg" := 1%positive ]} ["chr1"; "chr2"] 0 1%positive
           switch_alns "chr1" 100 [("chr2", 200); ("chr2", 300)]
           {[ "ctg" := replicate 300 "A"%char ]} (replicate 300 "A"%char)
           Hc Hx Hwf Hby Hq Hs Hr Hd).
Defined.

Lemma covered_length_permutation_witness :
  [(0, 10); (5, 15)] ≡ₚ [(5, 15); (0, 10)]
  ∧ covered_length [(0, 10); (5, 15)] = covered_length [(5, 15); (0, 10)].
Proof.
  assert ([(0, 10); (5, 15)] ≡ₚ [(5, 15); (0, 10)]) as Hp
    by apply perm_swap.
  split; [exact Hp|].
  exact (covered_length_permutation [(0, 10); (5, 15)] [(5, 15); (0, 10)]
           Hp).
Defined.

Lemma get_ref_parts_groups_by_chromosome_witness :
  wf_alns switch_alns
  ∧ ∃ all_intervals,
      collect_intervals switch_alns 0
        (range 0 (Z.of_nat (length (ref_headers switch_alns)))) []
      = Ok all_intervals
      ∧ NoDup (map fst all_intervals)
      ∧ ∀ h ivs, (h, ivs) ∈ all_intervals
                 ↔ ivs = chrom_intervals switch_alns 0 h ∧ ivs ≠ [].
Proof.
  assert (wf_alns switch_alns) as Hwf by (repeat split; reflexivity).
  split; [exact Hwf|].
  exact (get_ref_parts_groups_by_chromosome switch_alns 0 Hwf).
Defined.

Lemma get_ref_parts_selects_witness :
  wf_alns switch_alns
  ∧ collect_intervals switch_alns 0
      (range 0 (Z.of_nat (length (ref_headers switch_alns)))) []
    = Ok [("chr1", [(0, 100)]); ("chr2", [(0, 100); (100, 200)])]
  ∧ sum (map (fun kv : string * list interval => covered_length kv.2)
           [("chr1", [(0, 100)]); ("chr2", [(0, 100); (100, 200)])]) ≠ 0
  ∧ ∃ chimeric_refs,
      get_ref_parts exact_pct_exceeds switch_alns 0 5 0 = Ok chimeric_refs
      ∧ NoDup chimeric_refs
      ∧ ∀ h, h ∈ chimeric_refs
             ↔ chrom_intervals switch_alns 0 h ≠ []
               ∧ exact_pct_exceeds
                   (covered_length (chrom_intervals switch_alns 0 h))
                   (sum (map (fun kv : string * list interval =>
                                covered_length kv.2)
                           [("chr1", [(0, 100)]);
                            ("chr2", [(0, 100); (100, 200)])])) 5 = true
               ∧ 0 < covered_length (chrom_intervals switch_alns 0 h).
Proof.
  assert (wf_alns switch_alns) as Hwf by (repeat split; reflexivity).
  assert (collect_intervals switch_alns 0
            (range 0 (Z.of_nat (length (ref_headers switch_alns)))) []
          = Ok [("chr1", [(0, 100)]); ("chr2", [(0, 100); (100, 200)])])
    as Hc by reflexivity.
  assert (sum (map (fun kv : string * list interval => covered_length kv.2)
                 [("chr1", [(0, 100)]); ("chr2", [(0, 100); (100, 200)])])
          ≠ 0) as Ht by (vm_compute; discriminate).
  split; [exact Hwf|]. split; [exact Hc|]. split; [exact Ht|].
  exact (get_ref_parts_selects exact_pct_exceeds switch_alns 0 5 0
           [("chr1", [(0, 100)]); ("chr2", [(0, 100); (100, 200)])]
           Hwf Hc Ht).
Defined.

Lemma get_ref_parts_short_lengths_witness :
  Nat.lt
    (length (aln_lens
               {| contig := "ctg"; query_lens := [10]; query_starts := [0];
                  query_ends := [10]; ref_headers := ["chr1"];
                  ref_lens := [100000]; ref_starts := [5];
                  ref_ends := [15]; aln_lens := []; strands := [Plus] |}))
    (length (ref_headers
               {| contig := "ctg"; query_lens := [10]; query_starts := [0];
                  query_ends := [10]; ref_headers := ["chr1"];
                  ref_lens := [100000]; ref_starts := [5];
                  ref_ends := [15]; aln_lens := []; strands := [Plus] |}))
  ∧ get_ref_parts exact_pct_exceeds
      {| contig := "ctg"; query_lens := [10]; query_starts := [0];
         query_ends := [10]; ref_headers := ["chr1"];
         ref_lens := [100000]; ref_starts := [5];
         ref_ends := [15]; aln_lens := []; strands := [Plus] |} 0 5 0
    = Raise IndexError.
Proof.
  assert (Nat.lt
    (length (aln_lens
               {| contig := "ctg"; query_lens := [10]; query_starts := [0];
                  query_ends := [10]; ref_headers := ["chr1"];
                  ref_lens := [100000]; ref_starts := [5];
                  ref_ends := [15]; aln_lens := []; strands := [Plus] |}))
    (length (ref_headers
               {| contig := "ctg"; query_lens := [10]; query_starts := [0];
                  query_ends := [10]; ref_headers := ["chr1"];
                  ref_lens := [100000]; ref_starts := [5];
                  ref_ends := [15]; aln_lens := []; strands := [Plus] |})))
    as Hlt by (simpl; lia).
  split; [exact Hlt|].
  exact (get_ref_parts_short_lengths exact_pct_exceeds _ 0 5 0 Hlt).
Defined.

Lemma get_intra_contigs_no_split_monotone_witness :
  6000 <= 7000 ∧ 1000 <= 2000
  ∧ (get_intra_contigs best_ref_chrom longest_strand
       {[ 1%positive := gap_alns ]} 1%positive 0 6000 1000).2 = Ok None
  ∧ (get_intra_contigs best_ref_chrom longest_strand
       {[ 1%positive := gap_alns ]} 1%positive 0 7000 2000).2 = Ok None.
Proof.
  assert (6000 <= 7000) as Hd by lia.
  assert (1000 <= 2000) as Hc by lia.
  assert ((get_intra_contigs best_ref_chrom longest_strand
             {[ 1%positive := gap_alns ]} 1%positive 0 6000 1000).2
          = Ok None) as Hn by (vm_compute; reflexivity).
  split; [exact Hd|]. split; [exact Hc|]. split; [exact Hn|].
  exact (get_intra_contigs_no_split_monotone best_ref_chrom longest_strand
           {[ 1%positive := gap_alns ]} 1%positive 0 6000 1000 7000 2000
           Hd Hc Hn).
Defined.

Lemma get_intra_contigs_split_tiles_witness :
  ({[ 1%positive := gap_alns ]} : gmap loc ContigAlignment) !! 1%positive
  = Some gap_alns
  ∧ Forall (fun x => x = 1010) (query_lens gap_alns)
  ∧ Forall (fun x => 0 <= x <= 1010) (query_starts gap_alns)
  ∧ Forall (fun x => 0 <= x <= 1010) (query_ends gap_alns)
  ∧ (get_intra_contigs best_ref_chrom longest_strand
       {[ 1%positive := gap_alns ]} 1%positive 0 1000 1000).2
    = Ok (Some ("ctg", [(0, 500); (500, 1010)]))
  ∧ "ctg" = contig gap_alns
  ∧ (∃ b, (b ∈ query_starts gap_alns ∨ b ∈ query_ends gap_alns)
          ∧ [(0, 500); (500, 1010)] = [(0, b); (b, 1010)])
  ∧ tiles 0 1010 [(0, 500); (500, 1010)]
  ∧ ∀ (contigs_dict : gmap string (list ascii)) seq,
      contigs_dict !! "ctg" = Some seq → Z.of_nat (length seq) = 1010 →
      (break_contig contigs_dict "ctg" [(0, 500); (500, 1010)]).2 = Ok ().
Proof.
  assert (({[ 1%positive := gap_alns ]} : gmap loc ContigAlignment)
            !! 1%positive = Some gap_alns) as Ha by reflexivity.
  assert (Forall (fun x => x = 1010) (query_lens gap_alns)) as Hql
    by (repeat constructor).
  assert (Forall (fun x => 0 <= x <= 1010) (query_starts gap_alns)) as Hqs
    by (repeat constructor; lia).
  assert (Forall (fun x => 0 <= x <= 1010) (query_ends gap_alns)) as Hqe
    by (repeat constructor; lia).
  assert ((get_intra_contigs best_ref_chrom longest_strand
             {[ 1%positive := gap_alns ]} 1%positive 0 1000 1000).2
          = Ok (Some ("ctg", [(0, 500); (500, 1010)]))) as Hout
    by (vm_compute; reflexivity).
  split; [exact Ha|]. split; [exact Hql|]. split; [exact Hqs|].
  split; [exact Hqe|]. split; [exact Hout|].
  exact (get_intra_contigs_split_tiles best_ref_chrom longest_strand
           {[ 1%positive := gap_alns ]} 1%positive gap_alns 0 1000 1000
           1010 "ctg" [(0, 500); (500, 1010)] Ha Hql Hqs Hqe Hout).
Defined.
